(** * Corporate news extraction: label-preserving pruning, addressing,
      labelling and link-group classification

    A shallow embedding of [article_content_extractor.py] and
    [news_url_extractor.py].  A BeautifulSoup document is a tree of tags
    and strings; a tag's attribute dictionary is a finite map from
    attribute names to values.

    Conventions of the embedding:
    - strings are ASCII text; a string child of a tag is a plain
      [NavigableString] (its subclasses for comments, doctypes and the
      text of scripts and styles, which [get_text] leaves out, are not
      modelled);
    - a function that mutates the tree returns the new tree; elements are
      addressed by their path from the root, so that an element found in
      one step is the one changed in the next;
    - assigning [None] to an attribute is modelled as removing it, since
      every read of an attribute in the sources treats [None] as absent;
    - a Python exception is a value [Raise e] of the outcome type; only
      instances of [Exception] are modelled;
    - the libraries the sources call without defining (the JSON codec, the
      date parser, the browser driver, the HTML parser) are variables of
      the section that uses them;
    - a method of [NewsGroupFinder] that drives the browser is a program
      over the calls it makes on the driver and on the elements the driver
      hands out; it runs against an arbitrary browser, which answers each
      call with a value or an exception, and the run records the calls
      made.  Sleeping and printing are left out. *)

From Stdlib Require Import ZArith Lia Bool.
From Stdlib Require Import Strings.Ascii.
From Stdlib Require Strings.String QArith.
From stdpp Require Import gmap strings list pretty sorting.


(** ** Python strings *)

Module Py.

Definition code (c : ascii) : N := Ascii.N_of_ascii c.

Definition in_range (lo hi : N) (c : ascii) : bool :=
  ((lo <=? code c) && (code c <=? hi))%N.

Definition isupper (c : ascii) : bool := in_range 65 90 c.
Definition islower (c : ascii) : bool := in_range 97 122 c.
Definition isdigit (c : ascii) : bool := in_range 48 57 c.
Definition isalnum (c : ascii) : bool := isupper c || islower c || isdigit c.

(** [str.isspace] on ASCII: TAB, LF, VT, FF, CR, FS, GS, RS, US, space. *)
Definition isspace (c : ascii) : bool :=
  in_range 9 13 c || in_range 28 32 c.

Definition lower_char (c : ascii) : ascii :=
  if isupper c then Ascii.ascii_of_N (code c + 32) else c.

Definition upper_char (c : ascii) : ascii :=
  if islower c then Ascii.ascii_of_N (code c - 32) else c.

Definition chars (s : string) : list ascii := String.list_ascii_of_string s.
Definition str (l : list ascii) : string := String.string_of_list_ascii l.

(** [s.lower()] *)
Definition lower (s : string) : string := str (map lower_char (chars s)).

Fixpoint drop_while (p : ascii -> bool) (l : list ascii) : list ascii :=
  match l with
  | c :: l' => if p c then drop_while p l' else l
  | [] => []
  end.

Definition lstrip_with (p : ascii -> bool) (s : string) : string :=
  str (drop_while p (chars s)).
Definition rstrip_with (p : ascii -> bool) (s : string) : string :=
  str (rev (drop_while p (rev (chars s)))).

(** [s.strip()], [s.lstrip(c)], [s.rstrip(c)] *)
Definition strip (s : string) : string := lstrip_with isspace (rstrip_with isspace s).
Definition lstrip_char (c : ascii) (s : string) : string := lstrip_with (Ascii.eqb c) s.
Definition rstrip_char (c : ascii) (s : string) : string := rstrip_with (Ascii.eqb c) s.

(** [s.startswith(p)] *)
Definition startswith (p s : string) : bool := String.prefix p s.

(** [sub in s], which is also [s.find(sub) != -1] *)
Fixpoint contains (sub s : string) : bool :=
  String.prefix sub s
  || match s with
     | EmptyString => false
     | String _ s' => contains sub s'
     end.

(** [s.split(c)] for a one-character separator. *)
Fixpoint split_go (p : ascii -> bool) (cur : list ascii) (l : list ascii)
  : list string :=
  match l with
  | [] => [str (rev cur)]
  | c :: l' =>
      if p c then str (rev cur) :: split_go p [] l'
      else split_go p (c :: cur) l'
  end.
Definition split (c : ascii) (s : string) : list string :=
  split_go (Ascii.eqb c) [] (chars s).

(** [re.split('[...]', s)]: split at every character of a class. *)
Definition re_split_class (p : ascii -> bool) (s : string) : list string :=
  split_go p [] (chars s).

(** [re.split('[...]+', s)]: split at every maximal run of characters of
    a class. *)
Fixpoint split_runs_go (p : ascii -> bool) (in_run : bool) (cur : list ascii)
  (l : list ascii) : list string :=
  match l with
  | [] => [str (rev cur)]
  | c :: l' =>
      if p c then
        if in_run then split_runs_go p true [] l'
        else str (rev cur) :: split_runs_go p true [] l'
      else split_runs_go p false (c :: cur) l'
  end.
Definition re_split_runs (p : ascii -> bool) (s : string) : list string :=
  split_runs_go p false [] (chars s).

(** [sep.join(l)] *)
Definition join (sep : string) (l : list string) : string := String.concat sep l.

Definition len (s : string) : nat := String.length s.

(** Truthiness of a string. *)
Definition nonempty (s : string) : bool := negb (String.eqb s "").

(** [l[-1]] and [l[-2]] *)
Definition last_item (l : list string) : option string := last l.
Definition second_last (l : list string) : option string :=
  match rev l with _ :: x :: _ => Some x | _ => None end.

End Py.

(** ** Python's [re], for the patterns the sources use *)

Module Re.

(** Pattern syntax.  Alternation tries its left branch first and [Star]
    is greedy, as in a backtracking matcher. *)
Inductive re : Type :=
| Eps
| Chr (p : ascii -> bool)
| Cat (r1 r2 : re)
| Alt (r1 r2 : re)
| Star (r : re)
| Bol
| Eol.

Section Run.
Context {A : Type}.

(** [run fuel r bos s k]: match [r] at the front of [s] and hand what
    is left to the continuation [k]; [bos] tells whether [s] starts at
    the beginning of the subject.  An iteration of [Star] must consume
    a character, so [fuel] above the length of [s] is never used up. *)
Fixpoint run (fuel : nat)
  : re -> bool -> list ascii -> (bool -> list ascii -> option A) -> option A :=
  fix go (r : re) (bos : bool) (s : list ascii)
         (k : bool -> list ascii -> option A) {struct r} : option A :=
    match r with
    | Eps => k bos s
    | Chr p =>
        match s with
        | c :: s' => if p c then k false s' else None
        | [] => None
        end
    | Cat r1 r2 => go r1 bos s (fun b s' => go r2 b s' k)
    | Alt r1 r2 =>
        match go r1 bos s k with
        | Some x => Some x
        | None => go r2 bos s k
        end
    | Star r1 =>
        match fuel with
        | O => k bos s
        | S fuel' =>
            match go r1 bos s
                    (fun b s' =>
                       if (length s' <? length s)%nat
                       then run fuel' (Star r1) b s' k else None) with
            | Some x => Some x
            | None => k bos s
            end
        end
    | Bol => if bos then k bos s else None
    | Eol =>
        match s with
        | [] => k bos s
        | [c] => if Ascii.eqb c "010" then k bos s else None
        | _ => None
        end
    end.
End Run.

(** What is left of [s] after the first way [r] matches at its front. *)
Definition match_front (r : re) (bos : bool) (s : list ascii) : option (list ascii) :=
  run (S (length s)) r bos s (fun _ rest => Some rest).

Fixpoint search_from (r : re) (bos : bool) (s : list ascii) : option (list ascii) :=
  match match_front r bos s with
  | Some rest => Some (take (length s - length rest) s)
  | None =>
      match s with
      | [] => None
      | _ :: s' => search_from r false s'
      end
  end.

(** [re.search(r, s)]: the text of the leftmost match, [m.group()]. *)
Definition search (r : re) (s : string) : option string :=
  Py.str <$> search_from r true (Py.chars s).

(** [bool(re.search(r, s))] *)
Definition found (r : re) (s : string) : bool :=
  match search r s with Some _ => true | None => false end.

(** [re.sub(r, '', s)] for a pattern that begins with [^]: only a match
    at the start of [s] is removed. *)
Definition sub_at_start (r : re) (s : string) : string :=
  match match_front r true (Py.chars s) with
  | Some rest => Py.str rest
  | None => s
  end.

(** Pattern builders. *)
Definition seq (l : list re) : re := foldr Cat Eps l.
Definition alt (l : list re) : re :=
  match l with
  | [] => Eps
  | r :: l' => foldl Alt r l'
  end.
Definition opt (r : re) : re := Alt r Eps.
Definition plus (r : re) : re := Cat r (Star r).
Definition chr (c : ascii) : re := Chr (Ascii.eqb c).
Definition lit (s : string) : re := seq (map chr (Py.chars s)).

(** [r{lo,hi}], greedy. *)
Fixpoint upto (r : re) (n : nat) : re :=
  match n with
  | O => Eps
  | S n' => opt (Cat r (upto r n'))
  end.
Fixpoint times (r : re) (n : nat) : re :=
  match n with
  | O => Eps
  | S n' => Cat r (times r n')
  end.
Definition between (r : re) (lo hi : nat) : re :=
  Cat (times r lo) (upto r (hi - lo)).

(** Character classes. *)
Definition any : re := Chr (fun c => negb (Ascii.eqb c "010")).   (* [.] *)
Definition digit : re := Chr Py.isdigit.                           (* [\d] *)
Definition space : re := Chr Py.isspace.                           (* [\s] *)
Definition one_of (s : string) : ascii -> bool :=
  fun c => existsb (Ascii.eqb c) (Py.chars s).

(** The flag [re.I] on a pattern: a character matches when its lower- or
    upper-case form does. *)
Fixpoint ignorecase (r : re) : re :=
  match r with
  | Chr p => Chr (fun c => p c || p (Py.lower_char c) || p (Py.upper_char c))
  | Cat r1 r2 => Cat (ignorecase r1) (ignorecase r2)
  | Alt r1 r2 => Alt (ignorecase r1) (ignorecase r2)
  | Star r1 => Star (ignorecase r1)
  | Eps => Eps
  | Bol => Bol
  | Eol => Eol
  end.

End Re.
(** ** The document tree *)

Module Dom.

(** bs4's [Tag] ([name], [attrs], [contents]) and [NavigableString].
    The [BeautifulSoup] object itself is a tag named [[document]]. *)
Unset Elimination Schemes.
Inductive node : Type :=
| NavigableString (s : string)
| Tag (name : string) (attrs : gmap string string) (contents : list node).
Set Elimination Schemes.

Section node_ind.
Variable P : node -> Prop.
Hypothesis P_string : forall s, P (NavigableString s).
Hypothesis P_tag : forall nm a cs, Forall P cs -> P (Tag nm a cs).

Fixpoint node_ind (n : node) : P n :=
  match n with
  | NavigableString s => P_string s
  | Tag nm a cs =>
      P_tag nm a cs
        ((fix all (l : list node) : Forall P l :=
            match l with
            | [] => List.Forall_nil P
            | c :: l' => List.Forall_cons P c l' (node_ind c) (all l')
            end) cs)
  end.
End node_ind.

Definition is_tag (n : node) : bool :=
  match n with Tag _ _ _ => true | NavigableString _ => false end.

Definition name (n : node) : option string :=
  match n with Tag nm _ _ => Some nm | NavigableString _ => None end.

Definition contents (n : node) : list node :=
  match n with Tag _ _ cs => cs | NavigableString _ => [] end.

(** [element.get(key)] *)
Definition get (n : node) (key : string) : option string :=
  match n with Tag _ a _ => a !! key | NavigableString _ => None end.

(** Python truthiness of the value returned by [get]: [None] and the
    empty string are false. *)
Definition truthy (v : option string) : bool :=
  match v with
  | Some s => negb (String.eqb s "")
  | None => false
  end.

Definition has_attr (key : string) (n : node) : bool :=
  match get n key with Some _ => true | None => false end.

Definition name_is (nm : string) (n : node) : bool :=
  match n with Tag nm' _ _ => String.eqb nm' nm | NavigableString _ => false end.

(** A tag followed by all tags below it, in document order. *)
Fixpoint tags_of (n : node) : list node :=
  match n with
  | NavigableString _ => []
  | Tag _ _ cs => n :: flat_map tags_of cs
  end.

(** [n.find_all(True)]: the tags strictly below [n], in document order. *)
Definition find_all (n : node) : list node := flat_map tags_of (contents n).

(** Positions: the child indices leading from the root to a node. *)
Definition path := list nat.

Fixpoint get_at (p : path) (n : node) : option node :=
  match p with
  | [] => Some n
  | i :: p' =>
      match contents n !! i with
      | Some c => get_at p' c
      | None => None
      end
  end.

(** Replace the node at position [i] of a child list by the result of
    [f]; [None] removes it (bs4's [decompose]). *)
Definition splice (f : node -> option node) (i : nat) (cs : list node)
  : list node :=
  match cs !! i with
  | Some c => take i cs ++ option_list (f c) ++ drop (S i) cs
  | None => cs
  end.

(** Apply [f] in place at path [p]; the root itself is never removed. *)
Fixpoint alter_at (f : node -> option node) (p : path) (n : node) : node :=
  match p, n with
  | [i], Tag nm a cs => Tag nm a (splice f i cs)
  | i :: p', Tag nm a cs =>
      Tag nm a (splice (fun c => Some (alter_at f p' c)) i cs)
  | _, _ => n
  end.

(** The path of the first tag below [n], in document order, that
    satisfies [q] ([n.find(...)]). *)
Fixpoint find_path (q : node -> bool) (n : node) : option path :=
  match n with
  | NavigableString _ => None
  | Tag _ _ cs =>
      (fix go (i : nat) (l : list node) : option path :=
         match l with
         | [] => None
         | c :: l' =>
             if is_tag c && q c then Some [i]
             else match find_path q c with
                  | Some p => Some (i :: p)
                  | None => go (S i) l'
                  end
         end) 0%nat cs
  end.

(** [soup.find_all(string=True)]: every string, in document order. *)
Fixpoint strings_of (n : node) : list string :=
  match n with
  | NavigableString s => [s]
  | Tag _ _ cs => flat_map strings_of cs
  end.

(** [n.get_text()] and [n.get_text(strip=True)] *)
Definition get_text (n : node) : string := Py.join "" (strings_of n).
Definition get_text_strip (n : node) : string :=
  Py.join "" (List.filter Py.nonempty (map Py.strip (strings_of n))).

(** [n.string]: the single string below a chain of only children. *)
Fixpoint string_of (n : node) : option string :=
  match n with
  | NavigableString s => Some s
  | Tag _ _ [c] => string_of c
  | Tag _ _ _ => None
  end.

(** The tokens of a multi-valued attribute such as [class] or [rel]:
    [None] when the attribute is absent. *)
Definition tokens (s : string) : list string :=
  List.filter Py.nonempty (Py.re_split_class Py.isspace s).
Definition get_list (n : node) (key : string) : option (list string) :=
  tokens <$> get n key.

(** [element[key] = value] *)
Definition with_attr (key value : string) (n : node) : node :=
  match n with
  | Tag nm a cs => Tag nm (<[ key := value ]> a) cs
  | NavigableString _ => n
  end.

(** [element[key] = value] where the value may be [None]: reading the
    attribute then gives [None], as if it were absent. *)
Definition with_attr_opt (key : string) (value : option string) (n : node) : node :=
  match n, value with
  | Tag nm a cs, Some v => Tag nm (<[ key := v ]> a) cs
  | Tag nm a cs, None => Tag nm (delete key a) cs
  | NavigableString _, _ => n
  end.

Definition set_attr (p : path) (key value : string) (soup : node) : node :=
  alter_at (fun n => Some (with_attr key value n)) p soup.

(** A tag together with its position and its ancestors, nearest first. *)
Record located := Located {
  loc_path : path;
  loc_node : node;
  loc_parents : list node
}.

(** The tag [n] at reversed position [rp] below the ancestors [ps], and the
    tags below it, in document order. *)
Fixpoint locate (rp : path) (ps : list node) (n : node) : list located :=
  match n with
  | NavigableString _ => []
  | Tag _ _ cs =>
      Located (rev rp) n ps
      :: (fix go (i : nat) (l : list node) : list located :=
            match l with
            | [] => []
            | c :: l' => locate (i :: rp) (n :: ps) c ++ go (S i) l'
            end) 0%nat cs
  end.

Fixpoint locate_children (rp : path) (ps : list node) (i : nat) (l : list node)
  : list located :=
  match l with
  | [] => []
  | c :: l' => locate (i :: rp) ps c ++ locate_children rp ps (S i) l'
  end.

(** The tags strictly below the document root, and strictly below a
    located tag. *)
Definition located_all (soup : node) : list located := tail (locate [] [] soup).
Definition located_below (e : located) : list located :=
  tail (locate (rev (loc_path e)) (loc_parents e) (loc_node e)).

(** [x.find(...)] *)
Definition find_in (l : list located) (q : node -> bool) : option located :=
  head (List.filter (fun e => q (loc_node e)) l).

(** [tag.parent] of a located tag. *)
Definition parent (e : located) : option node := head (loc_parents e).

(** Python's [max(l, key=...)]: the first element with the largest key. *)
Fixpoint py_max_from {A} (key : A -> nat) (best : A) (l : list A) : A :=
  match l with
  | [] => best
  | x :: l' => py_max_from key (if (key best <? key x)%nat then x else best) l'
  end.
Definition py_max {A} (key : A -> nat) (l : list A) : option A :=
  match l with
  | [] => None
  | x :: l' => Some (py_max_from key x l')
  end.

End Dom.

(** ** Exceptions *)

Module Exc.

(** An exception: its class and [str(e)]. *)
Record exn := Exn { exn_class : string; exn_msg : string }.

Inductive outcome (A : Type) : Type :=
| Return (a : A)
| Raise (e : exn).
Arguments Return {A} a.
Arguments Raise {A} e.

Definition bind {A B} (m : outcome A) (f : A -> outcome B) : outcome B :=
  match m with
  | Return a => f a
  | Raise e => Raise e
  end.

(** [try: body except Exception as e: handler(e)] *)
Definition try_except {A} (body : outcome A) (handler : exn -> outcome A) : outcome A :=
  match body with
  | Return a => Return a
  | Raise e => handler e
  end.

End Exc.

Notation "x <- m ;; k" := (Exc.bind m (fun x => k))
  (at level 100, m at next level, right associativity).


(** ** The tree pruner and its verifier ([SoupCleaner]) *)

Module SoupCleaner.
Import Dom.

Definition content_labels : list string :=
  [ "ali-zx9v8k2m4p-title-type";
    "ali-zx9v8k2m4p-date-type";
    "ali-zx9v8k2m4p-content-type";
    "ali-zx9v8k2m4p-metadate_type";
    "ali-zx9v8k2m4p-table_header_p9m2";
    "ali-zx9v8k2m4p-table_cell_p9m2" ].

Definition structural_tags : list string :=
  [ "html"; "head"; "body"; "main"; "article";
    "style"; "script"; "link"; "meta";
    "nav"; "header"; "footer";
    "button"; "form" ].

(** The attribute that carries a node's identifier. *)
Definition id_attr : string := "ali-zx9v8k2m4p".

(** The object's two fields. *)
Record t := mk { original_soup : node; clean_soup : option node }.

Definition init (labeled_soup : node) : t :=
  {| original_soup := labeled_soup; clean_soup := None |}.

Definition _should_keep_element (element : node) : bool :=
  existsb (fun label => truthy (get element label)) content_labels.

Definition _has_labeled_descendant (element : node) : bool :=
  existsb (fun desc => existsb (fun label => truthy (get desc label)) content_labels)
          (find_all element).

Definition _is_structural_element (element : node) : bool :=
  match name element with
  | Some nm => existsb (String.eqb nm) structural_tags
  | None => false
  end.

(** [_process_element] mutates the tree below [element]; here it returns
    what stands in the element's place afterwards, [None] when the
    element was decomposed. *)
Fixpoint _process_element (element : node) : option node :=
  match element with
  | NavigableString _ => Some element
  | Tag nm a cs =>
      if _should_keep_element element then Some element
      else if negb (_has_labeled_descendant element) then
        if negb (_is_structural_element element) then None else Some element
      else Some (Tag nm a (omap _process_element cs))
  end.

(** [copy.deepcopy] is the identity on values. *)
Definition create_clean_soup (self : t) : t * node :=
  let copy := original_soup self in
  let clean :=
    match find_path (name_is "body") copy with
    | Some p => alter_at _process_element p copy
    | None => copy
    end in
  ({| original_soup := original_soup self; clean_soup := Some clean |}, clean).

(** [set(e.get(id) for e in soup.find_all(attrs={label: True}))] *)
Definition labeled_ids (label : string) (soup : node) : gset (option string) :=
  list_to_set (map (fun e => get e id_attr)
                   (List.filter (has_attr label) (find_all soup))).

Definition verify_clean_soup (self : t) : t * bool :=
  let self' :=
    match clean_soup self with
    | Some _ => self
    | None => fst (create_clean_soup self)
    end in
  let clean := from_option id (original_soup self') (clean_soup self') in
  (self',
   forallb (fun label =>
              bool_decide (labeled_ids label (original_soup self')
                           = labeled_ids label clean))
           content_labels).

(** Every label attribute that is present on [d] has a non-empty value,
    as every label the extractor writes has. *)
Definition label_values_ok (d : node) : bool :=
  forallb (fun label =>
             match get d label with
             | Some v => negb (String.eqb v "")
             | None => true
             end) content_labels.

Definition labels_nonempty (soup : node) : bool :=
  forallb label_values_ok (find_all soup).

(** What [_process_element] stops at: a labelled element, or a structural
    element without labelled descendants; both are kept with their whole
    subtree. *)
Definition kept_whole (a : node) : bool :=
  _should_keep_element a
  || (_is_structural_element a && negb (_has_labeled_descendant a)).

(** An element with no label, no labelled descendant and no structural
    tag. *)
Definition unjustified (x : node) : bool :=
  is_tag x && negb (_should_keep_element x)
  && negb (_has_labeled_descendant x) && negb (_is_structural_element x).

End SoupCleaner.

(** ** The content labeller ([ArticleExtractor]) *)

Module ArticleExtractor.
Import Dom.

Definition aux_tag : string := "ali-tx9v8k2m4p".
Definition seq_attr : string := "ali-tx9v8k2m4p-seq".
Definition id_attr : string := "ali-zx9v8k2m4p".

(** [f'qw7x_{idx}_p9m2'] and [f"q7y5n3j6h_{idx}"] *)
Definition seq_value (idx : nat) : string :=
  String.append "qw7x_" (String.append (pretty idx) "_p9m2").
Definition id_value (idx : nat) : string :=
  String.append "q7y5n3j6h_" (pretty idx).

(** [text.strip()] is truthy. *)
Definition nonempty_text (s : string) : bool := Py.nonempty (Py.strip s).

(** [text.wrap(aux_tag)] with the sequence attribute set. *)
Definition wrap (idx : nat) (s : string) : node :=
  Tag aux_tag {[ seq_attr := seq_value idx ]} [NavigableString s].

(** The loop of [_wrap_text_nodes]: the non-empty strings are numbered in
    document order; the counter is threaded through the tree in that
    order, and each such string is replaced by its wrapper. *)
Fixpoint wrap_from (idx : nat) (n : node) : nat * node :=
  match n with
  | NavigableString s =>
      if nonempty_text s then (S idx, wrap idx s) else (idx, n)
  | Tag nm a cs =>
      let '(idx', cs') :=
        (fix go (idx : nat) (l : list node) : nat * list node :=
           match l with
           | [] => (idx, [])
           | c :: l' =>
               let '(i1, c') := wrap_from idx c in
               let '(i2, l'') := go i1 l' in
               (i2, c' :: l'')
           end) idx cs in
      (idx', Tag nm a cs')
  end.

Fixpoint wrap_list (idx : nat) (l : list node) : nat * list node :=
  match l with
  | [] => (idx, [])
  | c :: l' =>
      let '(i1, c') := wrap_from idx c in
      let '(i2, l'') := wrap_list i1 l' in
      (i2, c' :: l'')
  end.

Definition _wrap_text_nodes (soup : node) : node := snd (wrap_from 1 soup).

(** The loop of [_label_elements]: [enumerate(soup.find_all())] numbers
    the tags below the root in document order, from 0. *)
Fixpoint label_from (idx : nat) (n : node) : nat * node :=
  match n with
  | NavigableString _ => (idx, n)
  | Tag nm a cs =>
      let '(idx', cs') :=
        (fix go (idx : nat) (l : list node) : nat * list node :=
           match l with
           | [] => (idx, [])
           | c :: l' =>
               let '(i1, c') := label_from idx c in
               let '(i2, l'') := go i1 l' in
               (i2, c' :: l'')
           end) (S idx) cs in
      (idx', Tag nm (<[ id_attr := id_value idx ]> a) cs')
  end.

Fixpoint label_list (idx : nat) (l : list node) : nat * list node :=
  match l with
  | [] => (idx, [])
  | c :: l' =>
      let '(i1, c') := label_from idx c in
      let '(i2, l'') := label_list i1 l' in
      (i2, c' :: l'')
  end.

Definition _label_elements (soup : node) : node :=
  match soup with
  | Tag nm a cs => Tag nm a (snd (label_list 0 cs))
  | NavigableString _ => soup
  end.

(** Observations on an addressed tree. *)
Definition is_wrapper (n : node) : bool := name_is aux_tag n.

Definition wrappers (soup : node) : list node :=
  List.filter is_wrapper (find_all soup).

(** A wrapper that holds exactly one string and carries a sequence
    attribute: the attribute's value and the string. *)
Definition wrapper_shape (w : node) : option (string * string) :=
  match w with
  | Tag _ a [NavigableString s] =>
      match a !! seq_attr with
      | Some v => Some (v, s)
      | None => None
      end
  | _ => None
  end.

Definition shapes (l : list node) : list (option (string * string)) :=
  map wrapper_shape (List.filter is_wrapper l).

(** The non-empty strings that are not the child of a wrapper. *)
Fixpoint bare_texts (n : node) : list string :=
  match n with
  | NavigableString _ => []
  | Tag nm _ cs =>
      flat_map (fun c =>
                  match c with
                  | NavigableString s =>
                      if nonempty_text s && negb (String.eqb nm aux_tag)
                      then [s] else []
                  | Tag _ _ _ => bare_texts c
                  end) cs
  end.

(** A fresh snapshot has no wrapper yet. *)
Definition fresh (soup : node) : bool :=
  forallb (fun e => negb (is_wrapper e)) (tags_of soup).


(** A JSON value as [json.loads] returns it; an object holds one item per
    key.  A number stands for an [int]; a [float] behaves alike below
    (truthy unless zero, no [len]). *)
Unset Elimination Schemes.
Inductive json : Type :=
| JNull
| JBool (b : bool)
| JNum (z : Z)
| JStr (s : string)
| JArr (l : list json)
| JObj (items : list (string * json)).
Set Elimination Schemes.

Definition json_truthy (v : json) : bool :=
  match v with
  | JNull => false
  | JBool b => b
  | JNum z => negb (z =? 0)%Z
  | JStr s => Py.nonempty s
  | JArr l => match l with [] => false | _ => true end
  | JObj l => match l with [] => false | _ => true end
  end.

(** [len(v)]; [None] stands for the [TypeError] raised on a value without
    a length. *)
Definition json_len (v : json) : option nat :=
  match v with
  | JStr s => Some (Py.len s)
  | JArr l => Some (length l)
  | JObj l => Some (length l)
  | JNull | JBool _ | JNum _ => None
  end.

(** [type(v).__name__] *)
Definition json_type_name (v : json) : string :=
  match v with
  | JNull => "NoneType"
  | JBool _ => "bool"
  | JNum _ => "int"
  | JStr _ => "str"
  | JArr _ => "list"
  | JObj _ => "dict"
  end.

Fixpoint assoc (k : string) (l : list (string * json)) : option json :=
  match l with
  | [] => None
  | (k', v) :: l' => if String.eqb k' k then Some v else assoc k l'
  end.

Definition json_of_attr (v : option string) : json :=
  match v with Some s => JStr s | None => JNull end.

(** Attribute filters of [find]. *)
Definition attr_is (key value : string) (n : node) : bool :=
  match get n key with
  | Some v => String.eqb v value
  | None => false
  end.

(** A multi-valued attribute matches a string when one of its tokens, or
    all of them joined by spaces, is that string; it matches a pattern when
    the pattern is found in a token or in the joined tokens. *)
Definition list_attr_is (key value : string) (n : node) : bool :=
  match get_list n key with
  | Some l => existsb (fun t => String.eqb t value) l || String.eqb (Py.join " " l) value
  | None => false
  end.
Definition list_attr_found (key : string) (r : Re.re) (n : node) : bool :=
  match get_list n key with
  | Some l => existsb (Re.found r) l || Re.found r (Py.join " " l)
  | None => false
  end.

(** [soup.find(attrs={key: value})]: with [None] for the value, the tags
    that lack the attribute. *)
Definition attr_eq_opt (key : string) (value : option string) (n : node) : bool :=
  match value with
  | Some v => attr_is key v n
  | None => negb (has_attr key n)
  end.

Definition title_attr : string := "ali-zx9v8k2m4p-title-type".
Definition title_value : string := "qw7x_article_title_p9m2".

Record title_candidate := TitleCandidate {
  tc_element : located;
  tc_text : json;
  tc_ali_id : option string
}.

Definition candidate_of (e : located) (text : json) : title_candidate :=
  TitleCandidate e text (get (loc_node e) id_attr).

Section Extractor.

(** The libraries the extractor calls: [json.loads] ([None] when it
    raises), [json.dumps] on a list of strings, [dateutil.parser.parse]
    ([None] when it raises), the comparison [parsed_date > datetime.now()]
    ([None] when it raises, as between an aware and a naive datetime), and
    [str] of a datetime. *)
Variable json_loads : string -> option json.
Variable json_dumps : list string -> string.
Variable datetime : Type.
Variable dateutil_parse : string -> option datetime.
Variable in_future : datetime -> option bool.
Variable datetime_str : datetime -> string.

(** [soup.find('script', type='application/ld+json')] and the dictionary
    [json.loads(schema.string)] when it is one. *)
Definition find_schema (soup : node) : option located :=
  find_in (located_all soup)
          (fun n => name_is "script" n && attr_is "type" "application/ld+json" n).

Definition schema_dict (schema : located) : option (list (string * json)) :=
  match string_of (loc_node schema) with
  | Some s =>
      match json_loads s with
      | Some (JObj items) => Some items
      | _ => None
      end
  | None => None
  end.

Definition og_title_candidate (soup : node) : list title_candidate :=
  match find_in (located_all soup)
                (fun n => name_is "meta" n && attr_is "property" "og:title" n) with
  | Some og_title => [candidate_of og_title (json_of_attr (get (loc_node og_title) "content"))]
  | None => []
  end.

Definition schema_title_candidate (soup : node) : list title_candidate :=
  match find_schema soup with
  | Some schema =>
      match schema_dict schema with
      | Some data =>
          match assoc "headline" data with
          | Some headline => [candidate_of schema headline]
          | None => []
          end
      | None => []
      end
  | None => []
  end.

Definition h1_candidate (l : list located) : list title_candidate :=
  match find_in l (name_is "h1") with
  | Some h1 => [candidate_of h1 (JStr (get_text_strip (loc_node h1)))]
  | None => []
  end.

Definition article_title_candidate (soup : node) : list title_candidate :=
  match find_in (located_all soup) (name_is "article") with
  | Some article => h1_candidate (located_below article)
  | None => []
  end.

Definition title_candidates (soup : node) : list title_candidate :=
  let cands := og_title_candidate soup ++ schema_title_candidate soup
               ++ article_title_candidate soup in
  match cands with
  | [] => h1_candidate (located_all soup)
  | _ => cands
  end.

(** [candidate['text'] and len(candidate['text']) < 200] *)
Definition title_is_valid (c : title_candidate) : Exc.outcome bool :=
  if json_truthy (tc_text c) then
    match json_len (tc_text c) with
    | Some n => Exc.Return (n <? 200)%nat
    | None =>
        Exc.Raise (Exc.Exn "TypeError"
                     (String.append "object of type '"
                        (String.append (json_type_name (tc_text c)) "' has no len()")))
    end
  else Exc.Return false.

(** A candidate text on which the validity test can be evaluated: not a
    number and not a boolean, which are truthy without having a length. *)
Definition is_textual (v : json) : bool :=
  match v with
  | JNum _ | JBool _ => false
  | _ => true
  end.

Definition title_ok (c : title_candidate) : bool :=
  json_truthy (tc_text c)
  && match json_len (tc_text c) with
     | Some n => (n <? 200)%nat
     | None => false
     end.

Fixpoint valid_titles (l : list title_candidate) : Exc.outcome (list title_candidate) :=
  match l with
  | [] => Exc.Return []
  | c :: l' =>
      ok <- title_is_valid c ;;
      rest <- valid_titles l' ;;
      Exc.Return (if ok then c :: rest else rest)
  end.

Definition title_len (c : title_candidate) : nat :=
  from_option id 0%nat (json_len (tc_text c)).

(** The candidate [_mark_title] selects, if any. *)
Definition best_title (soup : node) : Exc.outcome (option title_candidate) :=
  valid <- valid_titles (title_candidates soup) ;;
  Exc.Return (py_max title_len valid).

Definition _mark_title (soup : node) : Exc.outcome node :=
  best <- best_title soup ;;
  Exc.Return
    match best with
    | Some best_title =>
        match find_in (located_all soup) (attr_eq_opt id_attr (tc_ali_id best_title)) with
        | Some element => set_attr (loc_path element) title_attr title_value soup
        | None => soup
        end
    | None => soup
    end.


(** *** [_mark_date] *)

Definition date_attr : string := "ali-zx9v8k2m4p-date-type".
Definition date_value : string := "qw7x_article_date_p9m2".
Definition parsed_date_attr : string := "ali-zx9v8k2m4p-parsed-date".

Definition mark_date_at (p : path) (date : datetime) (soup : node) : node :=
  set_attr p parsed_date_attr (datetime_str date)
           (set_attr p date_attr date_value soup).

(** The loop over the [meta] tags: the first published-time property whose
    [content] parses. *)
Fixpoint meta_date (metas : list located) : option (located * datetime) :=
  match metas with
  | [] => None
  | meta :: rest =>
      if match get (loc_node meta) "property" with
         | Some v => String.eqb v "article:published_time"
                     || String.eqb v "og:published_time"
         | None => false
         end
      then
        match get (loc_node meta) "content" with
        | Some content =>
            match dateutil_parse content with
            | Some date => Some (meta, date)
            | None => meta_date rest
            end
        | None => meta_date rest
        end
      else meta_date rest
  end.

(** The [datePublished] field of the schema block, when it parses. *)
Definition schema_date (soup : node) : option (located * datetime) :=
  match find_schema soup with
  | Some schema =>
      match schema_dict schema with
      | Some data =>
          match assoc "datePublished" data with
          | Some (JStr s) =>
              match dateutil_parse s with
              | Some date => Some (schema, date)
              | None => None
              end
          | _ => None
          end
      | None => None
      end
  | None => None
  end.

(** [\d{4}-\d{2}-\d{2}], [\d{1,2}/\d{1,2}/\d{2,4}] and
    [(Jan|...|Dec)[a-z]* \d{1,2},? \d{4}] *)
Definition date_patterns : list Re.re :=
  [ Re.seq [Re.times Re.digit 4; Re.chr "-"; Re.times Re.digit 2; Re.chr "-";
            Re.times Re.digit 2];
    Re.seq [Re.between Re.digit 1 2; Re.chr "/"; Re.between Re.digit 1 2; Re.chr "/";
            Re.between Re.digit 2 4];
    Re.seq [Re.alt (map Re.lit ["Jan"; "Feb"; "Mar"; "Apr"; "May"; "Jun";
                                "Jul"; "Aug"; "Sep"; "Oct"; "Nov"; "Dec"]);
            Re.Star (Re.Chr Py.islower); Re.chr " "; Re.between Re.digit 1 2;
            Re.opt (Re.chr ","); Re.chr " "; Re.times Re.digit 4] ].

Definition pub_indicators : list string := ["press"; "release"; "published"; "posted"].

Definition has_news_date_class (tag : node) : bool :=
  match get_list tag "class" with
  | Some (c :: l) =>
      let class_text := Py.lower (Py.join " " (c :: l)) in
      (Py.contains "news" class_text || Py.contains "new" class_text)
      && Py.contains "date" class_text
  | _ => false
  end.

(** A dated text node: the entry of [candidate_dates], with the index of
    the pattern that found it and the index of the text node in document
    order. *)
Record date_candidate := DateCandidate {
  dc_date : datetime;
  dc_element : located;
  dc_score : nat;
  dc_pattern : nat;
  dc_index : nat
}.

(** The order of the scan: by pattern, then by text node. *)
Definition scan_before (x y : date_candidate) : Prop :=
  (dc_pattern x < dc_pattern y)%nat
  \/ (dc_pattern x = dc_pattern y /\ (dc_index x <= dc_index y)%nat).

Definition date_score (text_node : located) : nat :=
  ((if existsb has_news_date_class (loc_parents text_node) then 5 else 0)
   + (if match parent text_node with
         | Some par =>
             let surrounding_text := Py.lower (get_text par) in
             existsb (fun indicator => Py.contains indicator surrounding_text)
                     pub_indicators
         | None => false
         end
      then 5 else 0))%nat.

(** The body of the inner loop for one pattern and one text node; [None]
    when nothing is appended. *)
Definition scan_text_node (pi : nat) (pattern : Re.re) (ni : nat) (text_node : located)
  : option date_candidate :=
  match Re.search pattern (get_text (loc_node text_node)) with
  | Some date_str =>
      match dateutil_parse date_str with
      | Some parsed_date =>
          match in_future parsed_date with
          | Some false =>
              Some (DateCandidate parsed_date text_node (date_score text_node) pi ni)
          | _ => None
          end
      | None => None
      end
  | None => None
  end.

Definition enumerate {A} (l : list A) : list (nat * A) := imap pair l.

Definition text_nodes (soup : node) : list located :=
  List.filter (fun e => name_is aux_tag (loc_node e)) (located_all soup).

(** [candidate_dates] after the two nested loops: patterns outside, text
    nodes inside. *)
Definition candidate_dates (soup : node) : list date_candidate :=
  flat_map (fun '(pi, pattern) =>
              omap (fun '(ni, text_node) => scan_text_node pi pattern ni text_node)
                   (enumerate (text_nodes soup)))
           (enumerate date_patterns).

Definition best_date_candidate (soup : node) : option date_candidate :=
  py_max dc_score (candidate_dates soup).

(** The element that ends up with the date label, and the date. *)
Definition date_choice (soup : node) : option (located * datetime) :=
  match meta_date (List.filter (fun e => name_is "meta" (loc_node e)) (located_all soup)) with
  | Some r => Some r
  | None =>
      match schema_date soup with
      | Some r => Some r
      | None =>
          match best_date_candidate soup with
          | Some best => Some (dc_element best, dc_date best)
          | None => None
          end
      end
  end.

Definition _mark_date (soup : node) : node :=
  match date_choice soup with
  | Some (element, date) => mark_date_at (loc_path element) date soup
  | None => soup
  end.


(** *** [_is_boilerplate] *)

Definition space_or_dash : Re.re := Re.Chr (fun c => Py.isspace c || Ascii.eqb c "-").
Definition letter_or_space : Re.re := Re.Chr (fun c => Py.islower c || Py.isspace c).

Definition basic_patterns : list Re.re :=
  map Re.ignorecase
    [ Re.lit "copyright";
      Re.lit "all rights reserved";
      Re.seq [Re.lit "terms of "; Re.Alt (Re.lit "use") (Re.lit "service")];
      Re.lit "privacy policy";
      Re.lit "contact us";
      Re.lit "share this";
      Re.lit "follow us";
      Re.lit "subscribe to" ].

(** The four section-header bodies, shared by the strict and the lenient
    list: [forward[\s-]*looking[\s-]*statements?],
    [safe\s+harbor\s+statements?], [about\s+[a-z\s]+] and
    [[a-z\s]+[\']?s\s+safe\s+harbor\s+statement]. *)
Definition forward_looking : Re.re :=
  Re.seq [Re.lit "forward"; Re.Star space_or_dash; Re.lit "looking";
          Re.Star space_or_dash; Re.lit "statement"; Re.opt (Re.chr "s")].
Definition safe_harbor : Re.re :=
  Re.seq [Re.lit "safe"; Re.plus Re.space; Re.lit "harbor"; Re.plus Re.space;
          Re.lit "statement"; Re.opt (Re.chr "s")].
Definition about_company : Re.re :=
  Re.seq [Re.lit "about"; Re.plus Re.space; Re.plus letter_or_space].
Definition company_safe_harbor : Re.re :=
  Re.seq [Re.plus letter_or_space; Re.opt (Re.chr "'"); Re.chr "s"; Re.plus Re.space;
          Re.lit "safe"; Re.plus Re.space; Re.lit "harbor"; Re.plus Re.space;
          Re.lit "statement"].

Definition strict_section_headers : list Re.re :=
  map Re.ignorecase
    [ Re.seq [Re.Bol; forward_looking; Re.Eol];
      Re.seq [Re.Bol; safe_harbor; Re.Eol];
      Re.seq [Re.Bol; Re.Star Re.space; about_company; Re.Eol];
      Re.seq [Re.Bol; Re.Star Re.space; company_safe_harbor; Re.Eol] ].

Definition lenient_section_headers : list Re.re :=
  map Re.ignorecase
    [ Re.seq [Re.Bol; Re.Star Re.any; forward_looking; Re.Star Re.any; Re.Eol];
      Re.seq [Re.Bol; Re.Star Re.any; safe_harbor; Re.Star Re.any; Re.Eol];
      Re.seq [Re.Bol; Re.Star Re.any; about_company; Re.Star Re.any; Re.Eol];
      Re.seq [Re.Bol; Re.Star Re.any; company_safe_harbor; Re.Star Re.any; Re.Eol] ].

Definition lenient_match (text : string) : bool :=
  existsb (fun pattern => Re.found pattern (Py.lower (Py.strip text)))
          lenient_section_headers.
Definition strict_match (text : string) : bool :=
  existsb (fun pattern => Re.found pattern (Py.lower (Py.strip text)))
          strict_section_headers.
Definition basic_match (text : string) : bool :=
  existsb (fun pattern => Re.found pattern text) basic_patterns.

(** The third disjunct of the bold condition:
    [element.parent.get('class', '') and
     any('bold' in cls.lower() for cls in element.get('class'))]. *)
Definition bold_class (element par : node) : Exc.outcome bool :=
  match get_list par "class" with
  | Some (_ :: _) =>
      match get_list element "class" with
      | Some classes =>
          Exc.Return (existsb (fun cls => Py.contains "bold" (Py.lower cls)) classes)
      | None => Exc.Raise (Exc.Exn "TypeError" "'NoneType' object is not iterable")
      end
  | _ => Exc.Return false
  end.

Definition bold_condition (element : node) (parent : option node) : Exc.outcome bool :=
  match parent with
  | None =>
      Exc.Raise (Exc.Exn "AttributeError" "'NoneType' object has no attribute 'name'")
  | Some par =>
      if name_is "b" par || name_is "strong" par then Exc.Return true
      else if Py.contains "font-weight: bold"
                (Py.lower (from_option id "" (get par "style")))
      then Exc.Return true
      else bold_class element par
  end.

(** Returns [(is_boilerplate, is_section_header)]. *)
Definition _is_boilerplate (text : string) (element : node) (parent : option node)
  : Exc.outcome (bool * bool) :=
  if basic_match text then Exc.Return (true, false)
  else
    let is_strict_section_header := strict_match text in
    is_lenient_section_header <-
      (if lenient_match text then bold_condition element parent
       else Exc.Return false) ;;
    Exc.Return (false, is_strict_section_header || is_lenient_section_header).

(** *** [_mark_content] *)

Definition content_attr : string := "ali-zx9v8k2m4p-content-type".
Definition content_tag_attr : string := "ali-zx9v8k2m4p-content-tag".
Definition content_value : string := "qw7x_article_content_p9m2".
Definition table_value : string := "qw7x_article_table_p9m2".
Definition table_header_value : string := "qw7x_table_header_p9m2".
Definition table_cell_value : string := "qw7x_table_cell_p9m2".

Definition unwanted_tags : list string :=
  ["nav"; "footer"; "aside"; "script"; "style"; "noscript"].
Definition target_tags : list string :=
  ["p"; "h2"; "h3"; "h4"; "ul"; "ol"; "table"; "blockquote"].

Definition name_in (l : list string) (n : node) : bool :=
  existsb (fun nm => name_is nm n) l.

(** [(article|post|entry).*content], [main-content], [story-content],
    [news-content], compiled with [re.I]. *)
Definition content_patterns : list Re.re :=
  map Re.ignorecase
    [ Re.seq [Re.alt [Re.lit "article"; Re.lit "post"; Re.lit "entry"];
              Re.Star Re.any; Re.lit "content"];
      Re.lit "main-content";
      Re.lit "story-content";
      Re.lit "news-content" ].

Definition text_size (e : located) : nat := Py.len (get_text_strip (loc_node e)).

(** The container whose elements are classified. *)
Definition find_content (soup : node) : option located :=
  match find_in (located_all soup) (name_is "article") with
  | Some article => Some article
  | None =>
      match
        head (flat_map (fun pattern =>
                List.filter (fun div =>
                               name_is "div" (loc_node div)
                               && list_attr_found "class" pattern (loc_node div)
                               && (200 <? text_size div)%nat)
                            (located_all soup))
              content_patterns)
      with
      | Some div => Some div
      | None =>
          py_max text_size
            (List.filter (fun block =>
                            name_in ["div"; "section"] (loc_node block)
                            && negb (existsb (name_in unwanted_tags) (loc_parents block)))
                         (located_all soup))
      end
  end.

(** What the walk does to the tree, in the order it does it: an attribute
    assignment on the element at a position, and the detection of a
    section boundary at an element (which assigns nothing). *)
Inductive event : Type :=
| Write (p : path) (key value : string)
| Boundary (p : path).

Definition is_boundary (ev : event) : bool :=
  match ev with Boundary _ => true | Write _ _ _ => false end.

(** The walk's variables [skip_remaining] and [processed_elements], and
    the events so far. *)
Record walk_state := WalkState {
  skip_remaining : bool;
  processed_elements : gset (option string);
  log : list event
}.

Definition add_processed (i : option string) (st : walk_state) : walk_state :=
  WalkState (skip_remaining st) ({[ i ]} ∪ processed_elements st) (log st).
Definition emit (evs : list event) (st : walk_state) : walk_state :=
  WalkState (skip_remaining st) (processed_elements st) (log st ++ evs).
Definition set_skip (st : walk_state) : walk_state :=
  WalkState true (processed_elements st) (log st).

(** The stop flag is set exactly when a boundary has been detected, and
    then the detection is the last event. *)
Definition stopped_at_boundary (st : walk_state) : Prop :=
  if skip_remaining st then
    exists pre p, log st = pre ++ [Boundary p]
                  /\ forallb (fun ev => negb (is_boundary ev)) pre = true
  else forallb (fun ev => negb (is_boundary ev)) (log st) = true.

Definition get_direct_text (element : node) : string :=
  Py.join " "
    (flat_map (fun c =>
                 match c with
                 | NavigableString text =>
                     if Py.nonempty (Py.strip text) then [Py.strip text] else []
                 | Tag _ _ _ => []
                 end) (contents element)).

(** [_mark_table]: the assignments to the header and data cells with
    text, and whether there was any. *)
Definition _mark_table (p : path) (table : node) : bool * list event :=
  let cells := tail (locate (rev p) [] table) in
  let with_text nm :=
    List.filter (fun c => name_is nm (loc_node c)
                          && Py.nonempty (get_text_strip (loc_node c))) cells in
  let evs :=
    map (fun th => Write (loc_path th) content_attr table_header_value) (with_text "th")
    ++ map (fun td => Write (loc_path td) content_attr table_cell_value) (with_text "td") in
  (match evs with [] => false | _ => true end, evs).

(** The table branch shared by the recursive walk and the flat scan:
    [if self._mark_table(t): t[content-type] = ...;
     processed_elements.add(t['ali-zx9v8k2m4p'])]. *)
Definition mark_table_step (p : path) (table : node) (st : walk_state)
  : Exc.outcome unit * walk_state :=
  let '(has_content, evs) := _mark_table p table in
  let st := emit evs st in
  if has_content then
    let st := emit [Write p content_attr table_value] st in
    match get table id_attr with
    | Some i => (Exc.Return tt, add_processed (Some i) st)
    | None => (Exc.Raise (Exc.Exn "KeyError" "'ali-zx9v8k2m4p'"), st)
    end
  else (Exc.Return tt, st).

(** The loop over [element.children] in [process_element_recursively];
    [recurse] is the recursive call. *)
Fixpoint walk_children
    (recurse : path -> node -> walk_state -> Exc.outcome unit * walk_state)
    (p : path) (i : nat) (children : list node) (st : walk_state)
  : Exc.outcome unit * walk_state :=
  match children with
  | [] => (Exc.Return tt, st)
  | child :: rest =>
      match child with
      | NavigableString _ => walk_children recurse p (S i) rest st
      | Tag cnm _ _ =>
          if String.eqb cnm "table" then
            if negb (skip_remaining st) then
              match mark_table_step (p ++ [i]) child st with
              | (Exc.Return _, st') => walk_children recurse p (S i) rest st'
              | (Exc.Raise e, st') => (Exc.Raise e, st')
              end
            else walk_children recurse p (S i) rest st
          else
            match recurse (p ++ [i]) child st with
            | (Exc.Return _, st') => walk_children recurse p (S i) rest st'
            | (Exc.Raise e, st') => (Exc.Raise e, st')
            end
      end
  end.

Fixpoint process_element_recursively (parent : option node) (p : path)
    (element : node) (st : walk_state) {struct element}
  : Exc.outcome unit * walk_state :=
  match element with
  | NavigableString _ => (Exc.Return tt, st)
  | Tag nm a cs =>
      if skip_remaining st then (Exc.Return tt, st)
      else
        let element_id := a !! id_attr in
        if decide (element_id ∈ processed_elements st) then (Exc.Return tt, st)
        else
          let st := add_processed element_id st in
          let direct_text := get_direct_text element in
          let children :=
            walk_children (process_element_recursively (Some element)) p 0%nat cs in
          if Py.nonempty direct_text then
            match _is_boilerplate direct_text element parent with
            | Exc.Raise e => (Exc.Raise e, st)
            | Exc.Return (is_boilerplate, is_section_header) =>
                if is_section_header then
                  (Exc.Return tt, emit [Boundary p] (set_skip st))
                else if negb is_boilerplate then
                  children (emit [Write p content_attr content_value;
                                  Write p content_tag_attr nm] st)
                else children st
            end
          else children st
  end.

(** The loop over [content.find_all(target_tags)]. *)
Fixpoint scan_targets (targets : list located) (st : walk_state)
  : Exc.outcome unit * walk_state :=
  match targets with
  | [] => (Exc.Return tt, st)
  | element :: rest =>
      if decide (get (loc_node element) id_attr ∈ processed_elements st)
      then scan_targets rest st
      else if name_is "table" (loc_node element)
              || existsb (name_is "table") (loc_parents element)
      then
        if name_is "table" (loc_node element) && negb (skip_remaining st) then
          match mark_table_step (loc_path element) (loc_node element) st with
          | (Exc.Return _, st') => scan_targets rest st'
          | (Exc.Raise e, st') => (Exc.Raise e, st')
          end
        else scan_targets rest st
      else
        match process_element_recursively (parent element) (loc_path element)
                (loc_node element) st with
        | (Exc.Return _, st') => scan_targets rest st'
        | (Exc.Raise e, st') => (Exc.Raise e, st')
        end
  end.

Definition initial_walk : walk_state := WalkState false ∅ [].

(** The walk of [_mark_content] over the chosen container. *)
Definition content_walk (soup : node) : Exc.outcome unit * walk_state :=
  match find_content soup with
  | Some content =>
      scan_targets
        (List.filter (fun e => name_in target_tags (loc_node e)) (located_below content))
        initial_walk
  | None => (Exc.Return tt, initial_walk)
  end.

Definition apply_event (soup : node) (ev : event) : node :=
  match ev with
  | Write p key value => set_attr p key value soup
  | Boundary _ => soup
  end.

Definition _mark_content (soup : node) : Exc.outcome node :=
  match content_walk soup with
  | (Exc.Return _, st) => Exc.Return (foldl apply_event soup (log st))
  | (Exc.Raise e, _) => Exc.Raise e
  end.


(** *** [_mark_metadata] *)

Definition metadata_attr : string := "ali-zx9v8k2m4p-metadate_type".

Definition set_attr_opt (p : path) (key : string) (value : option string) (soup : node)
  : node :=
  alter_at (fun n => Some (with_attr_opt key value n)) p soup.

(** The four author probes, in order; the flag tells whether the probe
    looks for a [meta] tag. *)
Definition author_elements : list (bool * (node -> bool)) :=
  [ (true, fun n => name_is "meta" n && attr_is "name" "author" n);
    (true, fun n => name_is "meta" n && attr_is "property" "article:author" n);
    (false, fun n => name_is "a" n && list_attr_is "rel" "author" n);
    (false, fun n => name_is "span" n
                     && list_attr_found "class"
                          (Re.ignorecase (Re.Alt (Re.lit "author") (Re.lit "byline"))) n) ].

Fixpoint mark_author (probes : list (bool * (node -> bool))) (soup : node) : node :=
  match probes with
  | [] => soup
  | (is_meta, q) :: rest =>
      match find_in (located_all soup) q with
      | Some element =>
          set_attr_opt (loc_path element) "ali-zx9v8k2m4p-author-value"
            (if is_meta then get (loc_node element) "content"
             else Some (get_text_strip (loc_node element)))
            (set_attr (loc_path element) metadata_attr "qw7x_article_author_p9m2" soup)
      | None => mark_author rest soup
      end
  end.

Definition mark_keywords (soup : node) : node :=
  match find_in (located_all soup)
                (fun n => name_is "meta" n && attr_is "name" "keywords" n) with
  | Some keywords =>
      let keywords_list :=
        map Py.strip (Py.split "," (from_option id "" (get (loc_node keywords) "content"))) in
      set_attr (loc_path keywords) "ali-zx9v8k2m4p-keywords-value" (json_dumps keywords_list)
        (set_attr (loc_path keywords) metadata_attr "qw7x_article_keywords_p9m2" soup)
  | None => soup
  end.

Definition mark_category (soup : node) : node :=
  match find_in (located_all soup)
                (fun n => name_is "meta" n && attr_is "property" "article:section" n) with
  | Some category =>
      set_attr_opt (loc_path category) "ali-zx9v8k2m4p-category-value"
        (get (loc_node category) "content")
        (set_attr (loc_path category) metadata_attr "qw7x_article_category_p9m2" soup)
  | None => soup
  end.

Definition _mark_metadata (soup : node) : node :=
  mark_category (mark_keywords (mark_author author_elements soup)).

(** *** [extract_article] *)

(** What the wait for the challenge form in [_handle_cloudflare] does: the
    form appears, the wait times out, or something else is raised. *)
Inductive wait_outcome : Type :=
| ChallengeFound
| WaitTimeout
| WaitFailed (e : Exc.exn).

Definition _handle_cloudflare (w : wait_outcome) : bool :=
  match w with
  | ChallengeFound => true
  | WaitTimeout => true
  | WaitFailed _ => false
  end.

(** The renderer: [driver.get(url)] ([Some e] when it raises), the wait of
    [_handle_cloudflare], [driver.page_source], the HTML parser, and the
    copy [self.original_soup = BeautifulSoup(str(self.soup), ...)], which
    leaves the soup as it is ([Some e] when it raises). *)
Variable driver_get : string -> option Exc.exn.
Variable challenge_wait : string -> wait_outcome.
Variable page_source : string -> Exc.outcome string.
Variable parse_html : string -> Exc.outcome node.
Variable store_original : node -> option Exc.exn.

(** The body of the [try] block. *)
Definition extract_body (url : string) : Exc.outcome node :=
  match driver_get url with
  | Some e => Exc.Raise e
  | None =>
      if negb (_handle_cloudflare (challenge_wait url)) then
        Exc.Raise (Exc.Exn "Exception" "Could not bypass protection")
      else
        source <- page_source url ;;
        soup <- parse_html source ;;
        let soup := _wrap_text_nodes soup in
        let soup := _label_elements soup in
        _ <- from_option Exc.Raise (Exc.Return tt) (store_original soup) ;;
        soup <- _mark_title soup ;;
        let soup := _mark_date soup in
        soup <- _mark_content soup ;;
        Exc.Return (_mark_metadata soup)
  end.

(** What [extract_article] returns: the labelled soup, or the dictionary
    [{'error': str(e), 'url': url}]. *)
Inductive extract_result : Type :=
| LabeledSoup (soup : node)
| ErrorDict (d : gmap string string).

Definition extract_article (url : string) : Exc.outcome extract_result :=
  Exc.try_except
    (soup <- extract_body url ;; Exc.Return (LabeledSoup soup))
    (fun e => Exc.Return (ErrorDict (<[ "error" := Exc.exn_msg e ]> {[ "url" := url ]}))).


(** The labelled elements of a result: the tag names and texts of the
    elements that carry the title, the date and the content label. *)
Definition labelled_with (key : string) (soup : node) : list (option string * string) :=
  map (fun e => (name e, get_text e)) (List.filter (has_attr key) (find_all soup)).

Definition labels_of (r : Exc.outcome extract_result)
  : option (list (option string * string) * list (option string * string)
            * list (option string * string)) :=
  match r with
  | Exc.Return (LabeledSoup soup) =>
      Some (labelled_with title_attr soup, labelled_with date_attr soup,
            labelled_with content_attr soup)
  | _ => None
  end.

End Extractor.

(** *** Observations on the content walk *)

Definition content_keys : list string := [content_attr; content_tag_attr].

(** An event of the walk that stays inside the container at [root]: it
    concerns a position strictly below [root] and, when it is an
    assignment, one of the two content attributes. *)
Definition content_event_ok (root : path) (ev : event) : Prop :=
  match ev with
  | Write p key _ => root `prefix_of` p /\ p <> root /\ key ∈ content_keys
  | Boundary p => root `prefix_of` p /\ p <> root
  end.

(** The attributes that [_mark_date] and [_mark_metadata] assign. *)
Definition date_keys : list string := [date_attr; parsed_date_attr].
Definition metadata_keys : list string :=
  [ metadata_attr; "ali-zx9v8k2m4p-author-value";
    "ali-zx9v8k2m4p-keywords-value"; "ali-zx9v8k2m4p-category-value" ].

(** Every attribute the four marking stages assign. *)
Definition label_keys : list string :=
  title_attr :: date_keys ++ content_keys ++ metadata_keys.

End ArticleExtractor.

(** ** The link-group classifier ([NewsGroupFinder]) *)

Module NewsGroupFinder.
Import Dom.

(** [_get_flexible_ancestry]: the names of the ancestors, from the root
    down, joined by [" > "]. *)
Definition _get_flexible_ancestry (element : located) : string :=
  Py.join " > " (rev (map (fun p => from_option id "" (name p)) (loc_parents element))).

(** [(?:^|[/.])?DOMAIN\.com(?:/|$)] with [re.IGNORECASE]. *)
Definition social_pattern (domain : string) : Re.re :=
  Re.ignorecase
    (Re.seq [Re.opt (Re.Alt Re.Bol (Re.Chr (Re.one_of "/.")));
             Re.lit domain; Re.chr "."; Re.lit "com";
             Re.Alt (Re.chr "/") Re.Eol]).

Definition social_patterns : list Re.re :=
  map social_pattern
    ["facebook"; "twitter"; "instagram"; "linkedin"; "youtube";
     "tiktok"; "pinterest"; "reddit"; "whatsapp"].

(** Returns 1 if the URL is a social-media link, 0 otherwise. *)
Definition _is_social_media_url (url : string) : nat :=
  let url_lower := Py.lower url in
  if Py.contains "/x.com" url_lower || Py.contains "www.x.com" url_lower then 1
  else if existsb (fun pattern => Re.found pattern url) social_patterns then 1
  else 0.

Definition href (anchor : located) : string :=
  from_option id "" (get (loc_node anchor) "href").

Definition typical_url_patterns : list string :=
  [ "/legal"; "/legal/"; "/terms"; "/terms/"; "/privacy"; "/privacy/";
    "/contact"; "/contact/"; "/careers"; "/careers/"; "/support"; "/support/";
    "/blog"; "/blog/"; "/events"; "/events/"; "/about"; "/about/";
    "/faq"; "/faq/"; "/investors"; "/investors/"; "/search"; "/search/";
    "/sitemap"; "/sitemap/"; "/login"; "/login/"; "/register"; "/register/";
    "/help"; "/help/"; "/company"; "/company/" ].

Definition typical_keywords : list string :=
  [ "legal"; "terms"; "policy"; "privacy"; "contact"; "careers";
    "conditions"; "locations"; "faq"; "investors"; "about"; "settings";
    "cookies"; "blog"; "support"; "help"; "resources"; "events";
    "login"; "register"; "account"; "search"; "sitemap"; "media";
    "press"; "directory"; "community"; "company" ].

Definition mem (s : string) (l : list string) : bool := existsb (String.eqb s) l.

(** [^https?://] and [^https?://[^/]+] *)
Definition protocol : Re.re :=
  Re.seq [Re.Bol; Re.lit "http"; Re.opt (Re.chr "s"); Re.lit "://"].
Definition protocol_and_domain : Re.re :=
  Re.seq [protocol; Re.plus (Re.Chr (fun c => negb (Ascii.eqb c "/")))].

(** Returns 1 if the anchor is a typical navigation link, 0 if not. *)
Definition _is_typical_url (anchor : located) : nat :=
  let url := href anchor in
  let url_path := Re.sub_at_start protocol_and_domain (Py.lower url) in
  if mem url_path typical_url_patterns then 1
  else
    let text := get_text_strip (loc_node anchor) in
    if negb (Py.nonempty text) then 0
    else
      let words :=
        map Py.lower (Py.re_split_runs (fun c => Py.isspace c || Ascii.eqb c "-") text) in
      if (length words <=? 4)%nat && existsb (fun keyword => mem keyword words) typical_keywords
      then 1 else 0.

(** The [multi_level_path] component of [_analyze_url_structure]. *)
Definition multi_level_path (url : string) : bool :=
  let url_without_protocol := Re.sub_at_start protocol url in
  if Py.startswith "/" url then true
  else
    let path_part :=
      from_option id "" (head (Py.split "#"
        (from_option id "" (head (Py.split "?" url_without_protocol))))) in
    if Py.contains "/" path_part then
      (2 <=? length (List.filter Py.nonempty (Py.split "/" path_part)))%nat
    else false.

(** [\.[a-zA-Z0-9]+$] *)
Definition file_extension : Re.re :=
  Re.seq [Re.chr "."; Re.plus (Re.Chr Py.isalnum); Re.Eol].

(** The last path segment that is not a file name; [None] where the
    functions below return early. *)
Definition meaningful_segment (url : string) : option string :=
  let clean_url :=
    from_option id "" (head (Py.split "#" (from_option id "" (head (Py.split "?" url))))) in
  let clean_url := Py.rstrip_char "/" clean_url in
  let segments := Py.split "/" clean_url in
  let last_segment := from_option id "" (Py.last_item segments) in
  if Re.found file_extension last_segment then
    if (length segments <? 2)%nat then None
    else Py.second_last segments
  else Some last_segment.

Definition _get_last_path_length (url : string) : nat :=
  match meaningful_segment url with
  | Some segment => Py.len segment
  | None => 0
  end.

Definition _make_absolute_url (base_url url : string) : string :=
  if Py.startswith "http" url then url
  else
    let url := Py.lstrip_char "/" url in
    let base := Py.rstrip_char "/" base_url in
    String.append base (String.append "/" url).

Definition endswith (c : ascii) (s : string) : bool :=
  match last (Py.chars s) with
  | Some c' => Ascii.eqb c' c
  | None => false
  end.
Definition drop_last (s : string) : string := Py.str (removelast (Py.chars s)).

Definition irregular_verbs : list (string * string) :=
  [ ("take", "took"); ("give", "gave"); ("make", "made"); ("begin", "began");
    ("win", "won"); ("set", "set"); ("create", "created") ].

Fixpoint lookup_verb (verb : string) (l : list (string * string)) : option string :=
  match l with
  | [] => None
  | (k, v) :: l' => if String.eqb k verb then Some v else lookup_verb verb l'
  end.

Definition _get_verb_variations (verb : string) : list string :=
  [verb; String.append verb "s"]
  ++ (if endswith "y" verb then [String.append (drop_last verb) "ies"] else [])
  ++ [ match lookup_verb verb irregular_verbs with
       | Some past => past
       | None =>
           if endswith "e" verb then String.append verb "d"
           else if endswith "y" verb then String.append (drop_last verb) "ied"
           else String.append verb "ed"
       end ].

Definition verb_list : list string :=
  [ "announce"; "start"; "end"; "finish"; "open"; "close"; "report";
    "initiate"; "terminate"; "invest"; "join"; "collaborate"; "hire";
    "agree"; "surpass"; "applaud"; "raise"; "deliver"; "unveil"; "plan";
    "showcase"; "introduce"; "present"; "grant"; "sign"; "invest";
    "complete"; "receive"; "grant"; "give"; "select"; "partner"; "signal";
    "continue"; "stop"; "win"; "launch"; "set"; "visit"; "achieve";
    "dismiss"; "take"; "accelerate"; "reach"; "indicate"; "enter"; "exit";
    "produce"; "create"; "make"; "move"; "host"; "locate"; "forms" ].

Definition _has_verb_with_context (url : string) : bool :=
  match meaningful_segment url with
  | None => false
  | Some segment =>
      let words :=
        map Py.lower
          (List.filter Py.nonempty
             (Py.re_split_class
                (fun c => Re.one_of "-_." c || Py.isspace c) segment)) in
      if (length words <=? 1)%nat then false
      else existsb (fun verb => existsb (fun variation => mem variation words)
                                        (_get_verb_variations verb)) verb_list
  end.


(** *** [find_news_group] *)

Definition invalid_hrefs : list string := ["/"; ""; "#"; "javascript:void(0)"].

(** [soup.find_all('a', href=True)] and the filter on their targets. *)
Definition all_anchors (soup : node) : list located :=
  List.filter (fun e => name_is "a" (loc_node e) && has_attr "href" (loc_node e))
              (located_all soup).

Definition anchor_ok (anchor : located) : bool :=
  negb (mem (href anchor) invalid_hrefs)
  && negb (Py.startswith "#" (href anchor))
  && negb (Py.startswith "tel:" (href anchor))
  && negb (Py.startswith "mailto:" (href anchor))
  && (_is_social_media_url (href anchor) =? 0)%nat.

Definition anchors (soup : node) : list located :=
  List.filter anchor_ok (all_anchors soup).

(** The two dictionaries of the grouping loop: [ancestry_groups] keeps
    its keys in the order of first insertion. *)
Record grouping := Grouping {
  ancestry_groups : list (string * list located);
  seen_urls : gmap string (gset string)
}.

Fixpoint append_to (ancestry : string) (anchor : located)
    (groups : list (string * list located)) : list (string * list located) :=
  match groups with
  | [] => [(ancestry, [anchor])]
  | (k, g) :: rest =>
      if String.eqb k ancestry then (k, g ++ [anchor]) :: rest
      else (k, g) :: append_to ancestry anchor rest
  end.

Definition group_step (st : grouping) (anchor : located) : grouping :=
  let ancestry := _get_flexible_ancestry anchor in
  let url := href anchor in
  let seen := from_option id ∅ (seen_urls st !! ancestry) in
  if decide (url ∈ seen) then
    Grouping (ancestry_groups st) (<[ ancestry := seen ]> (seen_urls st))
  else
    Grouping (append_to ancestry anchor (ancestry_groups st))
             (<[ ancestry := {[ url ]} ∪ seen ]> (seen_urls st)).

Definition grouped_anchors (soup : node) : list (list located) :=
  map snd (ancestry_groups (foldl group_step (Grouping [] ∅) (anchors soup))).

(** [_find_twin_and_intersections] *)
Fixpoint twin_and_intersections (group_idx : nat) (current_set : gset string)
    (other_idx : nat) (sets : list (gset string)) (has_twin has_intersection : bool)
  : bool * bool :=
  match sets with
  | [] => (has_twin, has_intersection)
  | other_set :: rest =>
      if (other_idx =? group_idx)%nat then
        twin_and_intersections group_idx current_set (S other_idx) rest
          has_twin has_intersection
      else
        let has_twin := has_twin || bool_decide (current_set = other_set) in
        let has_intersection :=
          has_intersection || negb (bool_decide (current_set ∩ other_set = ∅)) in
        if has_twin && has_intersection then (has_twin, has_intersection)
        else twin_and_intersections group_idx current_set (S other_idx) rest
               has_twin has_intersection
  end.

Definition _find_twin_and_intersections (group_idx : nat) (all_urls_sets : list (gset string))
  : bool * bool :=
  twin_and_intersections group_idx
    (from_option id ∅ (all_urls_sets !! group_idx)) 0 all_urls_sets false false.

(** A row of the data frame.  A percentage is the exact quotient; the
    comparisons the filters make on it ([> 20], [== 1]) give the same
    answer on the floating-point quotient.  [multi_level_path_pct] is
    [None] where the row has no such key (a group without a multi-level
    URL), which the frame shows as NaN.  The columns that no filter reads
    and that are means, further percentages, URL-structure counts or the
    count of distinct strict ancestries are left out. *)
Record group_info := GroupInfo {
  group_id : nat;
  ancestry : string;
  urls : list string;
  a : list located;
  url_count : nat;
  is_social_media_num : nat;
  twin_group : bool;
  non_excl_url : bool;
  num_typical_url : nat;
  last_path_median_length : nat;
  urls_with_verbs : nat;
  verb_percentage : QArith_base.Q;
  multi_level_path_pct : option QArith_base.Q
}.

Definition quotient (n d : nat) : QArith_base.Q :=
  QArith_base.Qmake (Z.of_nat n) (Pos.of_nat d).

Definition sum_nat (l : list nat) : nat := foldr Nat.add 0%nat l.

(** [sorted(l)[len(l)//2] if l else 0] *)
Definition median (l : list nat) : nat :=
  from_option id 0%nat (merge_sort Nat.le l !! (length l / 2)%nat).

Definition group_row (url_sets : list (gset string)) (i : nat) (group : list located)
  : group_info :=
  let urls := map href group in
  let total_urls := length urls in
  let multi_level_path_count := length (List.filter multi_level_path urls) in
  let urls_with_verbs := length (List.filter _has_verb_with_context urls) in
  let '(has_twin, has_intersection) := _find_twin_and_intersections i url_sets in
  let url_last_lengths := map _get_last_path_length urls in
  let social_media_count := sum_nat (map _is_social_media_url urls) in
  GroupInfo i
    (from_option _get_flexible_ancestry "" (head group))
    urls group total_urls social_media_count has_twin has_intersection
    (length (List.filter (fun anchor => negb (_is_typical_url anchor =? 0)%nat) group))
    (median url_last_lengths)
    urls_with_verbs
    (match urls with
     | [] => QArith_base.inject_Z 0
     | _ => QArith_base.Qmult (quotient urls_with_verbs total_urls) (QArith_base.inject_Z 100)
     end)
    (if (0 <? multi_level_path_count)%nat
     then Some (quotient multi_level_path_count total_urls) else None).

Definition groups_data (soup : node) : list group_info :=
  let grouped := grouped_anchors soup in
  let url_sets := map (fun group => list_to_set (map href group)) grouped in
  imap (group_row url_sets) grouped.

Definition urls_set (g : group_info) : gset string := list_to_set (urls g).

(** [df.drop_duplicates(subset=['urls_set'])]: a row whose URL set
    equals that of an earlier row is dropped. *)
Fixpoint drop_duplicates_from (seen : list (gset string)) (rows : list group_info)
  : list group_info :=
  match rows with
  | [] => []
  | g :: rest =>
      if existsb (fun s => bool_decide (s = urls_set g)) seen
      then drop_duplicates_from seen rest
      else g :: drop_duplicates_from (urls_set g :: seen) rest
  end.
Definition drop_duplicates (rows : list group_info) : list group_info :=
  drop_duplicates_from [] rows.

Definition pct_is_one (g : group_info) : bool :=
  match multi_level_path_pct g with
  | Some q => QArith_base.Qeq_bool q (QArith_base.inject_Z 1)
  | None => false
  end.

Definition verb_above_20 (g : group_info) : bool :=
  negb (QArith_base.Qle_bool (verb_percentage g) (QArith_base.inject_Z 20)).

Definition max_of (key : group_info -> nat) (rows : list group_info) : nat :=
  foldr Nat.max 0%nat (map key rows).

Definition key_error (column : string) : Exc.exn :=
  Exc.Exn "Exception"
    (String.append "Error finding news group: '" (String.append column "'")).

Definition with_absolute_urls (base_url : string) (g : group_info) : group_info :=
  GroupInfo (group_id g) (ancestry g) (map (_make_absolute_url base_url) (urls g))
    (a g) (url_count g) (is_social_media_num g) (twin_group g) (non_excl_url g)
    (num_typical_url g) (last_path_median_length g) (urls_with_verbs g)
    (verb_percentage g) (multi_level_path_pct g).

(** The candidates after the filters, on a frame that has its columns. *)
Definition news_candidates (df : list group_info) : list group_info :=
  let news_candidates :=
    List.filter (fun g => (num_typical_url g =? 0)%nat
                          && (4 <? url_count g)%nat
                          && (is_social_media_num g =? 0)%nat
                          && pct_is_one g) df in
  let news_candidates :=
    if (1 <? length news_candidates)%nat then
      let high_verb_candidates := List.filter verb_above_20 news_candidates in
      if (0 <? length high_verb_candidates)%nat then high_verb_candidates
      else news_candidates
    else news_candidates in
  let news_candidates :=
    if (1 <? length news_candidates)%nat then
      let max_median_length := max_of last_path_median_length news_candidates in
      List.filter (fun g => (last_path_median_length g =? max_median_length)%nat)
                  news_candidates
    else news_candidates in
  let news_candidates :=
    if (1 <? length news_candidates)%nat then
      let max_url_count := max_of url_count news_candidates in
      List.filter (fun g => (url_count g =? max_url_count)%nat) news_candidates
    else news_candidates in
  news_candidates.

(** [find_news_group]: the single surviving row with its URLs made
    absolute, [None], or the exception that the [except] clause re-raises:
    a frame built from no rows has no column [urls], and a frame none of
    whose rows has a multi-level URL has no column
    [multi_level_path_pct]. *)
Definition find_news_group (base_url : string) (soup : node)
  : Exc.outcome (option group_info) :=
  let groups_data := groups_data soup in
  match groups_data with
  | [] => Exc.Raise (key_error "urls")
  | _ =>
      let df := drop_duplicates groups_data in
      if negb (existsb (fun g => match multi_level_path_pct g with
                                 | Some _ => true
                                 | None => false
                                 end) groups_data)
      then Exc.Raise (key_error "multi_level_path_pct")
      else
        match news_candidates df with
        | [g] => Exc.Return (Some (with_absolute_urls base_url g))
        | _ => Exc.Return None
        end
  end.

(** *** The cascade as the specification words it *)

(** The segments of a URL's path: what stands between the slashes of
    the path, the path being what follows the host when the URL has a
    protocol and the URL itself when it has none, without query string
    and fragment. *)
Definition spec_path_segments (url : string) : list string :=
  let path := Re.sub_at_start protocol_and_domain url in
  let path := from_option id "" (head (Py.split "?" path)) in
  let path := from_option id "" (head (Py.split "#" path)) in
  List.filter Py.nonempty (Py.split "/" path).

(** A multi-segment path has more than one segment: [/news/slug] has,
    [/legal] has not. *)
Definition spec_multi_segment (url : string) : bool :=
  (1 <? length (spec_path_segments url))%nat.

(** The features the filters read, counted on the anchors and the URLs
    of the group. *)
Definition typical_anchors (g : group_info) : nat :=
  length (List.filter (fun anchor => negb (_is_typical_url anchor =? 0)%nat) (a g)).
Definition social_urls (g : group_info) : nat :=
  length (List.filter (fun url => negb (_is_social_media_url url =? 0)%nat) (urls g)).
Definition verb_urls (g : group_info) : nat :=
  length (List.filter _has_verb_with_context (urls g)).
Definition median_last_segment (g : group_info) : nat :=
  median (map _get_last_path_length (urls g)).

(** The four primary filters: (a) zero typical-navigation anchors,
    (b) more than 4 URLs, (c) zero social-media URLs, (d) 100% of URLs
    have a multi-segment path. *)
Definition spec_primary (g : group_info) : bool :=
  (typical_anchors g =? 0)%nat
  && (4 <? length (urls g))%nat
  && (social_urls g =? 0)%nat
  && forallb spec_multi_segment (urls g).

(** (e): more than 20% of the URLs contain an action verb. *)
Definition verb_share_above_20 (g : group_info) : bool :=
  (20 * length (urls g) <? 100 * verb_urls g)%nat.

(** A secondary filter is applied only while more than one candidate
    remains and it does not eliminate all candidates. *)
Definition spec_narrow (keep : list group_info -> group_info -> bool)
    (candidates : list group_info) : list group_info :=
  if (1 <? length candidates)%nat then
    match List.filter (keep candidates) candidates with
    | [] => candidates
    | kept => kept
    end
  else candidates.

(** The primary filters, then (e), then (f) the tie for the maximum
    median length of the last segment, then (g) the tie for the maximum
    URL count. *)
Definition cascade (primary : group_info -> bool) (groups : list group_info)
  : list group_info :=
  spec_narrow (fun cs g =>
                 (length (urls g) =? max_of (fun g => length (urls g)) cs)%nat)
    (spec_narrow (fun cs g =>
                    (median_last_segment g =? max_of median_last_segment cs)%nat)
       (spec_narrow (fun _ g => verb_share_above_20 g)
          (List.filter primary groups))).

Definition spec_cascade (groups : list group_info) : list group_info :=
  cascade spec_primary groups.

(** A result exactly when one group survives, null otherwise. *)
Definition spec_classify (base_url : string) (groups : list group_info)
  : option group_info :=
  match spec_cascade groups with
  | [g] => Some (with_absolute_urls base_url g)
  | _ => None
  end.

(** *** The cascade as amended *)

(** Filter (d) as amended: the URL begins with a slash, or, with its
    protocol, query string and fragment set aside, at least two pieces
    stand between its slashes, the host being one of them. *)
Definition amended_multi_level (url : string) : bool :=
  Py.startswith "/" url
  || let rest := Re.sub_at_start protocol url in
     let rest := from_option id "" (head (Py.split "?" rest)) in
     let rest := from_option id "" (head (Py.split "#" rest)) in
     (2 <=? length (List.filter Py.nonempty (Py.split "/" rest)))%nat.

Definition amended_primary (g : group_info) : bool :=
  (typical_anchors g =? 0)%nat
  && (4 <? length (urls g))%nat
  && (social_urls g =? 0)%nat
  && forallb amended_multi_level (urls g).

Definition amended_cascade (groups : list group_info) : list group_info :=
  cascade amended_primary groups.

Definition amended_classify (base_url : string) (groups : list group_info)
  : option group_info :=
  match amended_cascade groups with
  | [g] => Some (with_absolute_urls base_url g)
  | _ => None
  end.

(** Some URL of some group passes filter (d) as amended. *)
Definition some_multi_level (rows : list group_info) : bool :=
  existsb (fun g => existsb amended_multi_level (urls g)) rows.

(** The ancestry and the URLs of a result. *)
Definition summary (r : Exc.outcome (option group_info))
  : Exc.outcome (option (string * list string)) :=
  match r with
  | Exc.Return (Some g) => Exc.Return (Some (ancestry g, urls g))
  | Exc.Return None => Exc.Return None
  | Exc.Raise e => Exc.Raise e
  end.

(** *** Hidden elements *)

(** [s.replace(' ', '')] *)
Definition remove_spaces (s : string) : string :=
  Py.str (List.filter (fun c => negb (Ascii.eqb c " ")) (Py.chars s)).

(** The two tests [_is_element_hidden] makes on a tag: its [style] holds
    [display:none] once the spaces are removed, or one of its classes
    holds [hidden]. *)
Definition hidden_by_attributes (n : node) : bool :=
  match get n "style" with
  | Some style => Py.nonempty style && Py.contains "display:none" (remove_spaces style)
  | None => false
  end
  || match get_list n "class" with
     | Some classes => existsb (fun c => Py.contains "hidden" (Py.lower c)) classes
     | None => false
     end.

(** The element itself, then its parents, up to three levels up. *)
Definition _is_element_hidden (element : located) : bool :=
  hidden_by_attributes (loc_node element)
  || existsb hidden_by_attributes (take 3 (loc_parents element)).

(** *** The browser *)

(** The calls the navigation makes on the Selenium driver and on the
    elements it hands out.  Each call returns a value or raises; what it
    does is up to the browser and the page. *)
Section Browser.
Variable element : Type.

Inductive op : Type -> Type :=
| Get (url : string) : op unit
| WaitForChallenge : op unit
| FindElements (by_ : string) (selector : string) : op (list element)
| FindElement (xpath : string) : op element
| FindChild (e : element) (tag : string) : op element
| TagName (e : element) : op string
| Text (e : element) : op string
| ScrollIntoView (e : element) : op unit
| Click (e : element) : op unit
| ScriptClick (e : element) : op unit
| CurrentUrl : op string
| WaitUrlChange (url : string) : op unit
| PageSource : op string
| MakeSelect (e : element) : op unit
| Options (e : element) : op (list element)
| SelectByVisibleText (e : element) (text : string) : op unit
| Quit : op unit.

(** A method that talks to the browser: it returns, raises, or makes a
    call and goes on with what the call gave. *)
Inductive prog (A : Type) : Type :=
| Ret (a : A)
| Throw (e : Exc.exn)
| Do (X : Type) (o : op X) (k : Exc.outcome X -> prog A).
Arguments Ret {A} a.
Arguments Throw {A} e.
Arguments Do {A X} o k.

Fixpoint pbind {A B} (m : prog A) (f : A -> prog B) : prog B :=
  match m with
  | Ret a => f a
  | Throw e => Throw e
  | Do o k => Do o (fun r => pbind (k r) f)
  end.

Definition call {X} (o : op X) : prog X :=
  Do o (fun r => match r with
                 | Exc.Return x => Ret x
                 | Exc.Raise e => Throw e
                 end).

Definition lift {A} (r : Exc.outcome A) : prog A :=
  match r with
  | Exc.Return x => Ret x
  | Exc.Raise e => Throw e
  end.

(** [try: body except Exception as e: handler(e)] *)
Fixpoint try_except {A} (body : prog A) (handler : Exc.exn -> prog A) : prog A :=
  match body with
  | Ret a => Ret a
  | Throw e => handler e
  | Do o k => Do o (fun r => try_except (k r) handler)
  end.

(** [try: body except cls: handler]: other exceptions pass. *)
Definition except_class {A} (cls : string) (body handler : prog A) : prog A :=
  try_except body
    (fun e => if String.eqb (Exc.exn_class e) cls then handler else Throw e).

(** [try: body finally: cleanup] *)
Fixpoint finally {A} (body : prog A) (cleanup : prog unit) : prog A :=
  match body with
  | Ret a => pbind cleanup (fun _ => Ret a)
  | Throw e => pbind cleanup (fun _ => Throw e)
  | Do o k => Do o (fun r => finally (k r) cleanup)
  end.

Notation "x <~ m ;; k" := (pbind m (fun x => k))
  (at level 100, m at next level, right associativity).

(** *** [_handle_cloudflare] *)

Definition cookie_buttons_xpath : string :=
  "//button[contains(text(), 'Accept') or contains(text(), 'Allow') or contains(text(), 'Agree')]".

Definition _handle_cloudflare : prog bool :=
  try_except
    (_ <~ call WaitForChallenge ;;
     _ <~ try_except
            (cookie_buttons <~ call (FindElements "xpath" cookie_buttons_xpath) ;;
             match cookie_buttons with
             | button :: _ => call (Click button)
             | [] => Ret tt
             end)
            (fun _ => Ret tt) ;;
     Ret true)
    (fun e => if String.eqb (Exc.exn_class e) "TimeoutException" then Ret true
              else Ret false).

(** *** [handle_load_more] and [handle_pagination] *)

Definition load_more_patterns : list string :=
  [ "//li[contains(text(), 'More News')]";
    "//li[contains(text(), 'Load More')]";
    "//button[contains(text(), 'Load More')]";
    "//button[contains(text(), 'Show More')]";
    "//a[contains(text(), 'Show More')]";
    "//a[contains(text(), 'Load More')]";
    "//span[contains(text(), 'Load More')]";
    "//div[contains(text(), 'Load More')]";
    "//div[contains(@class, 'load-more')]";
    "//div[contains(@class, 'loadMore')]";
    "//button[contains(@class, 'more')]";
    "//button[contains(@class, 'load-more')]";
    "//a[contains(@class, 'load-more')]";
    "//a[contains(@class, 'loadMore')]";
    "//button[contains(@id, 'load-more')]";
    "//button[contains(@id, 'loadMore')]";
    "//div[contains(@id, 'load-more')]";
    "//button[contains(text(), 'View More')]";
    "//a[contains(text(), 'View More')]";
    "//button[contains(text(), 'See More')]";
    "//a[contains(text(), 'See More')]";
    "//button[.//i[contains(@class, 'more')] or contains(text(), 'More')]";
    "//button[contains(text(), 'More') and not(contains(text(), 'Learn'))]";
    "//*[@aria-label='Load more']";
    "//*[@aria-label='Show more']" ].

Definition next_patterns : list string :=
  [ "//li[contains(translate(@class, 'PAGE', 'page'), 'page') and contains(translate(@class, 'NEXT', 'next'), 'next')]";
    "//li//a//span[contains(@class, 'glyphicon-menu-right')]/..";
    "//li//span[contains(@class, 'arrow-right') or contains(@class, 'next-arrow')]/..";
    "//li//i[contains(@class, 'fa-chevron-right') or contains(@class, 'fa-arrow-right')]/..";
    "//li//span[contains(@class, 'sr-only') and contains(text(), 'Next')]/../..";
    "//li//span[@aria-label='Next']/..";
    "//li//a[contains(@href, 'page=') and descendant::*[contains(@class, 'next') or contains(@class, 'right')]]";
    "//li//a[contains(@href, 'page=') and (contains(@rel, 'next') or contains(@aria-label, 'Next'))]" ].

(** [try: e.click() except ElementClickInterceptedException:
    driver.execute_script("arguments[0].click();", e)] *)
Definition click_with_fallback (e : element) : prog unit :=
  except_class "ElementClickInterceptedException" (call (Click e)) (call (ScriptClick e)).

(** The body of the loop for one pattern: [true] where the source
    returns [True], [false] where it goes on to the next pattern. *)
Definition try_load_more (pattern : string) : prog bool :=
  try_except
    (button <~ call (FindElement pattern) ;;
     _ <~ call (ScrollIntoView button) ;;
     _ <~ click_with_fallback button ;;
     Ret true)
    (fun _ => Ret false).

Fixpoint load_more_loop (patterns : list string) : prog bool :=
  match patterns with
  | [] => Ret false
  | pattern :: rest =>
      clicked <~ try_load_more pattern ;;
      if clicked then Ret true else load_more_loop rest
  end.

Definition handle_load_more : prog bool :=
  try_except (load_more_loop load_more_patterns) (fun _ => Ret false).

(** The anchor itself, else a button inside the element, else an anchor
    inside it; [None] where the source goes on to the next pattern. *)
Definition find_clickable (next_element : element) : prog (option element) :=
  tag_name <~ call (TagName next_element) ;;
  if String.eqb tag_name "a" then Ret (Some next_element)
  else
    try_except
      (button <~ call (FindChild next_element "button") ;; Ret (Some button))
      (fun _ =>
         try_except
           (anchor <~ call (FindChild next_element "a") ;; Ret (Some anchor))
           (fun _ => Ret None)).

Definition try_next (pattern : string) : prog bool :=
  except_class "NoSuchElementException"
    (next_element <~ call (FindElement pattern) ;;
     clickable <~ find_clickable next_element ;;
     match clickable with
     | None => Ret false
     | Some clickable =>
         current_url <~ call CurrentUrl ;;
         _ <~ call (ScrollIntoView clickable) ;;
         _ <~ click_with_fallback clickable ;;
         _ <~ call (WaitUrlChange current_url) ;;
         Ret true
     end)
    (Ret false).

Fixpoint pagination_loop (patterns : list string) : prog bool :=
  match patterns with
  | [] => Ret false
  | pattern :: rest =>
      navigated <~ try_next pattern ;;
      if navigated then Ret true else pagination_loop rest
  end.

Definition handle_pagination : prog bool :=
  try_except (pagination_loop next_patterns) (fun _ => Ret false).

(** *** The year selector *)

(** [year_count > len(options) * 0.7], a comparison of an integer with a
    floating-point product (for 90 options the product is
    62.99999999999999, so that 63 years are enough). *)
Variable year_share_above : nat -> nat -> bool.

Definition year_selectors_css : string :=
  "select[class*='year'], select[id*='year'], select[class*='archive'], select[id*='archive'], select[class*='date'], select[id*='date'], select[name*='year'], select[id*='Year'], select[class*='dropdown'], select".

(** [s.isdigit()] *)
Definition isdigit (s : string) : bool :=
  Py.nonempty s && forallb Py.isdigit (Py.chars s).

(** [sum(1 for opt in options
          if opt.text.strip().isdigit() and len(opt.text.strip()) == 4)] *)
Fixpoint count_years (options : list element) : prog nat :=
  match options with
  | [] => Ret 0%nat
  | opt :: rest =>
      text <~ call (Text opt) ;;
      counts <~ (if isdigit (Py.strip text) then
                   text' <~ call (Text opt) ;;
                   Ret (Py.len (Py.strip text') =? 4)%nat
                 else Ret false) ;;
      n <~ count_years rest ;;
      Ret ((if counts then 1 else 0) + n)%nat
  end.

(** [any('all' in opt.text.strip().lower() for opt in options)] *)
Fixpoint any_all (options : list element) : prog bool :=
  match options with
  | [] => Ret false
  | opt :: rest =>
      text <~ call (Text opt) ;;
      if Py.contains "all" (Py.lower (Py.strip text)) then Ret true else any_all rest
  end.

(** The body of the loop of [_find_year_selector] for one selector:
    [None] where the source goes on to the next one. *)
Definition try_selector (selector : element) : prog (option (element * bool)) :=
  try_except
    (_ <~ call (MakeSelect selector) ;;
     options <~ call (Options selector) ;;
     if (length options <? 2)%nat then Ret None
     else
       year_count <~ count_years options ;;
       if year_share_above year_count (length options) then
         has_all <~ any_all options ;;
         Ret (Some (selector, has_all))
       else Ret None)
    (fun _ => Ret None).

Fixpoint selector_loop (year_selectors : list element) : prog (option element * bool) :=
  match year_selectors with
  | [] => Ret (None, false)
  | selector :: rest =>
      found <~ try_selector selector ;;
      match found with
      | Some (selector, has_all) => Ret (Some selector, has_all)
      | None => selector_loop rest
      end
  end.

Definition _find_year_selector : prog (option element * bool) :=
  try_except
    (year_selectors <~ call (FindElements "css selector" year_selectors_css) ;;
     selector_loop year_selectors)
    (fun _ => Ret (None, false)).

Fixpoint option_texts (options : list element) : prog (list string) :=
  match options with
  | [] => Ret []
  | option :: rest =>
      text <~ call (Text option) ;;
      texts <~ option_texts rest ;;
      Ret (Py.strip text :: texts)
  end.

Definition _get_year_options : prog (option (list string)) :=
  try_except
    (found <~ _find_year_selector ;;
     match fst found with
     | None => Ret None
     | Some selector =>
         _ <~ call (MakeSelect selector) ;;
         options <~ call (Options selector) ;;
         texts <~ option_texts options ;;
         Ret (Some texts)
     end)
    (fun _ => Ret None).

(** The two loops of [_select_year] over the options. *)
Fixpoint select_all_option (selector : element) (options : list element) : prog bool :=
  match options with
  | [] => Ret false
  | option :: rest =>
      text <~ call (Text option) ;;
      if Py.contains "all" (Py.lower (Py.strip text)) then
        text' <~ call (Text option) ;;
        _ <~ call (SelectByVisibleText selector (Py.strip text')) ;;
        Ret true
      else select_all_option selector rest
  end.

Fixpoint select_year_option (selector : element) (year_str : string)
    (options : list element) : prog bool :=
  match options with
  | [] => Ret false
  | option :: rest =>
      text <~ call (Text option) ;;
      if String.eqb (Py.strip text) year_str then
        _ <~ call (SelectByVisibleText selector year_str) ;;
        Ret true
      else select_year_option selector year_str rest
  end.

Definition _select_year (year : option string) : prog bool :=
  try_except
    (found <~ _find_year_selector ;;
     match fst found with
     | None => Ret false
     | Some selector =>
         _ <~ call (MakeSelect selector) ;;
         options <~ call (Options selector) ;;
         match year with
         | None => select_all_option selector options
         | Some year_str => select_year_option selector year_str options
         end
     end)
    (fun _ => Ret false).

(** *** [_process_page_content] and [find_all_news_groups] *)

Variable base_url : string.
Variable parse_html : string -> Exc.outcome node.

(** [hidden_count / total_anchors > 0.6]; the floating-point comparison
    agrees with the exact one. *)
Definition hidden_ratio_above (hidden_count total_anchors : nat) : bool :=
  (3 * total_anchors <? 5 * hidden_count)%nat.

(** [soup = BeautifulSoup(self.driver.page_source, 'html.parser');
     group = self.find_news_group(soup)] *)
Definition classify_page : prog (option group_info) :=
  source <~ call PageSource ;;
  soup <~ lift (parse_html source) ;;
  lift (find_news_group base_url soup).

Definition append_group (group : option group_info) (news_groups : list group_info)
  : list group_info :=
  match group with
  | Some g => news_groups ++ [g]
  | None => news_groups
  end.

(** The loop [while attempts < max_attempts], by the attempts that are
    left. *)
Fixpoint navigation_loop (attempts_left : nat) (news_groups : list group_info)
  : prog (list group_info) :=
  match attempts_left with
  | O => Ret news_groups
  | S attempts_left =>
      loaded <~ handle_load_more ;;
      if loaded then
        group <~ classify_page ;;
        navigation_loop attempts_left (append_group group news_groups)
      else
        paged <~ handle_pagination ;;
        if paged then
          group <~ classify_page ;;
          navigation_loop attempts_left (append_group group news_groups)
        else Ret news_groups
  end.

(** The object's flag [client_side_pagination] and the list
    [news_groups] that the method extends. *)
Record session := Session {
  client_side_pagination : bool;
  news_groups : list group_info
}.

Definition hidden_share (g : group_info) : nat * nat :=
  (length (List.filter _is_element_hidden (a g)), length (a g)).

Definition detects_client_side (g : group_info) : bool :=
  let '(hidden_count, total_anchors) := hidden_share g in
  (0 <? total_anchors)%nat && hidden_ratio_above hidden_count total_anchors.

Definition _process_page_content (max_attempts : nat) (self : session) : prog session :=
  initial_group <~ classify_page ;;
  match initial_group with
  | Some g =>
      if detects_client_side g then
        Ret (Session true (news_groups self ++ [g]))
      else
        groups <~ navigation_loop max_attempts (news_groups self ++ [g]) ;;
        Ret (Session (client_side_pagination self) groups)
  | None =>
      groups <~ navigation_loop max_attempts (news_groups self) ;;
      Ret (Session (client_side_pagination self) groups)
  end.

(** The loop over the years of [find_all_news_groups]. *)
Fixpoint process_years (max_attempts : nat) (years : list string) (self : session)
  : prog session :=
  match years with
  | [] => Ret self
  | year :: rest =>
      let year_text := Py.strip year in
      if (Py.len year_text =? 4)%nat && isdigit year_text then
        selected <~ _select_year (Some year_text) ;;
        if selected then
          self <~ _process_page_content max_attempts self ;;
          if client_side_pagination self then Ret self
          else process_years max_attempts rest self
        else process_years max_attempts rest self
      else process_years max_attempts rest self
  end.

Definition wrap_error (e : Exc.exn) : Exc.exn :=
  Exc.Exn "Exception" (String.append "Error finding all news groups: " (Exc.exn_msg e)).

(** [find_all_news_groups] on an object whose flag is
    [client_side_pagination]; the result is the object afterwards, its
    list being the list returned. *)
Definition find_all_news_groups (max_attempts : nat) (client_side_pagination : bool)
  : prog session :=
  finally
    (try_except
       (_ <~ call (Get base_url) ;;
        passed <~ _handle_cloudflare ;;
        if negb passed then Throw (Exc.Exn "Exception" "Could not bypass protection")
        else
          let self := Session client_side_pagination [] in
          found <~ _find_year_selector ;;
          match found with
          | (None, _) => _process_page_content max_attempts self
          | (Some _, true) =>
              selected <~ _select_year None ;;
              if selected then _process_page_content max_attempts self
              else Ret self
          | (Some _, false) =>
              years <~ _get_year_options ;;
              match years with
              | None | Some [] => Ret self
              | Some years => process_years max_attempts years self
              end
          end)
       (fun e => Throw (wrap_error e)))
    (call Quit).

(** *** Running a method against a browser *)

(** A call made, with what it gave. *)
Inductive event : Type :=
| Called (X : Type) (o : op X) (r : Exc.outcome X).
Arguments Called {X} o r.

Variable world : Type.
Variable browser : forall X, op X -> world -> Exc.outcome X * world.

Fixpoint run {A} (p : prog A) (w : world) : Exc.outcome A * world * list event :=
  match p with
  | Ret a => (Exc.Return a, w, [])
  | Throw e => (Exc.Raise e, w, [])
  | Do o k =>
      let '(r, w') := browser _ o w in
      let '(result, w'', trace) := run (k r) w' in
      (result, w'', Called o r :: trace)
  end.

Definition result_of {A} (x : Exc.outcome A * world * list event) : Exc.outcome A :=
  fst (fst x).
Definition trace_of {A} (x : Exc.outcome A * world * list event) : list event := snd x.

(** Observations on a trace. *)
Definition is_quit (ev : event) : bool :=
  match ev with Called Quit _ => true | _ => false end.
Definition is_page_source (ev : event) : bool :=
  match ev with Called PageSource _ => true | _ => false end.
Definition is_click (ev : event) : bool :=
  match ev with
  | Called (Click _) _ | Called (ScriptClick _) _ => true
  | _ => false
  end.
Definition succeeded (ev : event) : bool :=
  match ev with
  | Called _ (Exc.Return _) => true
  | Called _ (Exc.Raise _) => false
  end.
Definition is_url_change (ev : event) : bool :=
  match ev with Called (WaitUrlChange _) _ => true | _ => false end.
Definition is_find_element (ev : event) : bool :=
  match ev with Called (FindElement _) _ => true | _ => false end.

Definition is_selection (ev : event) : bool :=
  match ev with Called (SelectByVisibleText _ _) _ => true | _ => false end.

(** A click that went through, a URL change that was seen, a selection
    that was made. *)
Definition click_succeeded (ev : event) : bool := is_click ev && succeeded ev.
Definition url_changed (ev : event) : bool := is_url_change ev && succeeded ev.
Definition selection_made (ev : event) : bool := is_selection ev && succeeded ev.

(** The name of the call made. *)
Inductive op_name : Type :=
| GetOp | WaitForChallengeOp | FindElementsOp | FindElementOp | FindChildOp
| TagNameOp | TextOp | ScrollIntoViewOp | ClickOp | ScriptClickOp | CurrentUrlOp
| WaitUrlChangeOp | PageSourceOp | MakeSelectOp | OptionsOp
| SelectByVisibleTextOp | QuitOp.

Definition name_of {X} (o : op X) : op_name :=
  match o with
  | Get _ => GetOp
  | WaitForChallenge => WaitForChallengeOp
  | FindElements _ _ => FindElementsOp
  | FindElement _ => FindElementOp
  | FindChild _ _ => FindChildOp
  | TagName _ => TagNameOp
  | Text _ => TextOp
  | ScrollIntoView _ => ScrollIntoViewOp
  | Click _ => ClickOp
  | ScriptClick _ => ScriptClickOp
  | CurrentUrl => CurrentUrlOp
  | WaitUrlChange _ => WaitUrlChangeOp
  | PageSource => PageSourceOp
  | MakeSelect _ => MakeSelectOp
  | Options _ => OptionsOp
  | SelectByVisibleText _ _ => SelectByVisibleTextOp
  | Quit => QuitOp
  end.

Definition called (ev : event) : op_name :=
  match ev with Called o _ => name_of o end.

(** A call that only [handle_load_more] and [handle_pagination] make. *)
Definition is_navigation (ev : event) : bool :=
  match called ev with
  | FindElementOp | TagNameOp | FindChildOp | CurrentUrlOp
  | ScrollIntoViewOp | ScriptClickOp | WaitUrlChangeOp => true
  | _ => false
  end.

(** No call of the trace is of the kind [kind]. *)
Definition none_of (kind : event -> bool) (trace : list event) : Prop :=
  forallb (fun ev => negb (kind ev)) trace = true.

(** The number of times the trace read the page source. *)
Definition page_reads (trace : list event) : nat :=
  length (List.filter is_page_source trace).

(** The group is what [find_news_group] found in a page source that the
    trace read. *)
Definition found_in_source (trace : list event) (g : group_info) : Prop :=
  exists source soup,
    In (Called PageSource (Exc.Return source)) trace
    /\ parse_html source = Exc.Return soup
    /\ find_news_group base_url soup = Exc.Return (Some g).

(** Whatever the browser does, the result and the trace of the method
    satisfy [Q]. *)
Definition ensures {A} (p : prog A) (Q : Exc.outcome A -> list event -> Prop) : Prop :=
  forall w, Q (result_of (run p w)) (trace_of (run p w)).

End Browser.

Arguments Ret {element A} a.
Arguments Throw {element A} e.
Arguments Do {element A X} o k.
Arguments Called {element X} o r.
Arguments Quit {element}.
Arguments PageSource {element}.
Arguments CurrentUrl {element}.
Arguments WaitForChallenge {element}.
Arguments Get {element} url.
Arguments WaitUrlChange {element} url.
Arguments FindElement {element} xpath.
Arguments FindElements {element} by_ selector.
Arguments FindChild {element} e tag.
Arguments TagName {element} e.
Arguments Text {element} e.
Arguments ScrollIntoView {element} e.
Arguments Click {element} e.
Arguments ScriptClick {element} e.
Arguments MakeSelect {element} e.
Arguments Options {element} e.
Arguments SelectByVisibleText {element} e text.

Notation "x <~ m ;; k" := (pbind _ m (fun x => k))
  (at level 100, m at next level, right associativity).

End NewsGroupFinder.

(** ** Observations on documents *)

Module Observe.
Import Dom.

(** The attribute dictionary of a tag. *)
Definition attrs (n : node) : gmap string string :=
  match n with
  | Tag _ a _ => a
  | NavigableString _ => ∅
  end.

(** The document with the attributes [keys] removed from every tag. *)
Fixpoint without_attrs (keys : list string) (n : node) : node :=
  match n with
  | NavigableString _ => n
  | Tag nm a cs =>
      Tag nm (foldr delete a keys) (map (without_attrs keys) cs)
  end.

End Observe.

(** ** Example documents *)

Module Examples.
Import Dom.

Definition attrs_of (l : list (string * string)) : gmap string string :=
  list_to_map l.

Definition uid (i : string) : string * string :=
  ("ali-zx9v8k2m4p", String.append "q7y5n3j6h_" i).

(** A text node in its wrapper. *)
Definition wrapped (seq i : string) (extra : list (string * string)) (s : string) : node :=
  Tag "ali-tx9v8k2m4p"
      (attrs_of (("ali-tx9v8k2m4p-seq",
                  String.append "qw7x_" (String.append seq "_p9m2")) :: uid i :: extra))
      [NavigableString s].

Definition title_label : string * string :=
  ("ali-zx9v8k2m4p-title-type", "qw7x_article_title_p9m2").
Definition content_label : string * string :=
  ("ali-zx9v8k2m4p-content-type", "qw7x_article_content_p9m2").

(** A labelled article page: the title on the [h1], the content label on
    the wrapper of the paragraph's text; a navigation bar and an
    advertisement carry no label. *)
Definition labeled_page : node :=
  Tag "[document]" ∅
    [Tag "html" (attrs_of [uid "0"])
       [Tag "head" (attrs_of [uid "1"])
          [Tag "title" (attrs_of [uid "2"]) [wrapped "1" "3" [] "Acme news"]];
        Tag "body" (attrs_of [uid "4"])
          [Tag "nav" (attrs_of [uid "5"])
             [Tag "a" (attrs_of [uid "6"; ("href", "/about")])
                [wrapped "2" "7" [] "About"]];
           Tag "article" (attrs_of [uid "8"])
             [Tag "h1" (attrs_of [uid "9"; title_label])
                [wrapped "3" "10" [] "Acme announces record results"];
              Tag "p" (attrs_of [uid "11"])
                [wrapped "4" "12"
                   [content_label; ("ali-zx9v8k2m4p-content-tag", "ali-tx9v8k2m4p")]
                   "Acme today announced record results."];
              Tag "div" (attrs_of [uid "13"; ("class", "ad")])
                [Tag "span" (attrs_of [uid "14"])
                   [wrapped "5" "15" [] "Buy now"]]]]]].

(** The same kind of page, in which the site's own markup carries a
    label attribute without a value. *)
Definition empty_label_page : node :=
  Tag "[document]" ∅
    [Tag "html" (attrs_of [uid "0"])
       [Tag "body" (attrs_of [uid "1"])
          [Tag "div" (attrs_of [uid "2"; ("ali-zx9v8k2m4p-title-type", "")]) [];
           Tag "p" (attrs_of [uid "3"])
             [wrapped "1" "4" [content_label] "Acme today announced record results."]]]].

(** A parsed article page as the renderer hands it over. *)
Definition raw_page : node :=
  Tag "[document]" ∅
    [Tag "html" ∅
       [Tag "head" ∅
          [Tag "title" ∅ [NavigableString "Acme news"];
           NavigableString "
";
           Tag "meta" (attrs_of [("property", "og:title");
                                 ("content", "Acme announces record results")]) []];
        NavigableString "
";
        Tag "body" ∅
          [Tag "nav" ∅
             [Tag "a" (attrs_of [("href", "/about")]) [NavigableString "About"]];
           Tag "article" ∅
             [Tag "h1" ∅ [NavigableString "Acme announces record results for the first quarter"];
              Tag "p" (attrs_of [("class", "news-date")]) [NavigableString "Posted March 5, 2024"];
              Tag "p" ∅
                [NavigableString "Acme today announced ";
                 Tag "b" ∅ [NavigableString "record"];
                 NavigableString " results."];
              Tag "p" ∅ [Tag "strong" ∅ [NavigableString "Forward-Looking Statements"]];
              Tag "p" ∅ [NavigableString "This release contains projections."]]]]].

(** An article page with an Open Graph title of 50 characters and an
    [h1] of 80 characters inside the [article]. *)
Definition og_title_text : string :=
  "Acme Reports Record Results for First Quarter 2024".
Definition h1_title_text : string :=
  "Acme Corporation Reports Record Results for the First Quarter of 2024, Sets Goal".

Definition title_page : node :=
  Tag "[document]" ∅
    [Tag "html" ∅
       [Tag "head" ∅
          [Tag "meta" (attrs_of [("property", "og:title"); ("content", og_title_text)]) []];
        Tag "body" ∅
          [Tag "article" ∅
             [Tag "h1" ∅ [NavigableString h1_title_text];
              Tag "p" ∅ [NavigableString "Acme today announced record results."]]]]].

(** An article page, as the renderer hands it over, whose own markup
    carries the title-label attribute without a value. *)
Definition raw_valueless_page : node :=
  Tag "[document]" ∅
    [Tag "html" ∅
       [Tag "head" ∅ [Tag "title" ∅ [NavigableString "Acme news"]];
        Tag "body" ∅
          [Tag "div" (attrs_of [("ali-zx9v8k2m4p-title-type", "")])
             [NavigableString "Investor relations"];
           Tag "article" ∅
             [Tag "h1" ∅ [NavigableString "Acme announces record results for the first quarter"];
              Tag "p" ∅ [NavigableString "Acme today announced record results."]]]]].

(** Stand-ins for the libraries on the example pages: no JSON block parses,
    [dateutil] is given by its results on the date strings that occur, and
    the clock stands at 3 November 2026. *)
Definition sample_json_loads (s : string) : option ArticleExtractor.json := None.
Definition quote : string := String (Ascii.ascii_of_nat 34) EmptyString.
(** The title page with a JSON-LD block whose headline is a number, and
    [json.loads] on that block. *)
Definition headline_block : string :=
  String.append "{"
    (String.append quote (String.append "headline" (String.append quote ": 2024}"))).

Definition numeric_headline_page : node :=
  Tag "[document]" ∅
    [Tag "html" ∅
       [Tag "head" ∅
          [Tag "meta" (attrs_of [("property", "og:title"); ("content", og_title_text)]) [];
           Tag "script" (attrs_of [("type", "application/ld+json")])
             [NavigableString headline_block]];
        Tag "body" ∅
          [Tag "article" ∅
             [Tag "h1" ∅ [NavigableString h1_title_text];
              Tag "p" ∅ [NavigableString "Acme today announced record results."]]]]].

Definition headline_json_loads (s : string) : option ArticleExtractor.json :=
  if String.eqb s headline_block
  then Some (ArticleExtractor.JObj [("headline", ArticleExtractor.JNum 2024)])
  else None.

Definition sample_json_dumps (l : list string) : string :=
  String.append "["
    (String.append
       (Py.join ", " (map (fun k => String.append quote (String.append k quote)) l))
       "]").

Definition sample_date : Type := Z * Z * Z.
Definition sample_parse (s : string) : option sample_date :=
  if String.eqb s "2024-03-01" then Some (2024, 3, 1)%Z
  else if String.eqb s "March 5, 2024" then Some (2024, 3, 5)%Z
  else if String.eqb s "2031-01-01" then Some (2031, 1, 1)%Z
  else None.
Definition sample_in_future (d : sample_date) : option bool :=
  let '(y, m, day) := d in
  Some ((2026 <? y) || ((y =? 2026) && ((11 <? m) || ((m =? 11) && (3 <? day)))))%Z.
Definition two_digits (z : Z) : string :=
  if (z <? 10)%Z then String.append "0" (pretty z) else pretty z.
Definition sample_date_str (d : sample_date) : string :=
  let '(y, m, day) := d in
  String.append (pretty y)
    (String.append "-" (String.append (two_digits m)
       (String.append "-" (String.append (two_digits day) " 00:00:00")))).

(** A page without metadata dates and with two dated text nodes: a
    month-name date first, an ISO date second. *)
Definition tie_page : node :=
  Tag "[document]" ∅
    [Tag "html" ∅
       [Tag "body" ∅
          [Tag "p" ∅ [NavigableString "March 5, 2024"];
           Tag "p" ∅ [NavigableString "2024-03-01"]]]].

Definition tie_page_addressed : node :=
  Eval vm_compute in
    ArticleExtractor._label_elements (ArticleExtractor._wrap_text_nodes tie_page).

Definition tie_page_best : ArticleExtractor.date_candidate sample_date :=
  Eval vm_compute in
    match ArticleExtractor.best_date_candidate
            sample_date sample_parse sample_in_future tie_page_addressed with
    | Some best => best
    | None => ArticleExtractor.DateCandidate sample_date (0, 0, 0)%Z
                (Dom.Located [] tie_page []) 0 0 0
    end.

(** A sentence that mentions "about" in passing: it matches a lenient
    section-header pattern, no strict one and no basic boilerplate
    pattern. *)
Definition passing_mention : string := "Read more about acme corp here".

(** Three elements with that direct text and their parents: a text
    wrapper inside a paragraph of class [bold-heading]; a [span] of class
    [intro] inside a [div] of class [bold]; a [span] of class [bold]
    inside a [div] of class [intro]. *)
Definition wrapper_in_bold_class : node * node :=
  let element := wrapped "1" "3" [] passing_mention in
  (element, Tag "p" (attrs_of [uid "2"; ("class", "bold-heading")]) [element]).
Definition plain_in_bold_class : node * node :=
  let element := Tag "span" (attrs_of [("class", "intro")]) [NavigableString passing_mention] in
  (element, Tag "div" (attrs_of [("class", "bold")]) [element]).
Definition bold_class_in_plain : node * node :=
  let element := Tag "span" (attrs_of [("class", "bold")]) [NavigableString passing_mention] in
  (element, Tag "div" (attrs_of [("class", "intro")]) [element]).

(** A page whose article holds that sentence in a paragraph of class
    [bold-heading]. *)
Definition bold_class_page : node :=
  Tag "[document]" ∅
    [Tag "html" ∅
       [Tag "body" ∅
          [Tag "article" ∅
             [Tag "h1" ∅ [NavigableString "Acme opens a new plant"];
              Tag "p" (attrs_of [("class", "bold-heading")])
                [NavigableString passing_mention]]]]].

(** A press-release index page: four utility links in the navigation bar
    and six article links under [/news/], each with a verb in its slug. *)
Definition nav_link (url text : string) : node :=
  Tag "li" ∅ [Tag "a" (attrs_of [("href", url)]) [NavigableString text]].
Definition news_item (url text : string) : node :=
  Tag "article" ∅
    [Tag "h3" ∅ [Tag "a" (attrs_of [("href", url)]) [NavigableString text]]].

Definition listing_page : node :=
  Tag "[document]" ∅
    [Tag "html" ∅
       [Tag "body" ∅
          [Tag "nav" ∅
             [Tag "ul" ∅
                [nav_link "/legal" "Legal"; nav_link "/privacy" "Privacy";
                 nav_link "/contact" "Contact"; nav_link "/about" "About"]];
           Tag "main" ∅
             [Tag "div" (attrs_of [("class", "news-list")])
                [news_item "/news/acme-announces-first-quarter-results"
                   "Acme Announces First Quarter 2024 Results";
                 news_item "/news/acme-opens-new-plant-in-ohio"
                   "Acme Opens New Plant in Ohio";
                 news_item "/news/acme-completes-acquisition-of-bolt"
                   "Acme Completes Its Acquisition of Bolt";
                 news_item "/news/acme-unveils-next-generation-anvil"
                   "Acme Unveils Its Next Generation Anvil";
                 news_item "/news/acme-hires-chief-financial-officer"
                   "Acme Hires a Chief Financial Officer";
                 news_item "/news/acme-signs-supply-agreement-with-road-runner"
                   "Acme Signs Supply Agreement With Road Runner"]]]]].

(** A listing in which every article is linked twice, from its picture
    and from its headline. *)
Definition twin_item (url text : string) : node :=
  Tag "article" ∅
    [Tag "div" ∅ [Tag "a" (attrs_of [("href", url)]) [Tag "img" ∅ []]];
     Tag "h3" ∅ [Tag "a" (attrs_of [("href", url)]) [NavigableString text]]].

Definition twin_page : node :=
  Tag "[document]" ∅
    [Tag "html" ∅
       [Tag "body" ∅
          [Tag "main" ∅
             [twin_item "/news/acme-announces-first-quarter-results"
                "Acme Announces First Quarter 2024 Results";
              twin_item "/news/acme-opens-new-plant-in-ohio"
                "Acme Opens New Plant in Ohio";
              twin_item "/news/acme-completes-acquisition-of-bolt"
                "Acme Completes Its Acquisition of Bolt";
              twin_item "/news/acme-unveils-next-generation-anvil"
                "Acme Unveils Its Next Generation Anvil";
              twin_item "/news/acme-hires-chief-financial-officer"
                "Acme Hires a Chief Financial Officer"]]]].

(** A page without links, and a page whose only link has a one-segment
    target. *)
Definition no_link_page : node :=
  Tag "[document]" ∅
    [Tag "html" ∅ [Tag "body" ∅ [Tag "p" ∅ [NavigableString "Nothing here yet."]]]].
Definition flat_link_page : node :=
  Tag "[document]" ∅
    [Tag "html" ∅
       [Tag "body" ∅
          [Tag "a" (attrs_of [("href", "release.html")]) [NavigableString "Read the release"]]]].

(** A page whose largest group links to one-segment targets, beside two
    links two levels down. *)
Definition shallow_page : node :=
  Tag "[document]" ∅
    [Tag "html" ∅
       [Tag "body" ∅
          [Tag "ul" ∅
             [nav_link "/alpha" "Alpha programme begins";
              nav_link "/bravo" "Bravo plant opens";
              nav_link "/charlie" "Charlie line expands";
              nav_link "/delta" "Delta unit grows";
              nav_link "/echo" "Echo range widens"];
           Tag "main" ∅
             [news_item "/news/2024/first-quarter" "Results of the first quarter";
              news_item "/news/2024/second-quarter" "Results of the second quarter"]]]].

Definition base_url : string := "https://news.example.com/".

(** The title page after the addressing pass, and its valid title
    candidates. *)
Definition title_page_addressed : node :=
  Eval vm_compute in
    ArticleExtractor._label_elements (ArticleExtractor._wrap_text_nodes title_page).

Definition title_page_valid : list ArticleExtractor.title_candidate :=
  Eval vm_compute in
    List.filter ArticleExtractor.title_ok
      (ArticleExtractor.title_candidates sample_json_loads title_page_addressed).

(** What [extract_article] returns on the page whose markup carries the
    valueless label attribute. *)
Definition valueless_result : Exc.outcome ArticleExtractor.extract_result :=
  ArticleExtractor.extract_article sample_json_loads sample_json_dumps
    sample_date sample_parse sample_in_future sample_date_str
    (fun _ => None) (fun _ => ArticleExtractor.WaitTimeout) (fun url => Exc.Return url)
    (fun _ => Exc.Return raw_valueless_page) (fun _ => None)
    "https://news.example.com/a".

Definition valueless_labeled : node :=
  match valueless_result with
  | Exc.Return (ArticleExtractor.LabeledSoup soup) => soup
  | _ => raw_valueless_page
  end.

(** The group that [find_news_group] returns on the listing page. *)
Definition listing_group : NewsGroupFinder.group_info :=
  match NewsGroupFinder.find_news_group base_url listing_page with
  | Exc.Return (Some r) => r
  | _ => NewsGroupFinder.group_row [] 0 []
  end.

(** A listing that pages on the client side: the articles of the later
    pages are in the document, hidden. *)
Definition hidden_item (url text : string) : node :=
  Tag "article" (attrs_of [("style", "display: none")])
    [Tag "h3" ∅ [Tag "a" (attrs_of [("href", url)]) [NavigableString text]]].

Definition paged_listing : node :=
  Tag "[document]" ∅
    [Tag "html" ∅
       [Tag "body" ∅
          [Tag "main" ∅
             [Tag "div" (attrs_of [("class", "news-list")])
                [news_item "/news/acme-announces-first-quarter-results"
                   "Acme Announces First Quarter 2024 Results";
                 news_item "/news/acme-opens-new-plant-in-ohio"
                   "Acme Opens New Plant in Ohio";
                 hidden_item "/news/acme-completes-acquisition-of-bolt"
                   "Acme Completes Its Acquisition of Bolt";
                 hidden_item "/news/acme-unveils-next-generation-anvil"
                   "Acme Unveils Its Next Generation Anvil";
                 hidden_item "/news/acme-hires-chief-financial-officer"
                   "Acme Hires a Chief Financial Officer";
                 hidden_item "/news/acme-signs-supply-agreement-with-road-runner"
                   "Acme Signs Supply Agreement With Road Runner"]]]]].

(** A browser on a page that never changes: it gives the page source and
    raises on every other call. *)
Definition static_browser (source : string) (X : Type)
    (o : NewsGroupFinder.op Empty_set X) (w : unit) : Exc.outcome X * unit :=
  match o in NewsGroupFinder.op _ T return Exc.outcome T * unit with
  | NewsGroupFinder.PageSource => (Exc.Return source, tt)
  | _ => (Exc.Raise (Exc.Exn "WebDriverException" "unknown command"), tt)
  end.

End Examples.

(** * Properties *)

(** ** The matcher's fuel *)

Module ReFacts.
Import Re.

Section Fuel.
Context {A : Type}.
Implicit Types (k : bool -> list ascii -> option A).

Lemma run_cat fuel r1 r2 bos s k :
  run fuel (Cat r1 r2) bos s k = run fuel r1 bos s (fun b s' => run fuel r2 b s' k).
Proof. by destruct fuel. Qed.

Lemma run_alt fuel r1 r2 bos s k :
  run fuel (Alt r1 r2) bos s k
  = match run fuel r1 bos s k with
    | Some x => Some x
    | None => run fuel r2 bos s k
    end.
Proof. by destruct fuel. Qed.

Lemma run_star fuel r1 bos s k :
  run (S fuel) (Star r1) bos s k
  = match run (S fuel) r1 bos s
            (fun b s' => if (length s' <? length s)%nat
                         then run fuel (Star r1) b s' k else None) with
    | Some x => Some x
    | None => k bos s
    end.
Proof. reflexivity. Qed.

Lemma run_leaf fuel r bos s k :
  match r with Cat _ _ | Alt _ _ | Star _ => False | _ => True end ->
  run fuel r bos s k = run 0 r bos s k.
Proof. destruct r; try done; by destruct fuel. Qed.

(** With fuel above the length of the subject, the result does not depend
    on the fuel: the matcher never runs out. *)
Lemma run_fuel_enough (n : nat) :
  forall r fuel1 fuel2 bos s k1 k2,
    (length s <= n)%nat -> (n < fuel1)%nat -> (n < fuel2)%nat ->
    (forall b s', (length s' <= length s)%nat -> k1 b s' = k2 b s') ->
    run fuel1 r bos s k1 = run fuel2 r bos s k2.
Proof.
  induction n as [n IHn] using lt_wf_ind.
  induction r as [|p|r1 IH1 r2 IH2|r1 IH1 r2 IH2|r1 IH1| |];
    intros fuel1 fuel2 bos s k1 k2 Hs H1 H2 Hk.
  - rewrite (run_leaf fuel1), (run_leaf fuel2) by done. cbn. by apply Hk.
  - rewrite (run_leaf fuel1), (run_leaf fuel2) by done. cbn.
    destruct s as [|c s]; [done|]. destruct (p c); [|done]. apply Hk. cbn. lia.
  - rewrite !run_cat. apply IH1; try done.
    intros b s' Hs'. apply IH2; try done; [lia|].
    intros b' s'' Hs''. apply Hk. lia.
  - rewrite !run_alt. rewrite (IH1 fuel1 fuel2 bos s k1 k2) by done.
    destruct (run fuel2 r1 bos s k2); [done|]. by apply IH2.
  - destruct fuel1 as [|f1], fuel2 as [|f2]; try lia. rewrite !run_star.
    rewrite (IH1 (S f1) (S f2) bos s _
               (fun b s' => if (length s' <? length s)%nat
                            then run f2 (Star r1) b s' k2 else None)); try done.
    + rewrite (Hk bos s) by done. done.
    + intros b s' Hs'. destruct (length s' <? length s)%nat eqn:Hlt; [|done].
      apply Nat.ltb_lt in Hlt.
      apply (IHn (length s')); try lia.
      intros b' s'' Hs''. apply Hk. lia.
  - rewrite (run_leaf fuel1), (run_leaf fuel2) by done. cbn.
    destruct bos; [|done]. by apply Hk.
  - rewrite (run_leaf fuel1), (run_leaf fuel2) by done. cbn.
    destruct s as [|c [|c' s]]; [by apply Hk| |done].
    destruct (Ascii.eqb c "010"); [|done]. by apply Hk.
Qed.
End Fuel.

Lemma match_front_fuel r bos s fuel :
  (length s < fuel)%nat ->
  run fuel r bos s (fun _ rest => Some rest) = match_front r bos s.
Proof.
  intros H. unfold match_front. apply (run_fuel_enough (length s)); try done; lia.
Qed.

End ReFacts.


(** ** Paths and in-place updates *)

Module DomFacts.
Import Dom.

Lemma tags_of_tag nm a cs :
  tags_of (Tag nm a cs) = Tag nm a cs :: flat_map tags_of cs.
Proof. reflexivity. Qed.

Lemma tags_of_option_some (x : node) :
  flat_map tags_of (option_list (Some x)) = tags_of x.
Proof. simpl. apply app_nil_r. Qed.

Lemma tags_of_option_none :
  flat_map tags_of (option_list (@None node)) = [].
Proof. reflexivity. Qed.

Lemma find_path_go_spec q (cs : list node) :
  Forall (fun c => forall p, find_path q c = Some p ->
                   p <> [] /\ exists t, get_at p c = Some t /\ is_tag t = true /\ q t = true) cs ->
  forall i p,
    (fix go (i : nat) (l : list node) : option path :=
       match l with
       | [] => None
       | c :: l' =>
           if is_tag c && q c then Some [i]
           else match find_path q c with
                | Some p => Some (i :: p)
                | None => go (S i) l'
                end
       end) i cs = Some p ->
    exists j p', p = (i + j)%nat :: p' /\
      exists c t, cs !! j = Some c /\ get_at p' c = Some t /\ is_tag t = true /\ q t = true.
Proof.
  induction 1 as [|c cs Hc _ IH]; intros i p Hgo; [discriminate|].
  destruct (is_tag c && q c) eqn:Hq.
  - injection Hgo as <-. apply andb_true_iff in Hq as [Ht Hq].
    exists 0%nat, []. rewrite Nat.add_0_r. split; [done|].
    exists c, c. done.
  - destruct (find_path q c) as [p0|] eqn:Hf.
    + injection Hgo as <-. destruct (Hc _ eq_refl) as [_ (t & Hg & Ht & Hqt)].
      exists 0%nat, p0. rewrite Nat.add_0_r. split; [done|].
      exists c, t. done.
    + destruct (IH _ _ Hgo) as (j & p' & -> & c' & t & Hl & Hg & Ht & Hqt).
      exists (S j), p'. split; [f_equal; lia|].
      exists c', t. done.
Qed.

(** [find] returns the position of a tag below the root that satisfies
    the filter. *)
Lemma find_path_spec q n p :
  find_path q n = Some p ->
  p <> [] /\ exists t, get_at p n = Some t /\ is_tag t = true /\ q t = true.
Proof.
  revert p. induction n as [s|nm a cs IH] using node_ind; intros p Hp; [discriminate|].
  simpl in Hp. destruct (find_path_go_spec q cs IH _ _ Hp)
    as (j & p' & -> & c & t & Hl & Hg & Ht & Hqt).
  split; [done|]. exists t. simpl. rewrite Hl. done.
Qed.

Lemma splice_lookup f i cs c :
  cs !! i = Some c ->
  splice f i cs = take i cs ++ option_list (f c) ++ drop (S i) cs.
Proof. intros H. unfold splice. by rewrite H. Qed.

Lemma splice_lookup_some f i cs c c' :
  cs !! i = Some c -> f c = Some c' -> splice f i cs !! i = Some c'.
Proof.
  intros H Hf. rewrite (splice_lookup _ _ _ _ H), Hf. simpl.
  apply lookup_lt_Some in H as Hlt.
  rewrite lookup_app_r; rewrite length_take; [|lia].
  replace (i - i `min` length cs)%nat with 0%nat by lia. done.
Qed.

(** Reading below the position that was updated. *)
Lemma get_at_alter_at f p q n t t' :
  p <> [] -> get_at p n = Some t -> f t = Some t' ->
  get_at (p ++ q) (alter_at f p n) = get_at q t'.
Proof.
  revert n. induction p as [|i p IH]; intros n Hne Hg Hf; [done|].
  destruct n as [s|nm a cs]; [done|].
  simpl in Hg. destruct (cs !! i) as [c|] eqn:Hl; [|done].
  destruct p as [|j p].
  - simpl in Hg. injection Hg as ->. simpl.
    by rewrite (splice_lookup_some _ _ _ _ _ Hl Hf).
  - change (alter_at f (i :: j :: p) (Tag nm a cs))
      with (Tag nm a (splice (fun c => Some (alter_at f (j :: p) c)) i cs)).
    change (get_at ((i :: j :: p) ++ q) ?n)
      with (match contents n !! i with
            | Some c => get_at ((j :: p) ++ q) c | None => None end).
    cbn [contents].
    rewrite (splice_lookup_some (fun c => Some (alter_at f (j :: p) c)) i cs c _ Hl eq_refl).
    by apply IH.
Qed.

Lemma splice_insert f i cs c c' :
  cs !! i = Some c -> f c = Some c' -> splice f i cs = <[ i := c' ]> cs.
Proof.
  intros H Hf. rewrite (splice_lookup _ _ _ _ H), Hf. cbn [option_list app].
  symmetry. apply insert_take_drop. by eapply lookup_lt_Some.
Qed.

Lemma alter_at_cons f i p nm a cs c :
  cs !! i = Some c -> p <> [] ->
  alter_at f (i :: p) (Tag nm a cs) = Tag nm a (<[ i := alter_at f p c ]> cs).
Proof.
  intros H Hp. destruct p as [|j p]; [done|].
  change (alter_at f (i :: j :: p) (Tag nm a cs))
    with (Tag nm a (splice (fun c => Some (alter_at f (j :: p) c)) i cs)).
  by rewrite (splice_insert (fun c => Some (alter_at f (j :: p) c)) i cs c _ H eq_refl).
Qed.

Lemma alter_at_single f i nm a cs c c' :
  cs !! i = Some c -> f c = Some c' ->
  alter_at f [i] (Tag nm a cs) = Tag nm a (<[ i := c' ]> cs).
Proof. intros H Hf. cbn [alter_at]. by rewrite (splice_insert _ _ _ c c' H Hf). Qed.

(** Putting back what stood at a position undoes an update there. *)
Lemma alter_at_restore f p :
  forall n t t',
    p <> [] -> get_at p n = Some t -> f t = Some t' ->
    alter_at (fun _ => Some t) p (alter_at f p n) = n.
Proof.
  induction p as [|i p IH]; intros n t t' Hne Hg Hf; [done|].
  destruct n as [s|nm a cs]; [done|].
  cbn [get_at contents] in Hg. destruct (cs !! i) as [c|] eqn:Hl; [|done].
  pose proof (lookup_lt_Some _ _ _ Hl) as Hlt.
  destruct (decide (p = [])) as [->|Hp].
  - cbn [get_at] in Hg. injection Hg as ->.
    rewrite (alter_at_single f i nm a cs t t' Hl Hf).
    rewrite (alter_at_single (fun _ => Some t) i nm a _ t' t);
      [|by rewrite list_lookup_insert_eq|done].
    by rewrite list_insert_insert_eq, list_insert_id.
  - rewrite (alter_at_cons f i p nm a cs c Hl Hp).
    rewrite (alter_at_cons (fun _ => Some t) i p nm a _ (alter_at f p c));
      [|by rewrite list_lookup_insert_eq|done].
    rewrite list_insert_insert_eq, (IH c t t' Hp Hg Hf). by rewrite list_insert_id.
Qed.

End DomFacts.

(** ** Pruning *)

Module SoupCleanerFacts.
Import Dom DomFacts SoupCleaner.

Lemma has_labeled_descendant_false e d :
  _has_labeled_descendant e = false -> In d (find_all e) ->
  _should_keep_element d = false.
Proof.
  unfold _has_labeled_descendant, _should_keep_element. intros H Hd.
  destruct (existsb _ content_labels) eqn:E; [|done].
  assert (existsb (fun desc => existsb (fun label => truthy (get desc label))
                                 content_labels) (find_all e) = true); [|congruence].
  apply existsb_exists. eauto.
Qed.

Section Preserved.
(** A property of a tag that its attributes decide. *)
Variable Q : node -> bool.
Hypothesis Q_attrs : forall nm a cs cs', Q (Tag nm a cs) = Q (Tag nm a cs').

Lemma filter_nil_of_false (l : list node) :
  (forall d, In d l -> Q d = false) -> List.filter Q l = [].
Proof.
  induction l as [|x l IH]; intros H; [done|]. simpl.
  rewrite (H x) by (by left). apply IH. intros d Hd. apply H. by right.
Qed.

(** Where every tag with the property is one that pruning keeps, the
    tags with the property survive pruning unchanged, in order. *)
Lemma process_element_filter e :
  Forall (fun d => Q d = true -> _should_keep_element d = true) (tags_of e) ->
  List.filter Q (flat_map tags_of (option_list (_process_element e)))
  = List.filter Q (tags_of e).
Proof.
  induction e as [s|nm a cs IH] using node_ind; intros Hg; [done|].
  cbn [_process_element].
  destruct (_should_keep_element (Tag nm a cs)) eqn:Hk.
  { by rewrite tags_of_option_some. }
  rewrite tags_of_tag in Hg. apply Forall_cons in Hg as [Hhd Hg].
  assert (Q (Tag nm a cs) = false) as Hq.
  { destruct (Q (Tag nm a cs)); [|done]. specialize (Hhd eq_refl). congruence. }
  destruct (_has_labeled_descendant (Tag nm a cs)) eqn:Hd; cbn [negb].
  - rewrite tags_of_option_some, !tags_of_tag.
    cbn [List.filter]. rewrite (Q_attrs nm a _ cs), Hq.
    clear Hk Hd Hhd Hq. induction cs as [|c cs IHcs]; [done|].
    apply Forall_cons in IH as [IHc IH].
    cbn [flat_map] in Hg. apply Forall_app in Hg as [Hgc Hg].
    cbn [omap list_omap flat_map]. rewrite List.filter_app, <- (IHc Hgc), <- (IHcs IH Hg).
    destruct (_process_element c) as [c'|].
    + rewrite tags_of_option_some. cbn [flat_map]. by rewrite List.filter_app.
    + by rewrite tags_of_option_none.
  - assert (List.filter Q (tags_of (Tag nm a cs)) = []) as Hnil.
    { apply filter_nil_of_false. intros d [<-|Hin]; [done|].
      destruct (Q d) eqn:Hqd; [|done].
      rewrite Forall_forall in Hg.
      specialize (Hg d (proj2 (list_elem_of_In _ _) Hin) Hqd).
      by rewrite (has_labeled_descendant_false _ _ Hd Hin) in Hg. }
    destruct (_is_structural_element (Tag nm a cs)); cbn [negb].
    + by rewrite tags_of_option_some.
    + by rewrite tags_of_option_none, Hnil.
Qed.

Lemma alter_at_root f p nm a cs :
  exists cs', alter_at f p (Tag nm a cs) = Tag nm a cs'.
Proof. destruct p as [|i [|j p]]; simpl; eauto. Qed.

(** The identifiers of the tags with the property, in document order,
    are the same before and after pruning at a position. *)
Lemma alter_at_process_ids p n :
  Forall (fun d => Q d = true -> _should_keep_element d = true) (find_all n) ->
  map (fun e => get e id_attr)
      (List.filter Q (find_all (alter_at _process_element p n)))
  = map (fun e => get e id_attr) (List.filter Q (find_all n)).
Proof.
  revert n. induction p as [|i p IH]; intros n Hg; [by destruct n|].
  destruct n as [s|nm a cs]; [by destruct p|].
  assert (forall f,
    (forall c, In c cs ->
       map (fun e => get e id_attr) (List.filter Q (flat_map tags_of (option_list (f c))))
       = map (fun e => get e id_attr) (List.filter Q (tags_of c))) ->
    map (fun e => get e id_attr) (List.filter Q (find_all (Tag nm a (splice f i cs))))
    = map (fun e => get e id_attr) (List.filter Q (find_all (Tag nm a cs)))) as Hsplice.
  { intros f Hf. unfold find_all. cbn [contents].
    unfold splice. destruct (cs !! i) as [c|] eqn:Hl; [|done].
    assert (In c cs) as Hin
      by (apply list_elem_of_In; by eapply list_elem_of_lookup_2).
    specialize (Hf c Hin). clear Hin.
    pose proof (take_drop_middle cs i c Hl) as Hcs. revert Hcs.
    generalize (take i cs) (drop (S i) cs). intros pre post <-.
    rewrite !flat_map_app, !List.filter_app, !map_app. cbn [flat_map].
    rewrite List.filter_app, map_app. by rewrite Hf. }
  unfold find_all in Hg. cbn [contents] in Hg.
  rewrite Forall_flat_map, Forall_forall in Hg.
  destruct p as [|j p].
  - apply Hsplice. intros c Hc. f_equal. apply process_element_filter.
    apply Hg. by apply list_elem_of_In.
  - apply (Hsplice (fun c => Some (alter_at _process_element (j :: p) c))).
    intros c Hc. rewrite tags_of_option_some.
    apply list_elem_of_In, Hg in Hc.
    destruct c as [s|nm' a' cs']; [by destruct p|].
    destruct (alter_at_root _process_element (j :: p) nm' a' cs') as [cs'' E].
    rewrite tags_of_tag in Hc. apply Forall_cons in Hc as [_ Hc].
    specialize (IH (Tag nm' a' cs') Hc). rewrite E in IH |- *.
    rewrite !tags_of_tag. cbn [List.filter]. rewrite (Q_attrs nm' a' cs'' cs').
    unfold find_all in IH. cbn [contents] in IH.
    destruct (Q (Tag nm' a' cs')); cbn [map]; by rewrite IH.
Qed.
End Preserved.

Lemma has_attr_should_keep label d :
  In label content_labels -> label_values_ok d = true ->
  has_attr label d = true -> _should_keep_element d = true.
Proof.
  intros Hl Hok Ha. unfold _should_keep_element. apply existsb_exists.
  exists label. split; [done|].
  unfold label_values_ok in Hok. rewrite forallb_forall in Hok.
  specialize (Hok label Hl). unfold has_attr in Ha.
  by destruct (get d label).
Qed.

Lemma clean_labeled_ids soup label :
  labels_nonempty soup = true -> In label content_labels ->
  labeled_ids label (snd (create_clean_soup (init soup))) = labeled_ids label soup.
Proof.
  intros Hok Hl. unfold create_clean_soup, init. cbn [original_soup snd].
  destruct (find_path (name_is "body") soup) as [p|]; [|done].
  unfold labeled_ids. f_equal.
  apply (alter_at_process_ids (has_attr label)); [done|].
  unfold labels_nonempty in Hok. rewrite forallb_forall in Hok.
  apply List.Forall_forall. intros d Hd. apply has_attr_should_keep; auto.
Qed.

(** Where every label attribute that is present has a value, as every
    label the extractor writes has, the clean copy made by
    [create_clean_soup] bears, for every label kind, the same set of node
    identifiers as the labelled original, and [verify_clean_soup] run
    afterwards returns [True]. *)
Theorem prune_preserves_labels (soup : node) :
  labels_nonempty soup = true ->
  (forall label, In label content_labels ->
     labeled_ids label (snd (create_clean_soup (init soup)))
     = labeled_ids label soup)
  /\ snd (verify_clean_soup (fst (create_clean_soup (init soup)))) = true.
Proof.
  intros Hok. split; [intros label Hl; by apply clean_labeled_ids|].
  unfold verify_clean_soup. cbn [create_clean_soup fst snd clean_soup original_soup init from_option].
  apply forallb_forall. intros label Hl. apply bool_decide_eq_true.
  symmetry. exact (clean_labeled_ids soup label Hok Hl).
Qed.

Lemma existsb_filter (Q : node -> bool) (l : list node) :
  existsb Q l = match List.filter Q l with [] => false | _ :: _ => true end.
Proof. induction l as [|x l IH]; [done|]. simpl. by destruct (Q x). Qed.

(** Where pruning descends into an element, the element still has a
    labelled descendant afterwards. *)
Lemma has_labeled_descendant_omap nm a cs :
  _has_labeled_descendant (Tag nm a (omap _process_element cs))
  = _has_labeled_descendant (Tag nm a cs).
Proof.
  unfold _has_labeled_descendant, find_all. cbn [contents].
  change (fun desc => existsb (fun label => truthy (get desc label)) content_labels)
    with _should_keep_element.
  rewrite !existsb_filter.
  assert (List.filter _should_keep_element (flat_map tags_of (omap _process_element cs))
          = List.filter _should_keep_element (flat_map tags_of cs)) as ->; [|done].
  induction cs as [|c cs IH]; [done|].
  cbn [omap list_omap flat_map]. rewrite List.filter_app, <- IH.
  rewrite <- (process_element_filter _should_keep_element) by
    (try done; apply List.Forall_forall; auto).
  destruct (_process_element c) as [c'|].
  - rewrite tags_of_option_some. cbn [flat_map]. by rewrite List.filter_app.
  - by rewrite tags_of_option_none.
Qed.

Lemma process_element_reduction e :
  forall e' q x,
    _process_element e = Some e' ->
    get_at q e' = Some x -> unjustified x = true ->
    exists q1 q2 a,
      q = q1 ++ q2 /\ q2 <> [] /\ get_at q1 e' = Some a /\ kept_whole a = true.
Proof.
  induction e as [s|nm a cs IH] using node_ind; intros e' q x Hp Hq Hx.
  { injection Hp as <-. destruct q; [by injection Hq as <-|done]. }
  assert (kept_whole (Tag nm a cs) = true -> get_at q (Tag nm a cs) = Some x ->
            exists q1 q2 a0, q = q1 ++ q2 /\ q2 <> [] /\
              get_at q1 (Tag nm a cs) = Some a0 /\ kept_whole a0 = true) as Hwhole.
  { intros Hk Hg. destruct q as [|i q].
    - injection Hg as <-. unfold unjustified, kept_whole in *.
      destruct (_should_keep_element _), (_is_structural_element _),
        (_has_labeled_descendant _); done.
    - exists [], (i :: q), (Tag nm a cs). done. }
  cbn [_process_element] in Hp.
  destruct (_should_keep_element (Tag nm a cs)) eqn:Hk.
  { injection Hp as <-. apply Hwhole; [|done].
    unfold kept_whole. by rewrite Hk. }
  destruct (_has_labeled_descendant (Tag nm a cs)) eqn:Hd; cbn [negb] in Hp.
  - injection Hp as <-. destruct q as [|i q].
    + injection Hq as <-. unfold unjustified in Hx.
      rewrite has_labeled_descendant_omap, Hd in Hx.
      by rewrite !andb_false_r in Hx || destruct (_should_keep_element _).
    + cbn [get_at contents] in Hq.
      destruct (omap _process_element cs !! i) as [c'|] eqn:Hl; [|done].
      pose proof (list_elem_of_lookup_2 _ _ _ Hl) as Hin.
      apply list_elem_of_omap in Hin as (c & Hc & Hpc).
      rewrite Forall_forall in IH.
      destruct (IH c Hc c' q x Hpc Hq Hx) as (q1 & q2 & a0 & -> & Hne & Hg & Hkw).
      exists (i :: q1), q2, a0. repeat split; [done| |done].
      cbn [get_at contents]. by rewrite Hl.
  - destruct (_is_structural_element (Tag nm a cs)) eqn:Hs; cbn [negb] in Hp; [|done].
    injection Hp as <-. apply Hwhole; [|done].
    unfold kept_whole. by rewrite Hs, Hd, orb_true_r.
Qed.

Lemma process_body_some t :
  name_is "body" t = true -> exists t', _process_element t = Some t'.
Proof.
  destruct t as [s|nm a cs]; [done|]. cbn [name_is]. intros ->%String.eqb_eq.
  cbn [_process_element].
  destruct (_should_keep_element _); [eauto|].
  destruct (_has_labeled_descendant _); cbn [negb]; eauto.
Qed.

(** C2 (as amended).  In the clean copy, an element inside the pruned
    body that has no label, no labelled descendant and no structural tag
    lies strictly below an element that pruning keeps whole: a labelled
    element, or a structural element without labelled descendants.
    Elements outside the body are not pruned: with the body of the
    original put back in its place, the clean copy is the original, and a
    document without a body is its own clean copy. *)
Theorem prune_reduction (soup : node) :
  let clean := snd (create_clean_soup (init soup)) in
  match find_path (name_is "body") soup with
  | Some p =>
      (forall q x,
          get_at (p ++ q) clean = Some x ->
          unjustified x = true ->
          exists q1 q2 a,
            q = q1 ++ q2 /\ q2 <> [] /\
            get_at (p ++ q1) clean = Some a /\
            kept_whole a = true)
      /\ exists body,
           get_at p soup = Some body
           /\ alter_at (fun _ => Some body) p clean = soup
  | None => clean = soup
  end.
Proof.
  cbv zeta. unfold create_clean_soup, init. cbn [original_soup snd].
  destruct (find_path (name_is "body") soup) as [p|] eqn:Hp; [|done].
  destruct (find_path_spec _ _ _ Hp) as (Hne & body & Hb & _ & Hnm).
  destruct (process_body_some body Hnm) as [body' Hproc]. split.
  - intros q x. rewrite (get_at_alter_at _ p q soup body body' Hne Hb Hproc).
    intros Hq Hx.
    destruct (process_element_reduction body body' q x Hproc Hq Hx)
      as (q1 & q2 & a0 & -> & Hq2 & Hg & Hkw).
    exists q1, q2, a0. repeat split; [done| |done].
    by rewrite (get_at_alter_at _ p q1 soup body body' Hne Hb Hproc).
  - exists body. split; [done|].
    exact (alter_at_restore _process_element p soup body body' Hne Hb Hproc).
Qed.

Lemma prune_preserves_labels_witness :
  labels_nonempty Examples.labeled_page = true
  /\ (forall label, In label content_labels ->
        labeled_ids label (snd (create_clean_soup (init Examples.labeled_page)))
        = labeled_ids label Examples.labeled_page)
  /\ snd (verify_clean_soup (fst (create_clean_soup (init Examples.labeled_page)))) = true.
Proof.
  split; [vm_compute; reflexivity|].
  apply (prune_preserves_labels Examples.labeled_page). vm_compute. reflexivity.
Defined.

(** C1: the pruner misses what the verifier of the same class counts.
    [_should_keep_element] and [_has_labeled_descendant] take the truth
    value of [element.get(label)], so that a label attribute without a
    value does not count; [verify_clean_soup] finds the labelled elements
    with [find_all(attrs={label: True})], which counts every element that
    has the attribute.  On the article page whose own markup carries the
    title-label attribute without a value on a [div], [extract_article]
    returns a labelled soup in which that [div] and the [h1] bear the
    title label; pruning removes the [div], so the sets of identifiers
    differ and [verify_clean_soup] returns [False].  The same happens on
    the smallest such document. *)
Theorem prune_loses_valueless_label :
  (Examples.valueless_result
   = Exc.Return (ArticleExtractor.LabeledSoup Examples.valueless_labeled)
   /\ map (fun e => (name e, get e "ali-zx9v8k2m4p-title-type", get e id_attr))
        (List.filter (has_attr "ali-zx9v8k2m4p-title-type")
           (find_all Examples.valueless_labeled))
      = [ (Some "div", Some "", Some "q7y5n3j6h_5");
          (Some "h1", Some "qw7x_article_title_p9m2", Some "q7y5n3j6h_8") ]
   /\ elements (labeled_ids "ali-zx9v8k2m4p-title-type" Examples.valueless_labeled)
      = [Some "q7y5n3j6h_5"; Some "q7y5n3j6h_8"]
   /\ elements (labeled_ids "ali-zx9v8k2m4p-title-type"
                  (snd (create_clean_soup (init Examples.valueless_labeled))))
      = [Some "q7y5n3j6h_8"]
   /\ snd (verify_clean_soup (fst (create_clean_soup (init Examples.valueless_labeled))))
      = false)
  /\ (elements (labeled_ids "ali-zx9v8k2m4p-title-type" Examples.empty_label_page)
      = [Some "q7y5n3j6h_2"]
     /\ elements (labeled_ids "ali-zx9v8k2m4p-title-type"
                    (snd (create_clean_soup (init Examples.empty_label_page)))) = []
     /\ snd (verify_clean_soup (fst (create_clean_soup (init Examples.empty_label_page))))
        = false).
Proof. repeat split; vm_compute; reflexivity. Qed.

Lemma prune_reduction_witness :
  let clean := snd (create_clean_soup (init Examples.labeled_page)) in
  find_path (name_is "body") Examples.labeled_page = Some [0; 1]%nat
  /\ get_at ([0; 1] ++ [1; 0; 0])%nat clean
     = Some (Examples.wrapped "3" "10" [] "Acme announces record results")
  /\ unjustified (Examples.wrapped "3" "10" [] "Acme announces record results") = true
  /\ (exists q1 q2 a,
        [1; 0; 0]%nat = q1 ++ q2 /\ q2 <> [] /\
        get_at ([0; 1]%nat ++ q1) clean = Some a /\
        kept_whole a = true)
  /\ (exists body,
        get_at [0; 1]%nat Examples.labeled_page = Some body
        /\ alter_at (fun _ => Some body) [0; 1]%nat clean = Examples.labeled_page).
Proof.
  cbv zeta.
  assert (find_path (name_is "body") Examples.labeled_page = Some [0; 1]%nat) as Hp
    by (vm_compute; reflexivity).
  split; [exact Hp|].
  split; [vm_compute; reflexivity|].
  split; [vm_compute; reflexivity|].
  pose proof (prune_reduction Examples.labeled_page) as H. cbv zeta in H.
  rewrite Hp in H. destruct H as [Hin Hout]. split; [|exact Hout].
  apply (Hin [1; 0; 0]%nat (Examples.wrapped "3" "10" [] "Acme announces record results"));
    vm_compute; reflexivity.
Defined.

(** C2 as stated fails: the clean copy of the example page keeps three
    elements that have no label, no labelled descendant and no structural
    tag: the text wrapper inside the labelled [h1], the link inside the
    kept [nav], and the [title] in the head, which pruning never visits. *)
Lemma clean_keeps_unjustified_elements :
  let clean := snd (create_clean_soup (init Examples.labeled_page)) in
  (exists x, get_at [0; 1; 1; 0; 0]%nat clean = Some x
             /\ name x = Some "ali-tx9v8k2m4p" /\ unjustified x = true)
  /\ (exists x, get_at [0; 1; 0; 0]%nat clean = Some x
                /\ name x = Some "a" /\ unjustified x = true)
  /\ (exists x, get_at [0; 0; 0]%nat clean = Some x
                /\ name x = Some "title" /\ unjustified x = true).
Proof.
  cbv zeta. repeat split; eexists; (split; [vm_compute; reflexivity|]);
    split; vm_compute; reflexivity.
Qed.

End SoupCleanerFacts.

(** ** Located tags *)

Module LocateFacts.
Import Dom DomFacts.

Lemma locate_tag rp ps nm a cs :
  locate rp ps (Tag nm a cs)
  = Located (rev rp) (Tag nm a cs) ps
    :: locate_children rp (Tag nm a cs :: ps) 0 cs.
Proof.
  cbn [locate]. f_equal. generalize (Tag nm a cs :: ps) 0%nat.
  induction cs as [|c cs IH]; intros ps' i; [done|].
  cbn [locate_children]. by rewrite IH.
Qed.

(** The located tags are the tags, in the same order. *)
Lemma locate_nodes n : forall rp ps, map loc_node (locate rp ps n) = tags_of n.
Proof.
  induction n as [s|nm a cs IH] using node_ind; intros rp ps; [done|].
  rewrite locate_tag, tags_of_tag. cbn [map loc_node]. f_equal.
  generalize (Tag nm a cs :: ps) 0%nat.
  induction cs as [|c cs IHcs]; intros ps' i; [done|].
  apply Forall_cons in IH as [IHc IH]. cbn [flat_map locate_children].
  by rewrite map_app, IHc, (IHcs IH).
Qed.

Lemma located_all_nodes soup : map loc_node (located_all soup) = find_all soup.
Proof.
  unfold located_all, find_all. destruct soup as [s|nm a cs]; [done|].
  pose proof (locate_nodes (Tag nm a cs) [] []) as H.
  rewrite tags_of_tag, locate_tag in H. rewrite locate_tag. cbn [map tail] in *.
  by injection H.
Qed.

Lemma in_tail {A} (x : A) (l : list A) : In x (tail l) -> In x l.
Proof. destruct l; [done|]. by right. Qed.

(** The tags located below a located tag are located below the root. *)
Lemma locate_below n :
  forall rp ps e x,
    In e (locate rp ps n) ->
    In x (tail (locate (rev (loc_path e)) (loc_parents e) (loc_node e))) ->
    In x (tail (locate rp ps n)).
Proof.
  induction n as [s|nm a cs IH] using node_ind; intros rp ps e x He Hx; [done|].
  rewrite locate_tag in He. destruct He as [<-|He].
  { cbn [loc_path loc_parents loc_node] in Hx. by rewrite rev_involutive in Hx. }
  rewrite locate_tag. cbn [tail]. revert He.
  generalize (Tag nm a cs :: ps) 0%nat.
  induction cs as [|c cs IHcs]; intros ps' i He; [done|].
  apply Forall_cons in IH as [IHc IH]. cbn [locate_children] in He |- *.
  apply in_app_iff in He as [He|He]; apply in_app_iff.
  - left. apply in_tail. by eapply IHc.
  - right. by apply (IHcs IH).
Qed.

Lemma located_below_all soup e x :
  In e (located_all soup) -> In x (located_below e) -> In x (located_all soup).
Proof.
  unfold located_all, located_below. intros He Hx.
  eapply locate_below; [|exact Hx]. by apply in_tail.
Qed.

Lemma find_in_some l q e :
  find_in l q = Some e -> In e l /\ q (loc_node e) = true.
Proof.
  unfold find_in. intros H.
  assert (In e (List.filter (fun e => q (loc_node e)) l)) as Hin.
  { destruct (List.filter _ l); [done|]. injection H as ->. by left. }
  by apply filter_In in Hin.
Qed.

(** Where a key tells the elements of a list apart, the first element
    with a given element's key is that element. *)
Lemma head_filter_unique {A B} `{EqDecision B} (key : A -> B) (l : list A) (x : A) :
  NoDup (map key l) -> In x l ->
  head (List.filter (fun y => bool_decide (key y = key x)) l) = Some x.
Proof.
  induction l as [|y l IH]; intros Hnd Hin; [done|].
  cbn [map] in Hnd. apply NoDup_cons in Hnd as [Hy Hnd]. cbn [List.filter].
  destruct Hin as [->|Hin].
  - by rewrite bool_decide_eq_true_2.
  - rewrite bool_decide_eq_false_2; [by apply IH|].
    intros E. apply Hy. rewrite E. apply list_elem_of_In, in_map. done.
Qed.

End LocateFacts.

(** ** Python's [max] *)

Module PyFacts.
Import Dom.

(** [max(l, key=...)] returns the first element whose key is largest. *)
Lemma py_max_from_first {A} (key : A -> nat) (l : list A) :
  forall best,
    (py_max_from key best l = best /\ forall x, In x l -> (key x <= key best)%nat)
    \/ exists l1 l2,
         l = l1 ++ py_max_from key best l :: l2
         /\ (key best < key (py_max_from key best l))%nat
         /\ (forall x, In x l1 -> (key x < key (py_max_from key best l))%nat)
         /\ (forall x, In x l2 -> (key x <= key (py_max_from key best l))%nat).
Proof.
  induction l as [|y l IH]; intros best; [left; by split|].
  cbn [py_max_from]. destruct (key best <? key y)%nat eqn:Hlt.
  - apply Nat.ltb_lt in Hlt. right. destruct (IH y) as [[E Hle]|(l1 & l2 & E & H1 & H2 & H3)].
    + exists [], l. rewrite E. by repeat split.
    + exists (y :: l1), l2. repeat split.
      * by rewrite E at 1.
      * lia.
      * intros x [<-|Hx]; [done|by apply H2].
      * done.
  - apply Nat.ltb_ge in Hlt. destruct (IH best) as [[E Hle]|(l1 & l2 & E & H1 & H2 & H3)].
    + left. split; [done|]. intros x [<-|Hx]; [done|by apply Hle].
    + right. exists (y :: l1), l2. repeat split.
      * by rewrite E at 1.
      * done.
      * intros x [<-|Hx]; [lia|by apply H2].
      * done.
Qed.

Lemma py_max_first {A} (key : A -> nat) (l : list A) (b : A) :
  py_max key l = Some b ->
  exists l1 l2, l = l1 ++ b :: l2
                /\ (forall x, In x l1 -> (key x < key b)%nat)
                /\ (forall x, In x l2 -> (key x <= key b)%nat).
Proof.
  destruct l as [|y l]; [done|]. cbn [py_max]. intros [= <-].
  destruct (py_max_from_first key l y) as [[E Hle]|(l1 & l2 & E & H1 & H2 & H3)].
  - exists [], l. rewrite E. by repeat split.
  - exists (y :: l1), l2. repeat split; [by rewrite E at 1| |done].
    intros x [<-|Hx]; [done|by apply H2].
Qed.

Lemma py_max_greatest {A} (key : A -> nat) (l : list A) (b : A) :
  py_max key l = Some b -> In b l /\ forall x, In x l -> (key x <= key b)%nat.
Proof.
  intros (l1 & l2 & -> & H1 & H2)%py_max_first. split.
  - apply in_app_iff. right. by left.
  - intros x [Hx|[<-|Hx]]%in_app_iff; [apply H1 in Hx; lia|done|by apply H2].
Qed.

End PyFacts.

(** ** Node addressing *)

Module AddressingFacts.
Import Dom DomFacts ArticleExtractor.

Lemma wrap_from_tag idx nm a cs :
  wrap_from idx (Tag nm a cs)
  = (fst (wrap_list idx cs), Tag nm a (snd (wrap_list idx cs))).
Proof.
  change (wrap_from idx (Tag nm a cs))
    with (let '(i, cs') := wrap_list idx cs in (i, Tag nm a cs')).
  by destruct (wrap_list idx cs).
Qed.

Lemma wrap_list_cons idx c l :
  wrap_list idx (c :: l)
  = (fst (wrap_list (fst (wrap_from idx c)) l),
     snd (wrap_from idx c) :: snd (wrap_list (fst (wrap_from idx c)) l)).
Proof.
  cbn [wrap_list]. destruct (wrap_from idx c) as [i1 c'].
  cbn [fst snd]. by destruct (wrap_list i1 l).
Qed.

Lemma label_from_tag idx nm a cs :
  label_from idx (Tag nm a cs)
  = (fst (label_list (S idx) cs),
     Tag nm (<[ id_attr := id_value idx ]> a) (snd (label_list (S idx) cs))).
Proof.
  change (label_from idx (Tag nm a cs))
    with (let '(i, cs') := label_list (S idx) cs in
          (i, Tag nm (<[ id_attr := id_value idx ]> a) cs')).
  by destruct (label_list (S idx) cs).
Qed.

Lemma label_list_cons idx c l :
  label_list idx (c :: l)
  = (fst (label_list (fst (label_from idx c)) l),
     snd (label_from idx c) :: snd (label_list (fst (label_from idx c)) l)).
Proof.
  cbn [label_list]. destruct (label_from idx c) as [i1 c'].
  cbn [fst snd]. by destruct (label_list i1 l).
Qed.

(** The sequence values expected from counter [idx] on. *)
Lemma numbered_app (idx : nat) (l1 l2 : list string) :
  imap (fun i s => Some (seq_value (idx + i), s)) (l1 ++ l2)
  = imap (fun i s => Some (seq_value (idx + i), s)) l1
    ++ imap (fun i s => Some (seq_value (idx + length l1 + i), s)) l2.
Proof.
  rewrite imap_app. f_equal. apply imap_ext. intros i x _. simpl.
  do 2 f_equal. f_equal. lia.
Qed.

Lemma shapes_app l1 l2 : shapes (l1 ++ l2) = shapes l1 ++ shapes l2.
Proof. unfold shapes. by rewrite List.filter_app, map_app. Qed.

Lemma shapes_cons x l :
  shapes (x :: l) = (if is_wrapper x then [wrapper_shape x] else []) ++ shapes l.
Proof. unfold shapes. cbn [List.filter]. by destruct (is_wrapper x). Qed.

Lemma tags_of_wrap idx s : tags_of (wrap idx s) = [wrap idx s].
Proof. reflexivity. Qed.

Lemma is_wrapper_wrap idx s : is_wrapper (wrap idx s) = true.
Proof. reflexivity. Qed.

Lemma wrapper_shape_wrap idx s :
  wrapper_shape (wrap idx s) = Some (seq_value idx, s).
Proof. unfold wrap, wrapper_shape. by rewrite lookup_singleton_eq. Qed.

Lemma is_wrapper_children nm a cs cs' :
  is_wrapper (Tag nm a cs) = is_wrapper (Tag nm a cs').
Proof. reflexivity. Qed.

(** What one pass of [_wrap_text_nodes] does below a node, from counter
    [idx] on. *)
Lemma wrap_from_spec n :
  forall idx,
    fst (wrap_from idx n)
    = (idx + length (List.filter nonempty_text (strings_of n)))%nat
    /\ strings_of (snd (wrap_from idx n)) = strings_of n
    /\ bare_texts (snd (wrap_from idx n)) = []
    /\ (match snd (wrap_from idx n) with
        | NavigableString s => nonempty_text s = false
        | Tag _ _ _ => True
        end)
    /\ (forallb (fun e => negb (is_wrapper e)) (tags_of n) = true ->
        shapes (tags_of (snd (wrap_from idx n)))
        = imap (fun i s => Some (seq_value (idx + i), s))
               (List.filter nonempty_text (strings_of n))).
Proof.
  induction n as [s|nm a cs IH] using node_ind; intros idx.
  - cbn [wrap_from strings_of List.filter].
    destruct (nonempty_text s) eqn:Hs; cbn [fst snd length].
    + repeat split; [lia| |].
      * cbn. unfold aux_tag. by rewrite Hs.
      * intros _. rewrite tags_of_wrap. unfold shapes. cbn [List.filter].
        rewrite is_wrapper_wrap. cbn [map imap]. rewrite wrapper_shape_wrap.
        by rewrite Nat.add_0_r.
    + repeat split; [lia|done..].
  - rewrite wrap_from_tag. cbn [fst snd strings_of].
    assert (forall idx,
      fst (wrap_list idx cs)
      = (idx + length (List.filter nonempty_text (flat_map strings_of cs)))%nat
      /\ flat_map strings_of (snd (wrap_list idx cs)) = flat_map strings_of cs
      /\ (forall nm', flat_map (fun c =>
             match c with
             | NavigableString s =>
                 if nonempty_text s && negb (String.eqb nm' aux_tag) then [s] else []
             | Tag _ _ _ => bare_texts c
             end) (snd (wrap_list idx cs)) = [])
      /\ (forallb (fun e => negb (is_wrapper e)) (flat_map tags_of cs) = true ->
          shapes (flat_map tags_of (snd (wrap_list idx cs)))
          = imap (fun i s => Some (seq_value (idx + i), s))
                 (List.filter nonempty_text (flat_map strings_of cs)))) as Hl.
    { clear idx. induction cs as [|c cs IHcs]; intros idx.
      - cbn. repeat split; try done; lia.
      - apply Forall_cons in IH as [IHc IH]. specialize (IHcs IH).
        rewrite wrap_list_cons. cbn [fst snd flat_map].
        destruct (IHc idx) as (H1 & H2 & H3 & H4 & H5).
        destruct (IHcs (fst (wrap_from idx c))) as (L1 & L2 & L3 & L5).
        rewrite List.filter_app, length_app.
        repeat split.
        + rewrite L1, H1. lia.
        + by rewrite H2, L2.
        + intros nm'. rewrite L3, app_nil_r.
          destruct (snd (wrap_from idx c)) as [s|nm1 a1 cs1]; [|done].
          by rewrite H4.
        + rewrite forallb_app. intros [F1 F2]%andb_true_iff.
          rewrite shapes_app, numbered_app, (H5 F1), (L5 F2), H1. done. }
    destruct (Hl idx) as (L1 & L2 & L3 & L5).
    repeat split; [done..| |].
    + cbn [bare_texts]. apply L3.
    + rewrite !tags_of_tag. cbn [forallb]. intros [F0 F]%andb_true_iff.
      unfold shapes at 1. cbn [List.filter].
      rewrite (is_wrapper_children nm a _ cs).
      apply negb_true_iff in F0. rewrite F0. by apply L5.
Qed.

Lemma wrap_from_length n :
  forall idx,
    length (tags_of (snd (wrap_from idx n)))
    = (length (tags_of n) + length (List.filter nonempty_text (strings_of n)))%nat.
Proof.
  induction n as [s|nm a cs IH] using node_ind; intros idx.
  - cbn [wrap_from strings_of List.filter]. by destruct (nonempty_text s).
  - rewrite wrap_from_tag. cbn [fst snd strings_of]. rewrite !tags_of_tag.
    cbn [length Nat.add]. f_equal. revert idx.
    induction cs as [|c cs IHcs]; intros idx; [done|].
    apply Forall_cons in IH as [IHc IH]. rewrite wrap_list_cons.
    cbn [fst snd flat_map].
    rewrite List.filter_app, !length_app, IHc, (IHcs IH). lia.
Qed.

Local Abbreviation bare_child nm :=
  (fun c => match c with
            | NavigableString s =>
                if nonempty_text s && negb (String.eqb nm aux_tag) then [s] else []
            | Tag _ _ _ => bare_texts c
            end).

Lemma wrapper_shape_label idx nm a cs :
  wrapper_shape (snd (label_from idx (Tag nm a cs))) = wrapper_shape (Tag nm a cs).
Proof.
  rewrite label_from_tag. cbn [snd].
  destruct cs as [|c1 cs]; [done|].
  rewrite label_list_cons. cbn [snd].
  destruct c1 as [s|nm1 a1 cs1].
  - cbn [label_from fst snd]. destruct cs as [|c2 cs].
    + cbn [label_list snd wrapper_shape]. by rewrite lookup_insert_ne.
    + by rewrite label_list_cons.
  - by rewrite label_from_tag.
Qed.

(** What [_label_elements] does below a node, from counter [idx] on. *)
Lemma label_from_spec n :
  forall idx,
    fst (label_from idx n) = (idx + length (tags_of n))%nat
    /\ map (fun e => get e id_attr) (tags_of (snd (label_from idx n)))
       = map (fun i => Some (id_value i)) (seq idx (length (tags_of n)))
    /\ strings_of (snd (label_from idx n)) = strings_of n
    /\ (forall nm', bare_child nm' (snd (label_from idx n)) = bare_child nm' n)
    /\ shapes (tags_of (snd (label_from idx n))) = shapes (tags_of n).
Proof.
  induction n as [s|nm a cs IH] using node_ind; intros idx.
  - cbn. repeat split; try done; lia.
  - assert (forall idx,
      fst (label_list idx cs) = (idx + length (flat_map tags_of cs))%nat
      /\ map (fun e => get e id_attr) (flat_map tags_of (snd (label_list idx cs)))
         = map (fun i => Some (id_value i)) (seq idx (length (flat_map tags_of cs)))
      /\ flat_map strings_of (snd (label_list idx cs)) = flat_map strings_of cs
      /\ (forall nm', flat_map (bare_child nm') (snd (label_list idx cs))
                      = flat_map (bare_child nm') cs)
      /\ shapes (flat_map tags_of (snd (label_list idx cs)))
         = shapes (flat_map tags_of cs)) as Hl.
    { clear idx. induction cs as [|c cs IHcs]; intros idx.
      - cbn. repeat split; try done; lia.
      - apply Forall_cons in IH as [IHc IH]. specialize (IHcs IH).
        rewrite label_list_cons. cbn [fst snd flat_map].
        destruct (IHc idx) as (H1 & H2 & H3 & H4 & H5).
        destruct (IHcs (fst (label_from idx c))) as (L1 & L2 & L3 & L4 & L5).
        rewrite length_app, seq_app, !map_app, !shapes_app.
        repeat split.
        + rewrite L1, H1. lia.
        + by rewrite H2, L2, H1.
        + by rewrite H3, L3.
        + intros nm'. by rewrite H4, L4.
        + by rewrite H5, L5. }
    pose proof (wrapper_shape_label idx nm a cs) as Hshape.
    rewrite label_from_tag in Hshape |- *. cbn [fst snd] in Hshape |- *.
    destruct (Hl (S idx)) as (L1 & L2 & L3 & L4 & L5).
    rewrite !tags_of_tag. cbn [length seq map strings_of].
    repeat split.
    + rewrite L1. lia.
    + rewrite L2. cbn [get]. by rewrite lookup_insert_eq.
    + done.
    + intros nm'. cbn [bare_texts]. apply L4.
    + rewrite !shapes_cons, (is_wrapper_children nm _ _ cs), Hshape, L5. done.
Qed.

Lemma label_list_spec cs :
  forall idx,
    map (fun e => get e id_attr) (flat_map tags_of (snd (label_list idx cs)))
    = map (fun i => Some (id_value i)) (seq idx (length (flat_map tags_of cs)))
    /\ flat_map strings_of (snd (label_list idx cs)) = flat_map strings_of cs
    /\ (forall nm', flat_map (bare_child nm') (snd (label_list idx cs))
                    = flat_map (bare_child nm') cs)
    /\ shapes (flat_map tags_of (snd (label_list idx cs)))
       = shapes (flat_map tags_of cs)
    /\ length (flat_map tags_of (snd (label_list idx cs)))
       = length (flat_map tags_of cs).
Proof.
  induction cs as [|c cs IH]; intros idx; [done|].
  rewrite label_list_cons. cbn [fst snd flat_map].
  destruct (label_from_spec c idx) as (H1 & H2 & H3 & H4 & H5).
  destruct (IH (fst (label_from idx c))) as (L2 & L3 & L4 & L5 & L6).
  rewrite !length_app, seq_app, !map_app, !shapes_app.
  repeat split.
  - by rewrite H2, L2, H1.
  - by rewrite H3, L3.
  - intros nm'. by rewrite H4, L4.
  - by rewrite H5, L5.
  - rewrite L6. f_equal.
    rewrite <- (length_map (fun e => get e id_attr)), H2.
    by rewrite length_map, length_seq.
Qed.

(** Distinct positions have distinct identifiers. *)
Lemma id_value_inj : forall i j, id_value i = id_value j -> i = j.
Proof.
  intros i j H. unfold id_value in H.
  apply (inj (String.append "q7y5n3j6h_")) in H. by apply (inj pretty) in H.
Qed.

(** C8.  After [_wrap_text_nodes] and then [_label_elements] run once on
    a fresh snapshot: the wrappers of the addressed document, in document
    order, hold one by one the snapshot's non-empty text nodes, each
    wrapper holding exactly that one string and carrying the sequence
    number of its position, counted from 1; no non-empty text node is
    left outside a wrapper, and no string is lost or duplicated; the
    elements are the snapshot's elements and the wrappers; every element
    carries the identifier of its position in document order, and all
    identifiers are distinct. *)
Theorem addressing_assigns_unique_ids (nm : string) (a : gmap string string)
    (cs : list node) :
  let soup := Tag nm a cs in
  let addressed := _label_elements (_wrap_text_nodes soup) in
  let texts := List.filter nonempty_text (strings_of soup) in
  fresh soup = true ->
  shapes (find_all addressed) = imap (fun i s => Some (seq_value (S i), s)) texts
  /\ bare_texts addressed = []
  /\ strings_of addressed = strings_of soup
  /\ length (find_all addressed) = (length (find_all soup) + length texts)%nat
  /\ map (fun e => get e id_attr) (find_all addressed)
     = map (fun i => Some (id_value i)) (seq 0 (length (find_all addressed)))
  /\ NoDup (map (fun e => get e id_attr) (find_all addressed)).
Proof.
  intros soup addressed texts Hfresh.
  destruct (wrap_from_spec soup 1) as (_ & W2 & W3 & _ & W5).
  pose proof (wrap_from_length soup 1) as W6.
  unfold addressed, texts, _wrap_text_nodes, soup in *. clear soup addressed texts.
  rewrite wrap_from_tag in *. cbn [snd] in *.
  set (cs1 := snd (wrap_list 1 cs)) in *.
  cbn [_label_elements]. unfold find_all. cbn [contents].
  destruct (label_list_spec cs1 0) as (L2 & L3 & L4 & L5 & L6).
  specialize (W5 Hfresh). rewrite !tags_of_tag in W5, W6.
  rewrite shapes_cons in W5.
  assert (is_wrapper (Tag nm a cs1) = false) as Hroot.
  { unfold fresh in Hfresh. rewrite tags_of_tag in Hfresh. cbn [forallb] in Hfresh.
    apply andb_true_iff in Hfresh as [H _]. by apply negb_true_iff in H. }
  rewrite Hroot in W5. cbn [app] in W5.
  cbn [length] in W6. injection W6 as W6.
  cbn [bare_texts strings_of] in *.
  rewrite L6. repeat split.
  - by rewrite L5, W5.
  - by rewrite L4.
  - by rewrite L3.
  - done.
  - done.
  - rewrite L2. apply (NoDup_fmap_2 (fun i => Some (id_value i))), NoDup_seq.
Qed.

Lemma addressing_assigns_unique_ids_witness :
  let soup := Examples.raw_page in
  let addressed := _label_elements (_wrap_text_nodes soup) in
  let texts := List.filter nonempty_text (strings_of soup) in
  fresh soup = true
  /\ shapes (find_all addressed) = imap (fun i s => Some (seq_value (S i), s)) texts
  /\ bare_texts addressed = []
  /\ strings_of addressed = strings_of soup
  /\ length (find_all addressed) = (length (find_all soup) + length texts)%nat
  /\ map (fun e => get e id_attr) (find_all addressed)
     = map (fun i => Some (id_value i)) (seq 0 (length (find_all addressed)))
  /\ NoDup (map (fun e => get e id_attr) (find_all addressed)).
Proof.
  cbv zeta. split; [vm_compute; reflexivity|].
  apply (addressing_assigns_unique_ids "[document]" ∅ (contents Examples.raw_page)).
  vm_compute. reflexivity.
Defined.

End AddressingFacts.

(** ** Title selection *)

Module TitleFacts.
Import Dom DomFacts LocateFacts PyFacts ArticleExtractor Exc.

Lemma title_is_valid_return c b :
  title_is_valid c = Return b -> b = title_ok c.
Proof.
  unfold title_is_valid, title_ok. destruct (json_truthy _); [|by intros [= <-]].
  destruct (json_len _); [|done]. by intros [= <-].
Qed.

Lemma valid_titles_return l r :
  valid_titles l = Return r -> r = List.filter title_ok l.
Proof.
  revert r. induction l as [|c l IH]; intros r; [by intros [= <-]|].
  cbn [valid_titles List.filter]. destruct (title_is_valid c) as [b|e] eqn:Hb; [|done].
  apply title_is_valid_return in Hb as ->. cbn [bind].
  destruct (valid_titles l) as [rest|e]; [|done]. cbn [bind]. intros [= <-].
  by rewrite (IH rest eq_refl).
Qed.

Lemma h1_candidate_located l c :
  In c (h1_candidate l) ->
  In (tc_element c) l /\ tc_ali_id c = get (loc_node (tc_element c)) id_attr.
Proof.
  unfold h1_candidate. destruct (find_in l _) as [h1|] eqn:Hf; [|done].
  intros [<-|[]]. by apply find_in_some in Hf as [Hin _].
Qed.

(** Every candidate is an element of the document and records that
    element's identifier. *)
Lemma title_candidates_located json_loads soup c :
  In c (title_candidates json_loads soup) ->
  In (tc_element c) (located_all soup)
  /\ tc_ali_id c = get (loc_node (tc_element c)) id_attr.
Proof.
  assert (In c (og_title_candidate soup ++ schema_title_candidate json_loads soup
                ++ article_title_candidate soup) ->
          In (tc_element c) (located_all soup)
          /\ tc_ali_id c = get (loc_node (tc_element c)) id_attr) as Hmain.
  { rewrite !in_app_iff. intros [H|[H|H]].
    - unfold og_title_candidate in H.
      destruct (find_in _ _) as [e|] eqn:Hf; [|done]. destruct H as [<-|[]].
      by apply find_in_some in Hf as [Hin _].
    - unfold schema_title_candidate in H.
      destruct (find_schema soup) as [e|] eqn:Hf; [|done].
      destruct (schema_dict _ e); [|done]. destruct (assoc _ _); [|done].
      destruct H as [<-|[]]. by apply find_in_some in Hf as [Hin _].
    - unfold article_title_candidate in H.
      destruct (find_in _ _) as [article|] eqn:Hf; [|done].
      apply find_in_some in Hf as [Hin _].
      apply h1_candidate_located in H as [H1 H2]. split; [|done].
      by eapply located_below_all. }
  unfold title_candidates.
  destruct (og_title_candidate soup ++ _) as [|c0 l]; [|exact Hmain].
  apply h1_candidate_located.
Qed.

Lemma attr_eq_opt_decide key (o : option string) (n : node) :
  attr_eq_opt key o n = bool_decide (get n key = o).
Proof.
  unfold attr_eq_opt, attr_is, has_attr. destruct o as [v|], (get n key) as [v'|]; cbn.
  - destruct (String.eqb_spec v' v) as [->|Hne].
    + by rewrite bool_decide_eq_true_2.
    + rewrite bool_decide_eq_false_2; [done|]. by intros [= ->].
  - done.
  - done.
  - done.
Qed.

(** In a document whose identifiers are distinct, looking an element up
    by its identifier finds that element. *)
Lemma find_by_id soup e :
  NoDup (map (fun x => get x id_attr) (find_all soup)) ->
  In e (located_all soup) ->
  find_in (located_all soup) (attr_eq_opt id_attr (get (loc_node e) id_attr)) = Some e.
Proof.
  intros Hnd Hin. unfold find_in.
  rewrite <- (head_filter_unique (fun x => get (loc_node x) id_attr) (located_all soup) e).
  - f_equal. apply filter_ext. intros x. apply attr_eq_opt_decide.
  - by rewrite <- located_all_nodes, map_map in Hnd.
  - done.
Qed.

Lemma valid_titles_textual l :
  Forall (fun c => is_textual (tc_text c) = true) l ->
  valid_titles l = Return (List.filter title_ok l).
Proof.
  induction 1 as [|c l Hc _ IH]; [done|].
  cbn [valid_titles List.filter]. rewrite IH. unfold title_is_valid, title_ok.
  destruct (tc_text c) as [|b|z|s|items|items]; try done; cbn [json_truthy json_len].
  - by destruct (Py.nonempty s), (Py.len s <? 200)%nat.
  - by destruct items, (length _ <? 200)%nat.
  - by destruct items, (length _ <? 200)%nat.
Qed.

(** In a document whose identifiers are distinct and whose candidate
    texts are texts (no number, no boolean): with the valid candidates
    being the title candidates (Open Graph meta, JSON-LD headline, [h1]
    inside the [article], else the page's first [h1]) whose text is
    non-empty and shorter than 200 characters, if there is none nothing is
    labelled; otherwise exactly one element receives the title label, the
    element of a valid candidate whose text is at least as long as that of
    every valid candidate.  On the page with an Open Graph title of 50
    characters and an [h1] of 80 characters inside the [article], the
    [h1], and nothing else, is labelled as title. *)
Theorem mark_title_labels_longest (json_loads : string -> option json) (soup : node) :
  let valid := List.filter title_ok (title_candidates json_loads soup) in
  NoDup (map (fun x => get x id_attr) (find_all soup)) ->
  Forall (fun c => is_textual (tc_text c) = true) (title_candidates json_loads soup) ->
  ((valid = [] -> _mark_title json_loads soup = Return soup)
   /\ (valid <> [] ->
       exists best,
         In best valid
         /\ (forall c, In c valid -> (title_len c <= title_len best)%nat)
         /\ _mark_title json_loads soup
            = Return (set_attr (loc_path (tc_element best)) title_attr title_value soup)))
  /\ (let addressed := _label_elements (_wrap_text_nodes Examples.title_page) in
      Py.len Examples.og_title_text = 50%nat
      /\ Py.len Examples.h1_title_text = 80%nat
      /\ match _mark_title json_loads addressed with
         | Return labelled => Some (labelled_with title_attr labelled)
         | Raise _ => None
         end = Some [(Some "h1", Examples.h1_title_text)]).
Proof.
  intros valid Hnd Htext. split.
  - pose proof (valid_titles_textual _ Htext) as Hvalid. fold valid in Hvalid.
    unfold _mark_title, best_title. rewrite Hvalid. cbn [bind]. split.
    + by intros ->.
    + intros Hne. destruct (py_max title_len valid) as [best|] eqn:Hmax;
        [|by destruct valid].
      apply py_max_greatest in Hmax as [Hin Hle].
      exists best. repeat split; [done..|].
      assert (In best (title_candidates json_loads soup)) as Hcand.
      { unfold valid in Hin. by apply filter_In in Hin as [? _]. }
      apply title_candidates_located in Hcand as [Hloc ->].
      by rewrite (find_by_id soup _ Hnd Hloc).
  - cbv zeta. split; [reflexivity|]. split; [reflexivity|]. vm_compute. reflexivity.
Qed.

Lemma mark_title_labels_longest_witness :
  NoDup (map (fun x => get x id_attr) (find_all Examples.title_page_addressed))
  /\ Forall (fun c => is_textual (tc_text c) = true)
       (title_candidates Examples.sample_json_loads Examples.title_page_addressed)
  /\ List.filter title_ok
       (title_candidates Examples.sample_json_loads Examples.title_page_addressed) <> []
  /\ exists best,
       In best (List.filter title_ok
                  (title_candidates Examples.sample_json_loads
                     Examples.title_page_addressed))
       /\ (forall c, In c (List.filter title_ok
                             (title_candidates Examples.sample_json_loads
                                Examples.title_page_addressed)) ->
             (title_len c <= title_len best)%nat)
       /\ _mark_title Examples.sample_json_loads Examples.title_page_addressed
          = Return (set_attr (loc_path (tc_element best)) title_attr title_value
                      Examples.title_page_addressed).
Proof.
  assert (NoDup (map (fun x => get x id_attr) (find_all Examples.title_page_addressed)))
    as Hnd by (apply (bool_decide_unpack _); vm_compute; exact I).
  assert (Forall (fun c => is_textual (tc_text c) = true)
            (title_candidates Examples.sample_json_loads Examples.title_page_addressed))
    as Htext by (apply (bool_decide_unpack _); vm_compute; exact I).
  assert (List.filter title_ok
            (title_candidates Examples.sample_json_loads Examples.title_page_addressed)
          = Examples.title_page_valid) as Hvalid by (vm_compute; reflexivity).
  assert (Examples.title_page_valid <> []) as Hne by discriminate.
  rewrite <- Hvalid in Hne.
  split; [exact Hnd|]. split; [exact Htext|]. split; [exact Hne|].
  exact (proj2 (proj1
    (mark_title_labels_longest Examples.sample_json_loads
       Examples.title_page_addressed Hnd Htext)) Hne).
Defined.

(** C7: [_mark_title] misses the candidate whose text is not a string.
    The validity test [candidate['text'] and len(candidate['text']) < 200]
    is made outside the [try] that guards the JSON block, and [len] raises
    on a number.  On the page with an Open Graph title of 50 characters, an
    [h1] of 80 characters inside the [article] and a JSON-LD block whose
    headline is the number 2024, the candidates are the three, the two
    with a text that is non-empty and shorter than 200 characters are the
    Open Graph title and the [h1], and the [h1] has the longest; yet
    [_mark_title] raises [TypeError], no element is labelled, and
    [extract_article] returns the error dictionary.  With the JSON-LD
    block unreadable, the same page has its [h1] labelled. *)
Theorem mark_title_raises_on_numeric_headline :
  let addressed := _label_elements (_wrap_text_nodes Examples.numeric_headline_page) in
  map (fun c => (name (loc_node (tc_element c)), tc_text c))
      (title_candidates Examples.headline_json_loads addressed)
  = [ (Some "meta", JStr Examples.og_title_text);
      (Some "script", JNum 2024);
      (Some "h1", JStr Examples.h1_title_text) ]
  /\ Py.len Examples.og_title_text = 50%nat
  /\ Py.len Examples.h1_title_text = 80%nat
  /\ _mark_title Examples.headline_json_loads addressed
     = Raise (Exn "TypeError" "object of type 'int' has no len()")
  /\ extract_article Examples.headline_json_loads Examples.sample_json_dumps
       Examples.sample_date Examples.sample_parse Examples.sample_in_future
       Examples.sample_date_str
       (fun _ => None) (fun _ => WaitTimeout) (fun url => Return url)
       (fun _ => Return Examples.numeric_headline_page) (fun _ => None)
       "https://news.example.com/a"
     = Return (ErrorDict (<[ "error" := "object of type 'int' has no len()" ]>
                            {[ "url" := "https://news.example.com/a" ]}))
  /\ match _mark_title Examples.sample_json_loads addressed with
     | Return labelled => Some (labelled_with title_attr labelled)
     | Raise _ => None
     end = Some [(Some "h1", Examples.h1_title_text)].
Proof. cbv zeta. repeat split; vm_compute; reflexivity. Qed.

End TitleFacts.

(** ** Date selection *)

Module DateFacts.
Import Dom DomFacts LocateFacts PyFacts ArticleExtractor Exc.

Section Scan.
Variable json_loads : string -> option json.
Variable datetime : Type.
Variable dateutil_parse : string -> option datetime.
Variable in_future : datetime -> option bool.
Variable datetime_str : datetime -> string.

Local Abbreviation scan := (scan_text_node datetime dateutil_parse in_future).
Local Abbreviation before := (scan_before datetime).

Lemma scan_fields pi pattern ni text_node c :
  scan pi pattern ni text_node = Some c -> dc_pattern _ c = pi /\ dc_index _ c = ni.
Proof.
  unfold scan_text_node. destruct (Re.search _ _); [|done].
  destruct (dateutil_parse _); [|done].
  destruct (in_future _) as [[]|]; try done. by intros [= <-].
Qed.

(** One pattern's candidates come in the order of the text nodes. *)
Lemma pattern_scan_sorted pi pattern (nodes : list located) :
  forall k,
    StronglySorted before
      (omap (fun '(ni, text_node) => scan pi pattern ni text_node)
            (imap (fun i x => ((k + i)%nat, x)) nodes))
    /\ Forall (fun c => dc_pattern _ c = pi /\ (k <= dc_index _ c)%nat)
         (omap (fun '(ni, text_node) => scan pi pattern ni text_node)
               (imap (fun i x => ((k + i)%nat, x)) nodes)).
Proof.
  induction nodes as [|x nodes IH]; intros k.
  { split; constructor. }
  rewrite imap_cons. cbn [omap list_omap].
  assert (imap ((fun i (x : located) => ((k + i)%nat, x)) ∘ S) nodes
          = imap (fun i x => ((S k + i)%nat, x)) nodes) as ->.
  { apply imap_ext. intros i y _. cbn. f_equal. lia. }
  destruct (IH (S k)) as [Hs Hf].
  destruct (scan pi pattern (k + 0) x) as [c|] eqn:Hc.
  - apply scan_fields in Hc as [Hp Hi]. split.
    + apply StronglySorted_cons. split; [|done].
      eapply Forall_impl; [exact Hf|]. intros y [Hyp Hyi].
      right. split; [congruence|lia].
    + constructor; [split; [done|lia]|].
      eapply Forall_impl; [exact Hf|]. intros y [Hyp Hyi]. split; [done|lia].
  - split; [done|]. eapply Forall_impl; [exact Hf|]. intros y [Hyp Hyi]. split; [done|lia].
Qed.

(** The candidates come pattern by pattern. *)
Lemma candidates_sorted (nodes : list located) (patterns : list Re.re) :
  forall k,
    StronglySorted before
      (flat_map (fun '(pi, pattern) =>
                   omap (fun '(ni, text_node) => scan pi pattern ni text_node)
                        (enumerate nodes))
                (imap (fun i p => ((k + i)%nat, p)) patterns))
    /\ Forall (fun c => (k <= dc_pattern _ c)%nat)
         (flat_map (fun '(pi, pattern) =>
                      omap (fun '(ni, text_node) => scan pi pattern ni text_node)
                           (enumerate nodes))
                   (imap (fun i p => ((k + i)%nat, p)) patterns)).
Proof.
  induction patterns as [|pattern patterns IH]; intros k.
  { split; constructor. }
  rewrite imap_cons. cbn [flat_map].
  assert (imap ((fun i (p : Re.re) => ((k + i)%nat, p)) ∘ S) patterns
          = imap (fun i p => ((S k + i)%nat, p)) patterns) as ->.
  { apply imap_ext. intros i y _. cbn. f_equal. lia. }
  destruct (IH (S k)) as [Hs Hf].
  destruct (pattern_scan_sorted (k + 0) pattern nodes 0) as [Hs0 Hf0].
  assert (imap (fun i (x : located) => ((0 + i)%nat, x)) nodes = enumerate nodes) as E
    by done.
  rewrite E in Hs0, Hf0. split.
  - apply StronglySorted_app. split; [|done].
    intros x y Hx Hy. rewrite Forall_forall in Hf0, Hf.
    destruct (Hf0 x Hx) as [Hxp _]. specialize (Hf y Hy). cbn beta in Hf. left. lia.
  - apply Forall_app. split.
    + eapply Forall_impl; [exact Hf0|]. intros y [Hyp _]. lia.
    + eapply Forall_impl; [exact Hf|]. intros y Hy. cbn beta in Hy. lia.
Qed.

Lemma candidate_dates_sorted soup :
  StronglySorted before (candidate_dates datetime dateutil_parse in_future soup).
Proof.
  unfold candidate_dates.
  exact (proj1 (candidates_sorted (text_nodes soup) date_patterns 0)).
Qed.

(** C4 (as amended).  When no metadata date parses, the text-node
    candidate that [_mark_date] labels has the highest score, and every
    candidate that ties with it comes at or after it in the order of the
    scan: found by a later pattern (ISO, then slash-delimited, then
    month-name), or by the same pattern in a text node at or after it in
    document order. *)
Theorem mark_date_first_in_scan_order (soup : node) (best : date_candidate datetime) :
  meta_date datetime dateutil_parse
    (List.filter (fun e => name_is "meta" (loc_node e)) (located_all soup)) = None ->
  schema_date json_loads datetime dateutil_parse soup = None ->
  best_date_candidate datetime dateutil_parse in_future soup = Some best ->
  In best (candidate_dates datetime dateutil_parse in_future soup)
  /\ (forall c, In c (candidate_dates datetime dateutil_parse in_future soup) ->
        (dc_score _ c <= dc_score _ best)%nat)
  /\ (forall c, In c (candidate_dates datetime dateutil_parse in_future soup) ->
        dc_score _ c = dc_score _ best -> before best c)
  /\ _mark_date json_loads datetime dateutil_parse in_future datetime_str soup
     = mark_date_at datetime datetime_str (loc_path (dc_element _ best))
         (dc_date _ best) soup.
Proof.
  intros Hmeta Hschema Hbest. unfold best_date_candidate in Hbest.
  pose proof (py_max_greatest _ _ _ Hbest) as [Hin Hle].
  pose proof (py_max_first _ _ _ Hbest) as (l1 & l2 & E & H1 & H2).
  pose proof (candidate_dates_sorted soup) as Hsorted. rewrite E in Hsorted.
  repeat split; [done|done| |].
  - intros c Hc Htie. rewrite E in Hc.
    apply in_app_iff in Hc as [Hc|[<-|Hc]].
    + apply H1 in Hc. lia.
    + right. split; [done|lia].
    + apply StronglySorted_app in Hsorted as (_ & _ & Hs).
      apply StronglySorted_cons in Hs as [Hs _].
      rewrite Forall_forall in Hs. apply Hs. by apply list_elem_of_In.
  - unfold _mark_date, date_choice, best_date_candidate.
    by rewrite Hmeta, Hschema, Hbest.
Qed.

End Scan.

Lemma mark_date_first_in_scan_order_witness :
  let soup := Examples.tie_page_addressed in
  let best := Examples.tie_page_best in
  let candidates :=
    candidate_dates Examples.sample_date Examples.sample_parse
      Examples.sample_in_future soup in
  meta_date Examples.sample_date Examples.sample_parse
    (List.filter (fun e => name_is "meta" (loc_node e)) (located_all soup)) = None
  /\ schema_date Examples.sample_json_loads Examples.sample_date Examples.sample_parse
       soup = None
  /\ best_date_candidate Examples.sample_date Examples.sample_parse
       Examples.sample_in_future soup = Some best
  /\ In best candidates
  /\ (forall c, In c candidates -> (dc_score _ c <= dc_score _ best)%nat)
  /\ (forall c, In c candidates -> dc_score _ c = dc_score _ best ->
        scan_before _ best c)
  /\ _mark_date Examples.sample_json_loads Examples.sample_date Examples.sample_parse
       Examples.sample_in_future Examples.sample_date_str soup
     = mark_date_at Examples.sample_date Examples.sample_date_str
         (loc_path (dc_element _ best)) (dc_date _ best) soup.
Proof.
  cbv zeta.
  split; [vm_compute; reflexivity|]. split; [vm_compute; reflexivity|].
  split; [vm_compute; reflexivity|].
  apply (mark_date_first_in_scan_order Examples.sample_json_loads);
    vm_compute; reflexivity.
Defined.

(** C4 as stated fails.  On the page whose first text node holds a
    month-name date and whose second holds an ISO date, no metadata date
    exists, both text nodes are candidates with score 0, and the label
    goes to the second text node, which the first pattern finds, not to
    the one that appears first in the document. *)
Lemma mark_date_tie_not_document_order :
  let soup := Examples.tie_page_addressed in
  meta_date Examples.sample_date Examples.sample_parse
    (List.filter (fun e => name_is "meta" (loc_node e)) (located_all soup)) = None
  /\ schema_date Examples.sample_json_loads Examples.sample_date Examples.sample_parse
       soup = None
  /\ map (fun e => get_text (loc_node e)) (text_nodes soup)
     = ["March 5, 2024"; "2024-03-01"]
  /\ map (fun c => (get_text (loc_node (dc_element _ c)), dc_score _ c, dc_index _ c))
         (candidate_dates Examples.sample_date Examples.sample_parse
            Examples.sample_in_future soup)
     = [("2024-03-01", 0, 1); ("March 5, 2024", 0, 0)]%nat
  /\ map get_text
         (List.filter (has_attr date_attr)
            (find_all (_mark_date Examples.sample_json_loads Examples.sample_date
                         Examples.sample_parse Examples.sample_in_future
                         Examples.sample_date_str soup)))
     = ["2024-03-01"].
Proof. cbv zeta. repeat split; vm_compute; reflexivity. Qed.

End DateFacts.

(** ** The content walk *)

Module ContentFacts.
Import Dom ArticleExtractor Exc.

Local Abbreviation writes_only l :=
  (forallb (fun ev => negb (is_boundary ev)) l = true).

Lemma emit_writes st evs :
  skip_remaining st = false -> writes_only evs ->
  stopped_at_boundary st -> stopped_at_boundary (emit evs st).
Proof.
  unfold stopped_at_boundary, emit. cbn [skip_remaining log].
  intros -> Hevs Hst. by rewrite forallb_app, Hst, Hevs.
Qed.

Lemma add_processed_stopped i st :
  stopped_at_boundary st -> stopped_at_boundary (add_processed i st).
Proof. done. Qed.

Lemma boundary_stops p st :
  skip_remaining st = false -> stopped_at_boundary st ->
  stopped_at_boundary (emit [Boundary p] (set_skip st)).
Proof.
  unfold stopped_at_boundary, emit, set_skip. cbn [skip_remaining log].
  intros -> Hst. eauto.
Qed.

Lemma mark_table_writes p table : writes_only (snd (_mark_table p table)).
Proof.
  unfold _mark_table. cbn [snd]. rewrite forallb_app.
  apply andb_true_iff. split; apply forallb_forall; intros ev Hev;
    apply in_map_iff in Hev as (c & <- & _); done.
Qed.

Lemma mark_table_step_stopped p table st :
  skip_remaining st = false -> stopped_at_boundary st ->
  stopped_at_boundary (snd (mark_table_step p table st)).
Proof.
  intros Hs Hst. unfold mark_table_step.
  pose proof (mark_table_writes p table) as Hw.
  destruct (_mark_table p table) as [has_content evs]. cbn [snd] in Hw.
  pose proof (emit_writes st evs Hs Hw Hst) as H1.
  destruct has_content; [|done].
  assert (stopped_at_boundary (emit [Write p content_attr table_value] (emit evs st))) as H2
    by (by apply emit_writes).
  by destruct (get table id_attr).
Qed.

Lemma walk_children_stopped recurse p children :
  Forall (fun c => forall q st, stopped_at_boundary st ->
                   stopped_at_boundary (snd (recurse q c st))) children ->
  forall i st, stopped_at_boundary st ->
    stopped_at_boundary (snd (walk_children recurse p i children st)).
Proof.
  induction 1 as [|child rest Hc _ IH]; intros i st Hst; [done|].
  cbn [walk_children]. destruct child as [s|cnm ca ccs]; [by apply IH|].
  destruct (String.eqb cnm "table").
  - destruct (skip_remaining st) eqn:Hs; cbn [negb]; [by apply IH|].
    pose proof (mark_table_step_stopped (p ++ [i]) (Tag cnm ca ccs) st Hs Hst) as H1.
    destruct (mark_table_step _ _ st) as [[u|e] st']; [by apply IH|done].
  - specialize (Hc (p ++ [i]) st Hst).
    destruct (recurse _ _ st) as [[u|e] st']; [by apply IH|done].
Qed.

Lemma process_element_stopped element :
  forall parent p st, stopped_at_boundary st ->
    stopped_at_boundary (snd (process_element_recursively parent p element st)).
Proof.
  induction element as [s|nm a cs IH] using node_ind; intros parent p st Hst; [done|].
  cbn [process_element_recursively].
  destruct (skip_remaining st) eqn:Hs; [done|].
  destruct (decide _); [done|].
  set (st1 := add_processed (a !! id_attr) st).
  assert (stopped_at_boundary st1) as Hst1 by done.
  assert (skip_remaining st1 = false) as Hs1 by done.
  assert (forall st', stopped_at_boundary st' ->
            stopped_at_boundary
              (snd (walk_children (process_element_recursively (Some (Tag nm a cs)))
                      p 0%nat cs st'))) as Hchildren.
  { intros st' Hst'. apply walk_children_stopped; [|done].
    eapply Forall_impl; [exact IH|]. intros c Hc q st2. apply Hc. }
  destruct (Py.nonempty _); [|by apply Hchildren].
  destruct (_is_boilerplate _ _ parent) as [[is_boilerplate is_section_header]|e]; [|done].
  destruct is_section_header; [by apply boundary_stops|].
  destruct is_boilerplate; cbn [negb]; [by apply Hchildren|].
  apply Hchildren. by apply emit_writes.
Qed.

Lemma scan_targets_stopped targets :
  forall st, stopped_at_boundary st ->
    stopped_at_boundary (snd (scan_targets targets st)).
Proof.
  induction targets as [|element rest IH]; intros st Hst; [done|].
  cbn [scan_targets]. destruct (decide _); [by apply IH|].
  destruct (name_is "table" (loc_node element) || _).
  - destruct (skip_remaining st) eqn:Hs.
    + rewrite andb_false_r. by apply IH.
    + destruct (name_is "table" (loc_node element)); cbn [andb negb]; [|by apply IH].
      pose proof (mark_table_step_stopped (loc_path element) (loc_node element) st Hs Hst).
      destruct (mark_table_step _ _ st) as [[u|e] st']; [by apply IH|done].
  - pose proof (process_element_stopped (loc_node element) (parent element)
                  (loc_path element) st Hst).
    destruct (process_element_recursively _ _ _ st) as [[u|e] st']; [by apply IH|done].
Qed.

Lemma content_walk_stopped soup : stopped_at_boundary (snd (content_walk soup)).
Proof.
  unfold content_walk. destruct (find_content soup); [|done].
  by apply scan_targets_stopped.
Qed.

Lemma writes_only_no_boundary (pre post : list event) p :
  writes_only (pre ++ Boundary p :: post) -> False.
Proof. rewrite forallb_app. cbn. by rewrite andb_false_r. Qed.

Lemma boundary_is_last (pre post pre' : list event) p p' :
  writes_only pre' ->
  pre ++ Boundary p :: post = pre' ++ [Boundary p'] -> post = [].
Proof.
  revert pre'. induction pre as [|ev pre IH]; intros pre' Hw E.
  - destruct pre' as [|ev' pre'].
    + by injection E.
    + injection E as <- E. done.
  - destruct pre' as [|ev' pre'].
    + injection E as _ E. by destruct pre.
    + injection E as _ E. cbn in Hw. apply andb_true_iff in Hw as [_ Hw]. eauto.
Qed.

(** C5.  In the walk of [_mark_content], whether it finishes or is cut
    short by an exception, the detection of a section boundary is the last
    event: no attribute is assigned to any element afterwards, so no
    element later in the walk (a later sibling, a descendant of one, a
    table, a table's header or data cell) receives a label.  The stop flag
    is set exactly when a boundary was detected. *)
Theorem section_boundary_halts_labeling (soup : node) :
  (forall pre post p,
     log (snd (content_walk soup)) = pre ++ Boundary p :: post -> post = [])
  /\ (skip_remaining (snd (content_walk soup)) = true
      <-> existsb is_boundary (log (snd (content_walk soup))) = true).
Proof.
  pose proof (content_walk_stopped soup) as H. unfold stopped_at_boundary in H.
  destruct (skip_remaining (snd (content_walk soup))).
  - destruct H as (pre' & p' & E & Hw). rewrite E. split.
    + intros pre post p E'. by eapply boundary_is_last.
    + split; [intros _|done]. rewrite existsb_app. cbn. by rewrite orb_true_r.
  - split.
    + intros pre post p E. rewrite E in H. by apply writes_only_no_boundary in H.
    + split; [done|]. intros Hex. apply existsb_exists in Hex as (ev & Hin & Hb).
      rewrite forallb_forall in H. specialize (H ev Hin). by rewrite Hb in H.
Qed.

End ContentFacts.

(** ** The boilerplate classifier and the per-article boundary *)

Module ExtractFacts.
Import Dom ArticleExtractor Exc.

(** What [_is_boilerplate] answers on a text that matches a lenient
    pattern but no strict one and no basic boilerplate pattern: the bold
    condition as the code evaluates it. *)
Lemma is_boilerplate_lenient_only text element parent :
  basic_match text = false -> strict_match text = false -> lenient_match text = true ->
  _is_boilerplate text element parent
  = (bold <- bold_condition element parent ;; Return (false, bold)).
Proof. intros Hb Hs Hl. unfold _is_boilerplate. by rewrite Hb, Hs, Hl. Qed.

(** C6.  The code at the failing inputs.  The sentence matches only a
    lenient pattern.  For the text wrapper inside a paragraph of class
    [bold-heading] the class test iterates over the wrapper's own, absent,
    class list and raises [TypeError]; for an element of class [intro]
    inside a parent of class [bold] no boundary is reported; for an
    element of class [bold] inside a parent of class [intro] a boundary is
    reported. *)
Theorem lenient_bold_class_test_reads_wrong_element :
  basic_match Examples.passing_mention = false
  /\ strict_match Examples.passing_mention = false
  /\ lenient_match Examples.passing_mention = true
  /\ _is_boilerplate Examples.passing_mention
       (fst Examples.wrapper_in_bold_class) (Some (snd Examples.wrapper_in_bold_class))
     = Raise (Exn "TypeError" "'NoneType' object is not iterable")
  /\ _is_boilerplate Examples.passing_mention
       (fst Examples.plain_in_bold_class) (Some (snd Examples.plain_in_bold_class))
     = Return (false, false)
  /\ _is_boilerplate Examples.passing_mention
       (fst Examples.bold_class_in_plain) (Some (snd Examples.bold_class_in_plain))
     = Return (false, true).
Proof. repeat split; vm_compute; reflexivity. Qed.

Section Boundary.
Variable json_loads : string -> option json.
Variable json_dumps : list string -> string.
Variable datetime : Type.
Variable dateutil_parse : string -> option datetime.
Variable in_future : datetime -> option bool.
Variable datetime_str : datetime -> string.
Variable driver_get : string -> option exn.
Variable challenge_wait : string -> wait_outcome.
Variable page_source : string -> outcome string.
Variable parse_html : string -> outcome node.
Variable store_original : node -> option exn.

(** C9.  For every URL and every behaviour of the renderer and of the
    libraries, [extract_article] returns: the labelled soup when the
    processing runs through, and otherwise a dictionary that holds the
    message of the exception under [error] and the URL under [url]; it
    raises nothing. *)
Theorem extract_article_never_raises (url : string) :
  let result :=
    extract_article json_loads json_dumps datetime dateutil_parse in_future
      datetime_str driver_get challenge_wait page_source parse_html store_original
      url in
  let processing :=
    extract_body json_loads json_dumps datetime dateutil_parse in_future
      datetime_str driver_get challenge_wait page_source parse_html store_original
      url in
  (forall e, result <> Raise e)
  /\ (forall soup, processing = Return soup -> result = Return (LabeledSoup soup))
  /\ (forall e, processing = Raise e ->
        exists d, result = Return (ErrorDict d)
                  /\ d !! "error" = Some (exn_msg e)
                  /\ d !! "url" = Some url
                  /\ dom d = {[ "error"; "url" ]}).
Proof.
  cbv zeta. unfold extract_article.
  destruct (extract_body _ _ _ _ _ _ _ _ _ _ _ url) as [soup|e0] eqn:Hbody; cbn.
  - repeat split; [done|by intros ? [= <-]|done].
  - repeat split; [done|done|]. intros e [= <-]. eexists. split; [done|].
    split; [by rewrite lookup_insert_eq|]. split.
    + rewrite lookup_insert_ne by done. by rewrite lookup_singleton_eq.
    + rewrite dom_insert_L, dom_singleton_L. done.
Qed.

End Boundary.

(** A fault in the middle of the processing: the page whose article holds
    a passing mention in a paragraph of class [bold-heading] makes
    [_is_boilerplate] raise, and [extract_article] returns the error
    dictionary. *)
Example extract_article_catches_type_error :
  extract_article Examples.sample_json_loads Examples.sample_json_dumps
    Examples.sample_date Examples.sample_parse Examples.sample_in_future
    Examples.sample_date_str
    (fun _ => None) (fun _ => WaitTimeout) (fun url => Return url)
    (fun _ => Return Examples.bold_class_page) (fun _ => None) "https://news.example.com/a"
  = Return (ErrorDict (<[ "error" := "'NoneType' object is not iterable" ]>
                         {[ "url" := "https://news.example.com/a" ]})).
Proof. vm_compute. reflexivity. Qed.

(** A fault at the renderer: the protection is not passed. *)
Example extract_article_catches_protection_failure :
  extract_article Examples.sample_json_loads Examples.sample_json_dumps
    Examples.sample_date Examples.sample_parse Examples.sample_in_future
    Examples.sample_date_str
    (fun _ => None) (fun _ => WaitFailed (Exn "WebDriverException" "disconnected"))
    (fun url => Return url)
    (fun _ => Return Examples.raw_page) (fun _ => None) "https://news.example.com/a"
  = Return (ErrorDict (<[ "error" := "Could not bypass protection" ]>
                         {[ "url" := "https://news.example.com/a" ]})).
Proof. vm_compute. reflexivity. Qed.

(** The processing runs through on the example article: the title is on
    the [h1], the date on the wrapper of the dated sentence, the content
    label on the wrappers before the section boundary and on none after
    it. *)
Example extract_article_labels_example_page :
  labels_of
    (extract_article Examples.sample_json_loads Examples.sample_json_dumps
       Examples.sample_date Examples.sample_parse Examples.sample_in_future
       Examples.sample_date_str
       (fun _ => None) (fun _ => WaitTimeout) (fun url => Return url)
       (fun _ => Return Examples.raw_page) (fun _ => None) "https://news.example.com/a")
  = Some ([(Some "h1", "Acme announces record results for the first quarter")],
          [(Some "ali-tx9v8k2m4p", "Posted March 5, 2024")],
          [(Some "ali-tx9v8k2m4p", "Posted March 5, 2024");
           (Some "ali-tx9v8k2m4p", "Acme today announced ");
           (Some "ali-tx9v8k2m4p", "record");
           (Some "ali-tx9v8k2m4p", " results.")]).
Proof. vm_compute. reflexivity. Qed.

End ExtractFacts.

(** ** The link-group classifier *)

Module FinderFacts.
Import Dom NewsGroupFinder Exc.

(** *** Groups hold no social-media link *)

Lemma append_to_groups ancestry anchor groups k g :
  In (k, g) (append_to ancestry anchor groups) ->
  (exists g0, In (k, g0) groups /\ (g = g0 \/ g = g0 ++ [anchor]))
  \/ g = [anchor].
Proof.
  induction groups as [|[k0 g0] rest IH]; cbn [append_to].
  - intros [[= _ <-]|[]]. by right.
  - destruct (String.eqb k0 ancestry).
    + intros [[= <- <-]|Hin].
      * left. exists g0. split; [by left|by right].
      * left. exists g. split; [by right|by left].
    + intros [[= <- <-]|Hin].
      * left. exists g0. split; [by left|by left].
      * destruct (IH Hin) as [(g1 & Hin1 & Hg)|Hg]; [|by right].
        left. exists g1. split; [by right|done].
Qed.

(** Every anchor of every group is one of the anchors that were grouped. *)
Lemma group_step_anchors (P : located -> Prop) (l : list located) :
  forall st,
    (forall k g x, In (k, g) (ancestry_groups st) -> In x g -> P x) ->
    (forall x, In x l -> P x) ->
    forall k g x,
      In (k, g) (ancestry_groups (foldl group_step st l)) -> In x g -> P x.
Proof.
  induction l as [|anchor l IH]; intros st Hst Hl; [exact Hst|].
  cbn [foldl]. apply IH; [|intros x Hx; apply Hl; by right].
  intros k g x. unfold group_step. destruct (decide _); cbn [ancestry_groups].
  - apply Hst.
  - intros Hin Hx. apply append_to_groups in Hin as [(g0 & Hin0 & [->| ->])| ->].
    + by eapply Hst.
    + apply in_app_iff in Hx as [Hx|[<-|[]]]; [by eapply Hst|]. apply Hl. by left.
    + destruct Hx as [<-|[]]. apply Hl. by left.
Qed.

Lemma grouped_anchors_ok soup group x :
  In group (grouped_anchors soup) -> In x group -> anchor_ok x = true.
Proof.
  unfold grouped_anchors. intros Hg Hx.
  apply in_map_iff in Hg as ([k g] & <- & Hin). cbn [snd] in Hx.
  eapply (group_step_anchors (fun x => anchor_ok x = true)); [| |exact Hin|exact Hx].
  - intros ? ? ? [].
  - intros y Hy. unfold anchors in Hy. by apply filter_In in Hy as [_ ?].
Qed.

Lemma anchor_ok_not_social x :
  anchor_ok x = true -> _is_social_media_url (href x) = 0%nat.
Proof.
  unfold anchor_ok. rewrite !andb_true_iff. intros (_ & H). by apply Nat.eqb_eq in H.
Qed.

Lemma sum_nat_zero (l : list nat) :
  Forall (fun n => n = 0%nat) l -> sum_nat l = 0%nat.
Proof. induction 1 as [|n l -> _ IH]; [done|]. by cbn. Qed.

Lemma group_row_fields url_sets i group :
  urls (group_row url_sets i group) = map href group
  /\ is_social_media_num (group_row url_sets i group)
     = sum_nat (map _is_social_media_url (map href group)).
Proof.
  unfold group_row. by destruct (_find_twin_and_intersections i url_sets).
Qed.

Lemma groups_data_rows soup g :
  In g (groups_data soup) ->
  exists url_sets i group,
    g = group_row url_sets i group /\ In group (grouped_anchors soup).
Proof.
  unfold groups_data. intros Hin. apply list_elem_of_In, list_elem_of_lookup in Hin as [i Hi].
  rewrite list_lookup_imap in Hi.
  destruct (grouped_anchors soup !! i) as [group|] eqn:Hl; [|done].
  injection Hi as <-. eexists _, i, group. split; [done|].
  apply list_elem_of_In. by eapply list_elem_of_lookup_2.
Qed.

Lemma drop_duplicates_from_subset seen rows g :
  In g (drop_duplicates_from seen rows) -> In g rows.
Proof.
  revert seen. induction rows as [|r rows IH]; intros seen; [done|].
  cbn [drop_duplicates_from]. destruct (existsb _ seen).
  - intros H. right. by eapply IH.
  - intros [<-|H]; [by left|]. right. by eapply IH.
Qed.

(** C10.  Every group that [find_news_group] assembles holds only URLs
    that are not social-media links, so its social-media count is 0; and
    on the frame of these groups the primary filter selects the same rows
    with or without the zero-social-media condition. *)
Theorem groups_have_no_social_media_urls (soup : node) :
  (forall g, In g (groups_data soup) ->
     Forall (fun url => _is_social_media_url url = 0%nat) (urls g)
     /\ is_social_media_num g = 0%nat)
  /\ List.filter (fun g => (num_typical_url g =? 0)%nat
                           && (4 <? url_count g)%nat
                           && (is_social_media_num g =? 0)%nat
                           && pct_is_one g)
                 (drop_duplicates (groups_data soup))
     = List.filter (fun g => (num_typical_url g =? 0)%nat
                             && (4 <? url_count g)%nat
                             && pct_is_one g)
                   (drop_duplicates (groups_data soup)).
Proof.
  assert (forall g, In g (groups_data soup) ->
            Forall (fun url => _is_social_media_url url = 0%nat) (urls g)
            /\ is_social_media_num g = 0%nat) as Hzero.
  { intros g (url_sets & i & group & -> & Hgroup)%groups_data_rows.
    destruct (group_row_fields url_sets i group) as [-> ->].
    assert (Forall (fun url => _is_social_media_url url = 0%nat) (map href group)) as H.
    { apply List.Forall_forall. intros url (x & <- & Hx)%in_map_iff.
      apply anchor_ok_not_social. by eapply grouped_anchors_ok. }
    split; [done|]. apply sum_nat_zero.
    apply List.Forall_forall. intros n (url & <- & Hurl)%in_map_iff.
    rewrite List.Forall_forall in H. by apply H. }
  split; [exact Hzero|].
  apply filter_ext_in. intros g Hg.
  apply drop_duplicates_from_subset, Hzero in Hg as [_ ->].
  cbn. by rewrite andb_true_r.
Qed.

(** *** The filter cascade *)

Lemma max_of_attained (key : group_info -> nat) (rows : list group_info) :
  rows <> [] -> exists g, In g rows /\ key g = max_of key rows.
Proof.
  induction rows as [|r rows IH]; [done|]. intros _. unfold max_of. cbn [map foldr].
  destruct rows as [|r' rows'].
  - exists r. split; [by left|]. cbn. lia.
  - destruct (IH ltac:(done)) as (g & Hg & Hmax). unfold max_of in Hmax.
    destruct (Nat.max_spec (key r) (foldr Nat.max 0%nat (map key (r' :: rows'))))
      as [[_ ->]|[_ ->]].
    + exists g. split; [by right|done].
    + exists r. split; [by left|done].
Qed.

(** Keeping the rows tied for the maximum never eliminates all rows. *)
Lemma narrow_to_max (key : group_info -> nat) (candidates : list group_info) :
  spec_narrow (fun cs g => (key g =? max_of key cs)%nat) candidates
  = if (1 <? length candidates)%nat
    then List.filter (fun g => (key g =? max_of key candidates)%nat) candidates
    else candidates.
Proof.
  unfold spec_narrow. destruct (1 <? length candidates)%nat eqn:Hlen; [|done].
  destruct (List.filter _ candidates) as [|x kept] eqn:Hfilter; [|done].
  exfalso. destruct (max_of_attained key candidates) as (g & Hg & Hmax).
  { intros ->. done. }
  assert (In g (List.filter (fun g => (key g =? max_of key candidates)%nat) candidates))
    as Hin by (apply filter_In; split; [done|by apply Nat.eqb_eq]).
  by rewrite Hfilter in Hin.
Qed.

Lemma narrow_to_verbs (candidates : list group_info) :
  spec_narrow (fun _ g => verb_above_20 g) candidates
  = if (1 <? length candidates)%nat then
      let high_verb_candidates := List.filter verb_above_20 candidates in
      if (0 <? length high_verb_candidates)%nat then high_verb_candidates
      else candidates
    else candidates.
Proof.
  unfold spec_narrow. destruct (1 <? length candidates)%nat; [|done]. cbv zeta.
  change (List.filter (fun g => verb_above_20 g) candidates)
    with (List.filter verb_above_20 candidates).
  by destruct (List.filter verb_above_20 candidates).
Qed.

(** The selections of [find_news_group], each as a filter that is applied
    only while more than one candidate remains and it keeps one. *)
Lemma news_candidates_narrow (df : list group_info) :
  news_candidates df
  = spec_narrow (fun cs g => (url_count g =? max_of url_count cs)%nat)
      (spec_narrow (fun cs g =>
                      (last_path_median_length g
                       =? max_of last_path_median_length cs)%nat)
         (spec_narrow (fun _ g => verb_above_20 g)
            (List.filter (fun g => (num_typical_url g =? 0)%nat
                                   && (4 <? url_count g)%nat
                                   && (is_social_media_num g =? 0)%nat
                                   && pct_is_one g) df))).
Proof.
  unfold news_candidates. cbv zeta. by rewrite !narrow_to_max, narrow_to_verbs.
Qed.

Lemma narrow_subset keep (cs : list group_info) g :
  In g (spec_narrow keep cs) -> In g cs.
Proof.
  unfold spec_narrow. destruct (1 <? length cs)%nat; [|done].
  destruct (List.filter (keep cs) cs) as [|x kept] eqn:E; [done|].
  rewrite <- E. by intros [? _]%filter_In.
Qed.

Lemma narrow_ext keep keep' (cs : list group_info) :
  (forall g, In g cs -> keep cs g = keep' cs g) ->
  spec_narrow keep cs = spec_narrow keep' cs.
Proof.
  intros H. unfold spec_narrow. by rewrite (filter_ext_in _ _ _ H).
Qed.

Lemma max_of_ext (key key' : group_info -> nat) (cs : list group_info) :
  (forall g, In g cs -> key g = key' g) -> max_of key cs = max_of key' cs.
Proof.
  intros H. unfold max_of. f_equal. apply map_ext_in. exact H.
Qed.

Lemma group_row_more url_sets i group :
  a (group_row url_sets i group) = group
  /\ url_count (group_row url_sets i group) = length group
  /\ num_typical_url (group_row url_sets i group)
     = length (List.filter (fun anchor => negb (_is_typical_url anchor =? 0)%nat) group)
  /\ multi_level_path_pct (group_row url_sets i group)
     = (if (0 <? length (List.filter multi_level_path (map href group)))%nat
        then Some (quotient (length (List.filter multi_level_path (map href group)))
                            (length (map href group)))
        else None).
Proof.
  unfold group_row. destruct (_find_twin_and_intersections i url_sets).
  cbn. by rewrite length_map.
Qed.

Lemma filter_length_all {A} (P : A -> bool) (l : list A) :
  length (List.filter P l) = length l -> Forall (fun x => P x = true) l.
Proof.
  induction l as [|x l IH]; [done|]. cbn [List.filter].
  pose proof (List.filter_length_le P l) as Hle.
  destruct (P x) eqn:Hx; cbn [length].
  - intros [= H]. apply Forall_cons. split; [done|by apply IH].
  - intros H. lia.
Qed.

Lemma filter_length_none {A} (P : A -> bool) (l : list A) :
  length (List.filter P l) = 0%nat -> Forall (fun x => P x = false) l.
Proof.
  induction l as [|x l IH]; [done|]. cbn [List.filter].
  destruct (P x) eqn:Hx; cbn [length]; [done|].
  intros H. apply Forall_cons. split; [done|by apply IH].
Qed.

Lemma quotient_is_one (c t : nat) :
  (0 < c)%nat -> (c <= t)%nat ->
  QArith_base.Qeq_bool (quotient c t) (QArith_base.inject_Z 1) = true -> c = t.
Proof.
  intros Hc Ht H. apply QArith_base.Qeq_bool_iff in H.
  unfold QArith_base.Qeq, quotient in H. cbn in H.
  rewrite Z.mul_1_r in H. destruct t as [|t]; [lia|].
  lia.
Qed.

Lemma forallb_filter_length {A} (P : A -> bool) (l : list A) :
  forallb P l = (length (List.filter P l) =? length l)%nat.
Proof.
  induction l as [|x l IH]; [done|]. cbn [forallb List.filter].
  pose proof (List.filter_length_le P l) as Hle.
  destruct (P x); cbn [length andb].
  - by rewrite IH.
  - symmetry. apply Nat.eqb_neq. lia.
Qed.

Lemma existsb_filter_length {A} (P : A -> bool) (l : list A) :
  existsb P l = (0 <? length (List.filter P l))%nat.
Proof.
  induction l as [|x l IH]; [done|]. cbn [existsb List.filter].
  by destruct (P x).
Qed.

Lemma sum_nat_is_zero {A} (f : A -> nat) (l : list A) :
  (sum_nat (map f l) =? 0)%nat
  = (length (List.filter (fun x => negb (f x =? 0)%nat) l) =? 0)%nat.
Proof.
  induction l as [|x l IH]; [done|]. cbn [map sum_nat foldr List.filter].
  fold (sum_nat (map f l)). destruct (f x) as [|n] eqn:Hx; cbn [Nat.eqb negb].
  - exact IH.
  - done.
Qed.

Lemma quotient_one_iff (c t : nat) :
  (0 < c)%nat -> (c <= t)%nat ->
  QArith_base.Qeq_bool (quotient c t) (QArith_base.inject_Z 1) = (c =? t)%nat.
Proof.
  intros Hc Ht. destruct (Nat.eqb_spec c t) as [->|Hne].
  - apply QArith_base.Qeq_bool_iff. unfold QArith_base.Qeq, quotient. cbn.
    destruct t as [|t]; lia.
  - destruct (QArith_base.Qeq_bool _ _) eqn:H; [|done].
    by apply quotient_is_one in H.
Qed.

(** More than 20 as a floating-point percentage, in whole numbers. *)
Lemma percentage_above_20 (k n : nat) :
  (0 < n)%nat ->
  negb (QArith_base.Qle_bool
          (QArith_base.Qmult (quotient k n) (QArith_base.inject_Z 100))
          (QArith_base.inject_Z 20))
  = (20 * n <? 100 * k)%nat.
Proof.
  intros Hn. unfold QArith_base.Qle_bool, quotient. cbn.
  destruct n as [|n]; [lia|].
  destruct (Z.leb_spec (Z.of_nat k * 100 * 1) (20 * Z.pos (Pos.of_nat (S n) * 1)));
    cbn [negb]; symmetry; [apply Nat.ltb_ge|apply Nat.ltb_lt]; lia.
Qed.

Lemma contains_none (c : ascii) (s : string) :
  Py.contains (String c EmptyString) s = false ->
  Forall (fun x => Ascii.eqb c x = false) (Py.chars s).
Proof.
  unfold Py.chars. induction s as [|x s IH]; [constructor|].
  cbn [Py.contains String.prefix String.list_ascii_of_string].
  destruct (ascii_dec c x) as [->|Hne].
  - by destruct s.
  - cbn [orb]. intros H. constructor; [by apply Ascii.eqb_neq|by apply IH].
Qed.

Lemma split_go_none (p : ascii -> bool) l :
  Forall (fun c => p c = false) l ->
  forall cur, length (Py.split_go p cur l) = 1%nat.
Proof.
  induction 1 as [|c l Hc _ IH]; intros cur; [done|].
  cbn [Py.split_go]. rewrite Hc. apply IH.
Qed.

(** The test of [_analyze_url_structure] is filter (d) as amended: its
    guard ['/' in path_part] changes nothing. *)
Lemma multi_level_path_amended (url : string) :
  multi_level_path url = amended_multi_level url.
Proof.
  unfold multi_level_path, amended_multi_level. cbv zeta.
  destruct (Py.startswith "/" url); [done|]. cbn [orb].
  set (path_part := from_option id "" (head (Py.split "#" _))).
  destruct (Py.contains "/" path_part) eqn:Hc; [done|].
  apply contains_none in Hc. unfold Py.split.
  pose proof (split_go_none (Ascii.eqb "/") (Py.chars path_part) Hc []) as Hlen.
  destruct (Py.split_go _ _ _) as [|x [|y l]]; try done.
  cbn [List.filter]. by destruct (Py.nonempty x).
Qed.

(** A row whose columns are the features of its group. *)
Local Abbreviation featured g :=
  (num_typical_url g = typical_anchors g
   /\ url_count g = length (urls g)
   /\ Nat.eqb (is_social_media_num g) 0 = Nat.eqb (social_urls g) 0
   /\ pct_is_one g = Nat.ltb 0 (length (urls g)) && forallb amended_multi_level (urls g)
   /\ verb_above_20 g = verb_share_above_20 g
   /\ last_path_median_length g = median_last_segment g
   /\ match multi_level_path_pct g with
      | Some _ => true
      | None => false
      end = existsb amended_multi_level (urls g)).

Lemma group_row_featured url_sets i group : featured (group_row url_sets i group).
Proof.
  unfold typical_anchors, social_urls, verb_share_above_20, verb_urls,
    median_last_segment, pct_is_one, verb_above_20.
  destruct (group_row_fields url_sets i group) as [Hurls Hsocial].
  destruct (group_row_more url_sets i group) as (Ha & Hcount & Htyp & Hpct).
  rewrite Hurls, Ha, Hcount, Htyp, Hpct, Hsocial.
  pose proof (List.filter_length_le multi_level_path (map href group)) as Hle.
  split; [done|]. split; [by rewrite length_map|]. split; [apply sum_nat_is_zero|].
  rewrite forallb_filter_length, existsb_filter_length.
  rewrite <- (List.filter_ext _ _ multi_level_path_amended (map href group)).
  split.
  { destruct (0 <? length (List.filter _ _))%nat eqn:Hpos.
    - apply Nat.ltb_lt in Hpos. rewrite quotient_one_iff by lia.
      destruct (0 <? length (map href group))%nat eqn:Hg; [done|].
      apply Nat.ltb_ge in Hg. lia.
    - apply Nat.ltb_ge in Hpos.
      destruct (0 <? length (map href group))%nat eqn:Hg; [|done].
      apply Nat.ltb_lt in Hg. cbn [andb]. symmetry. apply Nat.eqb_neq. lia. }
  split.
  { unfold group_row. destruct (_find_twin_and_intersections i url_sets).
    cbn [verb_percentage]. destruct group as [|x group]; [done|].
    cbn [map]. rewrite percentage_above_20 by (cbn; lia).
    by rewrite ?length_map. }
  split.
  { unfold group_row. by destruct (_find_twin_and_intersections i url_sets). }
  by destruct (0 <? _)%nat.
Qed.

Lemma groups_data_featured soup g : In g (groups_data soup) -> featured g.
Proof.
  intros (url_sets & i & group & -> & _)%groups_data_rows. apply group_row_featured.
Qed.

(** On rows whose columns are the features of their groups, the
    selections of [find_news_group] are the cascade of the amended
    claim. *)
Lemma news_candidates_cascade (df : list group_info) :
  (forall g, In g df -> featured g) ->
  news_candidates df = amended_cascade df.
Proof.
  intros Hdf. rewrite news_candidates_narrow. unfold amended_cascade, cascade.
  assert (List.filter (fun g => (num_typical_url g =? 0)%nat
                                && (4 <? url_count g)%nat
                                && (is_social_media_num g =? 0)%nat
                                && pct_is_one g) df
          = List.filter amended_primary df) as ->.
  { apply filter_ext_in. intros g Hg.
    destruct (Hdf g Hg) as (-> & -> & -> & -> & _). unfold amended_primary.
    destruct (4 <? length (urls g))%nat eqn:Hlen; [|by rewrite !andb_false_r].
    apply Nat.ltb_lt in Hlen.
    by replace (0 <? length (urls g))%nat with true
      by (symmetry; apply Nat.ltb_lt; lia). }
  set (c1 := List.filter amended_primary df).
  assert (forall g, In g c1 -> featured g) as H1.
  { intros g Hg. apply Hdf. unfold c1 in Hg. by apply filter_In in Hg as [? _]. }
  rewrite (narrow_ext (fun _ g => verb_above_20 g) (fun _ g => verb_share_above_20 g) c1);
    [|intros g Hg; by destruct (H1 g Hg) as (_ & _ & _ & _ & -> & _)].
  set (c2 := spec_narrow _ c1).
  assert (forall g, In g c2 -> featured g) as H2.
  { intros g Hg. apply H1. unfold c2 in Hg. by apply narrow_subset in Hg. }
  rewrite (narrow_ext
             (fun cs g => (last_path_median_length g
                           =? max_of last_path_median_length cs)%nat)
             (fun cs g => (median_last_segment g =? max_of median_last_segment cs)%nat)
             c2).
  2:{ intros g Hg. rewrite (max_of_ext last_path_median_length median_last_segment c2).
      - by destruct (H2 g Hg) as (_ & _ & _ & _ & _ & -> & _).
      - intros g' Hg'. by destruct (H2 g' Hg') as (_ & _ & _ & _ & _ & -> & _). }
  set (c3 := spec_narrow _ c2).
  assert (forall g, In g c3 -> featured g) as H3.
  { intros g Hg. apply H2. unfold c3 in Hg. by apply narrow_subset in Hg. }
  apply narrow_ext. intros g Hg.
  rewrite (max_of_ext url_count (fun g => length (urls g)) c3).
  - by destruct (H3 g Hg) as (_ & -> & _).
  - intros g' Hg'. by destruct (H3 g' Hg') as (_ & -> & _).
Qed.




End FinderFacts.

(** * Further properties *)

(** ** Updates at a position *)

Module PathFacts.
Import Dom DomFacts SoupCleanerFacts.

(** Updating twice at the same position with a function that is
    idempotent there. *)
Lemma alter_at_twice f p :
  forall n t t',
    p <> [] -> get_at p n = Some t -> f t = Some t' -> f t' = Some t' ->
    alter_at f p (alter_at f p n) = alter_at f p n.
Proof.
  induction p as [|i p IH]; intros n t t' Hne Hg Hf Hf'; [done|].
  destruct n as [s|nm a cs]; [done|].
  cbn [get_at contents] in Hg. destruct (cs !! i) as [c|] eqn:Hl; [|done].
  pose proof (lookup_lt_Some _ _ _ Hl) as Hlt.
  destruct (decide (p = [])) as [->|Hp].
  - cbn [get_at] in Hg. injection Hg as ->.
    rewrite (alter_at_single f i nm a cs t t' Hl Hf).
    rewrite (alter_at_single f i nm a _ t' t'); [|by rewrite list_lookup_insert_eq|done].
    by rewrite list_insert_insert_eq.
  - rewrite (alter_at_cons f i p nm a cs c Hl Hp).
    rewrite (alter_at_cons f i p nm a _ (alter_at f p c));
      [|by rewrite list_lookup_insert_eq|done].
    rewrite list_insert_insert_eq. by rewrite (IH c t t' Hp Hg Hf Hf').
Qed.


Section FindAlter.
Variable q : node -> bool.
Variable f : node -> option node.
Hypothesis q_attrs : forall nm a cs cs', q (Tag nm a cs) = q (Tag nm a cs').

Local Abbreviation go :=
  (fix go (i : nat) (l : list node) : option path :=
     match l with
     | [] => None
     | c :: l' =>
         if is_tag c && q c then Some [i]
         else match find_path q c with
              | Some p => Some (i :: p)
              | None => go (S i) l'
              end
     end).

Local Abbreviation stays c :=
  (forall p t t', find_path q c = Some p -> get_at p c = Some t -> f t = Some t' ->
                  is_tag t' = true -> q t' = true ->
                  find_path q (alter_at f p c) = Some p).

Lemma alter_at_keeps_head p nm a cs :
  p <> [] -> is_tag (alter_at f p (Tag nm a cs)) && q (alter_at f p (Tag nm a cs))
             = is_tag (Tag nm a cs) && q (Tag nm a cs).
Proof.
  intros Hp. destruct (alter_at_root f p nm a cs) as [cs' ->]. cbn [is_tag].
  by rewrite (q_attrs nm a cs' cs).
Qed.

Lemma go_head_ge cs :
  forall i p, go i cs = Some p -> exists j p', p = (i + j)%nat :: p'.
Proof.
  induction cs as [|c cs IH]; intros i p H; [done|].
  destruct (is_tag c && q c).
  { injection H as <-. exists 0%nat, []. by rewrite Nat.add_0_r. }
  destruct (find_path q c) as [p0|].
  { injection H as <-. exists 0%nat, p0. by rewrite Nat.add_0_r. }
  destruct (IH _ _ H) as (j & p' & ->). exists (S j), p'. f_equal. lia.
Qed.

Lemma find_path_go_alter cs :
  Forall (fun c => stays c) cs ->
  forall i j p' nm a t t',
    go i cs = Some ((i + j)%nat :: p') ->
    get_at (j :: p') (Tag nm a cs) = Some t -> f t = Some t' ->
    is_tag t' = true -> q t' = true ->
    go i (contents (alter_at f (j :: p') (Tag nm a cs))) = Some ((i + j)%nat :: p').
Proof.
  induction 1 as [|c cs Hc _ IH]; intros i j p' nm a t t' Hgo Hg Hf Ht Hq; [done|].
  destruct (is_tag c && q c) eqn:Hhead.
  { injection Hgo as Hj <-. assert (j = 0%nat) as -> by lia.
    cbn [get_at contents lookup list_lookup] in Hg. injection Hg as ->.
    cbn [alter_at contents]. unfold splice. cbn [lookup list_lookup].
    rewrite Hf. simpl. rewrite Ht, Hq. cbn [andb]. by rewrite Nat.add_0_r. }
  destruct (find_path q c) as [p0|] eqn:Hfind.
  { injection Hgo as Hj <-. assert (j = 0%nat) as -> by lia.
    destruct (find_path_spec _ _ _ Hfind) as [Hne _].
    cbn [get_at contents lookup list_lookup] in Hg.
    rewrite (alter_at_cons f 0 p0 nm a (c :: cs) c eq_refl Hne).
    cbn [contents insert list_insert].
    destruct c as [s|nm' a' cs']; [done|].
    rewrite (alter_at_keeps_head p0 nm' a' cs' Hne), Hhead.
    rewrite (Hc p0 t t' eq_refl Hg Hf Ht Hq). by rewrite Nat.add_0_r. }
  destruct (go_head_ge _ _ _ Hgo) as (j' & p'' & E).
  injection E as Hj <-. assert (j = S j') as -> by lia.
  replace (i + S j')%nat with (S i + j')%nat in * by lia.
  cbn [get_at contents lookup list_lookup] in Hg.
  assert (contents (alter_at f (S j' :: p') (Tag nm a (c :: cs)))
          = c :: contents (alter_at f (j' :: p') (Tag nm a cs))) as ->.
  { destruct p' as [|k p']; cbn [alter_at contents]; unfold splice;
      cbn [lookup list_lookup]; by destruct (cs !! j'). }
  rewrite Hhead, Hfind. by apply (IH (S i) j' p' nm a t t').
Qed.

(** [find] returns the same position after an update at the position it
    found, when the updated tag still passes the filter. *)
Lemma find_path_alter_at n :
  stays n.
Proof.
  induction n as [s|nm a cs IH] using node_ind; intros p t t' Hp Hg Hf Ht Hq; [done|].
  cbn [find_path] in Hp.
  destruct (go_head_ge _ _ _ Hp) as (j & p' & ->). cbn [Nat.add] in *.
  pose proof (find_path_go_alter cs IH 0 j p' nm a t t' Hp Hg Hf Ht Hq) as H.
  destruct (alter_at_root f (j :: p') nm a cs) as [cs' E]. rewrite E in H |- *.
  exact H.
Qed.
End FindAlter.

End PathFacts.

(** ** Pruning: idempotence, kept subtrees, removal only *)

Module PruneFacts.
Import Dom DomFacts SoupCleaner SoupCleanerFacts PathFacts Observe.

Lemma should_keep_attrs nm a cs cs' :
  _should_keep_element (Tag nm a cs) = _should_keep_element (Tag nm a cs').
Proof. reflexivity. Qed.

(** Pruning an element that pruning has left in place changes nothing. *)
Lemma process_element_idempotent e :
  forall e', _process_element e = Some e' -> _process_element e' = Some e'.
Proof.
  induction e as [s|nm a cs IH] using node_ind; intros e' Hp.
  { by injection Hp as <-. }
  cbn [_process_element] in Hp.
  destruct (_should_keep_element (Tag nm a cs)) eqn:Hk.
  { injection Hp as <-. cbn [_process_element]. by rewrite Hk. }
  destruct (_has_labeled_descendant (Tag nm a cs)) eqn:Hd; cbn [negb] in Hp.
  - injection Hp as <-. cbn [_process_element].
    rewrite (should_keep_attrs nm a _ cs), Hk, has_labeled_descendant_omap, Hd.
    cbn [negb]. do 2 f_equal.
    clear Hk Hd. induction cs as [|c cs IHcs]; [done|].
    apply Forall_cons in IH as [IHc IH]. cbn [omap list_omap].
    destruct (_process_element c) as [c'|] eqn:Hc; [|by apply IHcs].
    cbn [omap list_omap]. rewrite (IHc c' eq_refl). f_equal. by apply IHcs.
  - destruct (_is_structural_element (Tag nm a cs)) eqn:Hs; cbn [negb] in Hp; [|done].
    injection Hp as <-. cbn [_process_element]. by rewrite Hk, Hd, Hs.
Qed.

Lemma process_element_name e e' :
  _process_element e = Some e' -> is_tag e' = is_tag e /\ name e' = name e.
Proof.
  destruct e as [s|nm a cs]; [by intros [= <-]|]. cbn [_process_element].
  destruct (_should_keep_element _); [by intros [= <-]|].
  destruct (_has_labeled_descendant _); cbn [negb]; [by intros [= <-]|].
  destruct (_is_structural_element _); cbn [negb]; [by intros [= <-]|done].
Qed.

Lemma name_is_of_name nm e e' :
  name e' = name e -> name_is nm e' = name_is nm e.
Proof. destruct e, e'; cbn; congruence. Qed.

(** X1: pruning the clean copy again gives the clean copy. *)
Theorem prune_idempotent (soup : node) :
  let clean := snd (create_clean_soup (init soup)) in
  snd (create_clean_soup (init clean)) = clean.
Proof.
  cbv zeta. unfold create_clean_soup, init. cbn [original_soup snd].
  destruct (find_path (name_is "body") soup) as [p|] eqn:Hp.
  - destruct (find_path_spec _ _ _ Hp) as (Hne & body & Hb & Htag & Hnm).
    destruct (process_body_some body Hnm) as [body' Hproc].
    destruct (process_element_name _ _ Hproc) as [Ht' Hn'].
    rewrite (find_path_alter_at (name_is "body") _process_element
               (fun _ _ _ _ => eq_refl) soup p body body' Hp Hb Hproc);
      [|congruence|by rewrite (name_is_of_name _ _ _ Hn')].
    apply (alter_at_twice _process_element p soup body body' Hne Hb Hproc).
    by apply (process_element_idempotent body).
  - by rewrite Hp.
Qed.

(** X2: the elements with a label, each with its whole subtree, are the
    same in the pruned body as in the body, in the same order. *)
Theorem prune_keeps_labelled_subtrees (soup : node) (p : path) (body : node) :
  find_path (name_is "body") soup = Some p ->
  get_at p soup = Some body ->
  exists body',
    get_at p (snd (create_clean_soup (init soup))) = Some body'
    /\ List.filter _should_keep_element (tags_of body')
       = List.filter _should_keep_element (tags_of body).
Proof.
  intros Hp Hb. unfold create_clean_soup, init. cbn [original_soup snd]. rewrite Hp.
  destruct (find_path_spec _ _ _ Hp) as (Hne & body0 & Hb0 & Htag & Hnm).
  rewrite Hb in Hb0. injection Hb0 as <-.
  destruct (process_body_some body Hnm) as [body' Hproc].
  exists body'. split.
  - rewrite <- (app_nil_r p) at 1.
    by rewrite (get_at_alter_at _ p [] soup body body' Hne Hb Hproc).
  - pose proof (process_element_filter _should_keep_element
                  (fun _ _ _ _ => eq_refl) body) as H.
    rewrite Hproc, tags_of_option_some in H. apply H.
    apply List.Forall_forall. auto.
Qed.

Lemma prune_keeps_labelled_subtrees_witness :
  exists body,
    get_at [0; 1]%nat Examples.labeled_page = Some body
    /\ exists body',
         get_at [0; 1]%nat (snd (create_clean_soup (init Examples.labeled_page)))
         = Some body'
         /\ List.filter _should_keep_element (tags_of body')
            = List.filter _should_keep_element (tags_of body).
Proof.
  eexists. split; [vm_compute; reflexivity|].
  apply (prune_keeps_labelled_subtrees Examples.labeled_page [0; 1]%nat);
    vm_compute; reflexivity.
Defined.

Section OnlyRemoves.
Context {X : Type}.
Variable m : node -> list X.
Variable h : string -> gmap string string -> list X.
Hypothesis m_tag : forall nm a cs, m (Tag nm a cs) = h nm a ++ flat_map m cs.

Lemma flat_map_omap_sublist (f : node -> option node) (cs : list node) :
  Forall (fun c => flat_map m (option_list (f c)) `sublist_of` m c) cs ->
  flat_map m (omap f cs) `sublist_of` flat_map m cs.
Proof.
  induction 1 as [|c cs Hc _ IH]; [done|]. cbn [omap list_omap flat_map].
  destruct (f c) as [c'|]; simpl in Hc |- *.
  - rewrite app_nil_r in Hc. by apply sublist_app.
  - by apply sublist_inserts_l.
Qed.

Lemma process_element_sublist e :
  flat_map m (option_list (_process_element e)) `sublist_of` m e.
Proof.
  induction e as [s|nm a cs IH] using node_ind.
  { cbn. by rewrite app_nil_r. }
  cbn [_process_element].
  destruct (_should_keep_element _).
  { cbn. by rewrite app_nil_r. }
  destruct (_has_labeled_descendant _); cbn [negb].
  - change (m (Tag nm a (omap _process_element cs)) ++ [] `sublist_of` m (Tag nm a cs)).
    rewrite app_nil_r, !m_tag.
    apply sublist_app; [done|]. by apply flat_map_omap_sublist.
  - destruct (_is_structural_element _); cbn [negb].
    + cbn. by rewrite app_nil_r.
    + apply sublist_nil_l.
Qed.

Lemma splice_sublist (f : node -> option node) i cs :
  (forall c, flat_map m (option_list (f c)) `sublist_of` m c) ->
  flat_map m (splice f i cs) `sublist_of` flat_map m cs.
Proof.
  intros Hf. unfold splice. destruct (cs !! i) as [c|] eqn:Hl; [|done].
  rewrite <- (take_drop_middle cs i c Hl) at 3.
  rewrite !flat_map_app. apply sublist_app; [done|].
  cbn [flat_map]. apply sublist_app; [apply Hf|done].
Qed.

Lemma alter_at_sublist p :
  forall n, m (alter_at _process_element p n) `sublist_of` m n.
Proof.
  induction p as [|i p IH]; intros n; [by destruct n|].
  destruct n as [s|nm a cs]; [by destruct p|].
  destruct p as [|j p].
  - cbn [alter_at]. rewrite !m_tag. apply sublist_app; [done|].
    apply splice_sublist, process_element_sublist.
  - change (alter_at _process_element (i :: j :: p) (Tag nm a cs))
      with (Tag nm a (splice (fun c => Some (alter_at _process_element (j :: p) c)) i cs)).
    rewrite !m_tag. apply sublist_app; [done|].
    apply splice_sublist. intros c.
    change (m (alter_at _process_element (j :: p) c) ++ [] `sublist_of` m c).
    rewrite app_nil_r. apply IH.
Qed.

Lemma create_clean_soup_sublist soup :
  m (snd (create_clean_soup (init soup))) `sublist_of` m soup.
Proof.
  unfold create_clean_soup, init. cbn [original_soup snd].
  destruct (find_path _ soup); [apply alter_at_sublist|done].
Qed.
End OnlyRemoves.

(** X3: pruning only removes.  The strings of the clean copy are a
    subsequence of the strings of the original, and so are its tags with
    their names and attributes. *)
Theorem prune_only_removes (soup : node) :
  let clean := snd (create_clean_soup (init soup)) in
  strings_of clean `sublist_of` strings_of soup
  /\ map (fun e => (name e, attrs e)) (tags_of clean)
     `sublist_of` map (fun e => (name e, attrs e)) (tags_of soup).
Proof.
  cbv zeta. split.
  - apply (create_clean_soup_sublist strings_of (fun _ _ => [])).
    intros nm a cs. done.
  - apply (create_clean_soup_sublist
             (fun n => map (fun e => (name e, attrs e)) (tags_of n))
             (fun nm a => [(Some nm, a)])).
    intros nm a cs. cbn [tags_of map app name attrs]. f_equal.
    induction cs as [|c cs IH]; [done|]. cbn [flat_map]. by rewrite map_app, IH.
Qed.

End PruneFacts.

(** ** Positions of located tags, and attributes left alone *)

Module LocatePaths.
Import Dom DomFacts LocateFacts.

Lemma locate_children_paths rp ps cs :
  Forall (fun c => forall rp ps e, In e (locate rp ps c) ->
            exists q, loc_path e = rev rp ++ q /\ get_at q c = Some (loc_node e)) cs ->
  forall i e, In e (locate_children rp ps i cs) ->
    exists j c q, cs !! j = Some c /\ loc_path e = rev rp ++ (i + j)%nat :: q
                  /\ get_at q c = Some (loc_node e).
Proof.
  induction 1 as [|c cs Hc _ IH]; intros i e He; [done|].
  cbn [locate_children] in He. apply in_app_iff in He as [He|He].
  - destruct (Hc _ _ _ He) as (q & Hp & Hg). exists 0%nat, c, q.
    split; [done|]. split; [|done]. rewrite Hp. cbn [rev]. rewrite <- app_assoc.
    by rewrite Nat.add_0_r.
  - destruct (IH _ _ He) as (j & c' & q & Hl & Hp & Hg). exists (S j), c', q.
    split; [done|]. split; [|done]. rewrite Hp. do 2 f_equal. lia.
Qed.

(** The path of a located tag leads to it. *)
Lemma locate_paths n :
  forall rp ps e, In e (locate rp ps n) ->
    exists q, loc_path e = rev rp ++ q /\ get_at q n = Some (loc_node e).
Proof.
  induction n as [s|nm a cs IH] using node_ind; intros rp ps e He; [done|].
  rewrite locate_tag in He. destruct He as [<-|He].
  { exists []. by rewrite app_nil_r. }
  destruct (locate_children_paths rp _ cs IH 0 e He) as (j & c & q & Hl & Hp & Hg).
  exists (j :: q). split; [done|]. cbn [get_at contents]. by rewrite Hl.
Qed.

Lemma locate_tail_paths n rp ps e :
  In e (tail (locate rp ps n)) ->
  exists q, q <> [] /\ loc_path e = rev rp ++ q /\ get_at q n = Some (loc_node e).
Proof.
  destruct n as [s|nm a cs]; [done|]. rewrite locate_tag. cbn [tail]. intros He.
  assert (Forall (fun c => forall rp ps e, In e (locate rp ps c) ->
            exists q, loc_path e = rev rp ++ q /\ get_at q c = Some (loc_node e)) cs) as H.
  { apply List.Forall_forall. intros c _. apply locate_paths. }
  destruct (locate_children_paths rp _ cs H 0 e He) as (j & c & q & Hl & Hp & Hg).
  exists (j :: q). split; [done|]. split; [done|]. cbn [get_at contents]. by rewrite Hl.
Qed.

Lemma located_below_paths e x :
  In x (located_below e) ->
  exists q, q <> [] /\ loc_path x = loc_path e ++ q
            /\ get_at q (loc_node e) = Some (loc_node x).
Proof.
  intros (q & Hq & Hp & Hg)%locate_tail_paths. rewrite rev_involutive in Hp. eauto.
Qed.

End LocatePaths.

Module AttrFacts.
Import Dom DomFacts PathFacts Observe.

Lemma lookup_foldr_delete (a : gmap string string) (keys : list string) k :
  foldr delete a keys !! k = if bool_decide (k ∈ keys) then None else a !! k.
Proof.
  induction keys as [|k' keys IH]; [done|]. cbn [foldr].
  destruct (decide (k = k')) as [->|Hne].
  - rewrite lookup_delete_eq. rewrite bool_decide_eq_true_2; [done|]. by left.
  - rewrite lookup_delete_ne by done. rewrite IH.
    destruct (decide (k ∈ keys)) as [Hin|Hnin].
    + rewrite !bool_decide_eq_true_2; [done| by right | done].
    + rewrite !bool_decide_eq_false_2; [done| |done].
      by intros [?|?]%elem_of_cons.
Qed.

Lemma foldr_delete_insert (a : gmap string string) keys key v :
  key ∈ keys -> foldr delete (<[ key := v ]> a) keys = foldr delete a keys.
Proof.
  intros Hin. apply map_eq. intros k. rewrite !lookup_foldr_delete.
  destruct (bool_decide (k ∈ keys)) eqn:Hk; [done|].
  apply bool_decide_eq_false in Hk. rewrite lookup_insert_ne; [done|]. by intros ->.
Qed.

Lemma foldr_delete_delete (a : gmap string string) keys key :
  key ∈ keys -> foldr delete (delete key a) keys = foldr delete a keys.
Proof.
  intros Hin. apply map_eq. intros k. rewrite !lookup_foldr_delete.
  destruct (bool_decide (k ∈ keys)) eqn:Hk; [done|].
  apply bool_decide_eq_false in Hk. rewrite lookup_delete_ne; [done|]. by intros ->.
Qed.

Lemma without_attrs_with_attr keys key v t :
  key ∈ keys -> without_attrs keys (with_attr key v t) = without_attrs keys t.
Proof.
  intros Hin. destruct t as [s|nm a cs]; [done|]. cbn [with_attr without_attrs].
  by rewrite foldr_delete_insert.
Qed.

Lemma without_attrs_with_attr_opt keys key v t :
  key ∈ keys -> without_attrs keys (with_attr_opt key v t) = without_attrs keys t.
Proof.
  intros Hin. destruct t as [s|nm a cs]; [by destruct v|].
  destruct v as [v|]; cbn [with_attr_opt without_attrs].
  - by rewrite foldr_delete_insert.
  - by rewrite foldr_delete_delete.
Qed.

(** An update that changes only the attributes [keys] of the tag it is
    applied to changes only those attributes of the document. *)
Lemma without_attrs_alter_at keys (f : node -> node) p :
  (forall t, without_attrs keys (f t) = without_attrs keys t) ->
  forall n, without_attrs keys (alter_at (fun t => Some (f t)) p n) = without_attrs keys n.
Proof.
  intros Hf. induction p as [|i p IH]; intros n; [by destruct n|].
  destruct n as [s|nm a cs]; [by destruct p|].
  assert (forall g : node -> node,
            (forall t, without_attrs keys (g t) = without_attrs keys t) ->
            map (without_attrs keys) (splice (fun t => Some (g t)) i cs)
            = map (without_attrs keys) cs) as Hsplice.
  { intros g Hg. unfold splice. destruct (cs !! i) as [c|] eqn:Hl; [|done].
    rewrite <- (take_drop_middle cs i c Hl) at 3.
    change (option_list (Some (g c))) with [g c].
    rewrite !map_app. cbn [map app]. by rewrite Hg. }
  destruct p as [|j p].
  - cbn [alter_at without_attrs]. by rewrite (Hsplice f Hf).
  - change (alter_at (fun t => Some (f t)) (i :: j :: p) (Tag nm a cs))
      with (Tag nm a (splice (fun c => Some (alter_at (fun t => Some (f t)) (j :: p) c)) i cs)).
    cbn [without_attrs]. by rewrite (Hsplice _ IH).
Qed.

Lemma without_attrs_set_attr keys p key v soup :
  key ∈ keys -> without_attrs keys (set_attr p key v soup) = without_attrs keys soup.
Proof.
  intros Hin. apply (without_attrs_alter_at keys (with_attr key v)).
  intros t. by apply without_attrs_with_attr.
Qed.

End AttrFacts.

(** ** The content walk stays in its container *)

Module MarkFacts.
Import Dom DomFacts PathFacts LocateFacts LocatePaths AttrFacts Observe ArticleExtractor Exc.

Local Abbreviation inside p ev :=
  (match ev with
   | Write q key _ => p `prefix_of` q /\ key ∈ content_keys
   | Boundary q => p `prefix_of` q
   end).

Local Abbreviation extends P st st' :=
  (exists evs, log st' = log st ++ evs /\ Forall P evs).

Lemma inside_shorter p i ev : inside (p ++ [i]) ev -> inside p ev.
Proof.
  destruct ev as [q key v|q].
  - intros [H ?]. split; [|done]. etrans; [|exact H]. by apply prefix_app_r.
  - intros H. etrans; [|exact H]. by apply prefix_app_r.
Qed.

Lemma extends_refl (P : event -> Prop) st : extends P st st.
Proof. exists []. by rewrite app_nil_r. Qed.

Lemma extends_trans (P : event -> Prop) st1 st2 st3 :
  extends P st1 st2 -> extends P st2 st3 -> extends P st1 st3.
Proof.
  intros (e1 & E1 & H1) (e2 & E2 & H2). exists (e1 ++ e2).
  rewrite E2, E1, app_assoc. split; [done|]. by apply Forall_app.
Qed.

Lemma extends_impl (P Q : event -> Prop) st st' :
  (forall ev, P ev -> Q ev) -> extends P st st' -> extends Q st st'.
Proof. intros H (e & E & HP). exists e. split; [done|]. by eapply Forall_impl. Qed.

Lemma extends_emit (P : event -> Prop) evs st :
  Forall P evs -> extends P st (emit evs st).
Proof. intros H. by exists evs. Qed.

Lemma mark_table_inside p table : Forall (fun ev => inside p ev) (snd (_mark_table p table)).
Proof.
  unfold _mark_table. cbn [snd]. apply Forall_app. split.
  - apply Forall_forall. intros ev (th & -> & Hth)%list_elem_of_fmap.
    apply list_elem_of_In, filter_In in Hth as [Hth _].
    apply locate_tail_paths in Hth as (q & _ & Hp & _). rewrite rev_involutive in Hp.
    split; [rewrite Hp; by apply prefix_app_r|]. by left.
  - apply Forall_forall. intros ev (td & -> & Htd)%list_elem_of_fmap.
    apply list_elem_of_In, filter_In in Htd as [Htd _].
    apply locate_tail_paths in Htd as (q & _ & Hp & _). rewrite rev_involutive in Hp.
    split; [rewrite Hp; by apply prefix_app_r|]. by left.
Qed.

Lemma mark_table_step_inside p table st :
  extends (fun ev => inside p ev) st (snd (mark_table_step p table st)).
Proof.
  unfold mark_table_step. pose proof (mark_table_inside p table) as Hw.
  destruct (_mark_table p table) as [has_content evs]. cbn [snd] in Hw.
  pose proof (extends_emit (fun ev => inside p ev) evs st Hw) as H1.
  destruct has_content; [|done].
  assert (extends (fun ev => inside p ev) st
            (emit [Write p content_attr table_value] (emit evs st))) as H2.
  { eapply extends_trans; [exact H1|]. apply extends_emit.
    apply Forall_singleton. split; [done|]. by left. }
  by destruct (get table id_attr).
Qed.

Lemma walk_children_inside recurse p children :
  Forall (fun c => forall q st, extends (fun ev => inside q ev) st (snd (recurse q c st)))
         children ->
  forall i st,
    extends (fun ev => inside p ev) st (snd (walk_children recurse p i children st)).
Proof.
  induction 1 as [|child rest Hc _ IH]; intros i st; [apply extends_refl|].
  cbn [walk_children]. destruct child as [s|cnm ca ccs]; [by apply IH|].
  assert (forall st', extends (fun ev => inside (p ++ [i]) ev) st st' ->
            extends (fun ev => inside p ev) st st') as Hup.
  { intros st' H'. eapply extends_impl; [|exact H']. apply inside_shorter. }
  destruct (String.eqb cnm "table").
  - destruct (skip_remaining st) eqn:Hs; cbn [negb]; [by apply IH|].
    pose proof (Hup _ (mark_table_step_inside (p ++ [i]) (Tag cnm ca ccs) st)) as H1.
    destruct (mark_table_step _ _ st) as [[u|e] st']; [|done].
    eapply extends_trans; [exact H1|apply IH].
  - pose proof (Hup _ (Hc (p ++ [i]) st)) as H1.
    destruct (recurse _ _ st) as [[u|e] st']; [|done].
    eapply extends_trans; [exact H1|apply IH].
Qed.

Lemma process_element_inside element :
  forall parent p st,
    extends (fun ev => inside p ev) st
      (snd (process_element_recursively parent p element st)).
Proof.
  induction element as [s|nm a cs IH] using node_ind; intros parent p st;
    [apply extends_refl|].
  cbn [process_element_recursively].
  destruct (skip_remaining st) eqn:Hs; [apply extends_refl|].
  destruct (decide _); [apply extends_refl|].
  set (st1 := add_processed (a !! id_attr) st).
  assert (extends (fun ev => inside p ev) st st1) as H01 by (exists []; by rewrite app_nil_r).
  assert (forall st', extends (fun ev => inside p ev) st st' ->
            extends (fun ev => inside p ev) st
              (snd (walk_children (process_element_recursively (Some (Tag nm a cs)))
                      p 0%nat cs st'))) as Hchildren.
  { intros st' Hst'. eapply extends_trans; [exact Hst'|].
    apply walk_children_inside.
    eapply Forall_impl; [exact IH|]. intros c Hc q st2. apply Hc. }
  destruct (Py.nonempty _); [|by apply Hchildren].
  destruct (_is_boilerplate _ _ parent) as [[is_boilerplate is_section_header]|e]; [|done].
  destruct is_section_header.
  { exists [Boundary p]. split; [done|]. by apply Forall_singleton. }
  destruct is_boilerplate; cbn [negb]; [by apply Hchildren|].
  apply Hchildren. eapply extends_trans; [exact H01|]. apply extends_emit.
  apply Forall_cons. split; [split; [done|by left]|].
  apply Forall_singleton. split; [done|]. right. by left.
Qed.

Lemma inside_below root q ev :
  q <> [] -> inside (root ++ q) ev -> content_event_ok root ev.
Proof.
  intros Hq. assert (forall p, root ++ q `prefix_of` p -> root `prefix_of` p /\ p <> root) as H.
  { intros p [r ->]. split; [rewrite <- app_assoc; by apply prefix_app_r|].
    rewrite <- app_assoc. intros E. rewrite <- (app_nil_r root) in E at 2.
    apply app_inv_head in E. by destruct q. }
  destruct ev as [p key v|p]; cbn.
  - intros [Hp Hk]. by destruct (H _ Hp).
  - apply H.
Qed.

Lemma scan_targets_inside root targets :
  Forall (fun e => exists q, q <> [] /\ loc_path e = root ++ q) targets ->
  forall st, extends (content_event_ok root) st (snd (scan_targets targets st)).
Proof.
  induction 1 as [|element rest (q & Hq & Hp) _ IH]; intros st; [apply extends_refl|].
  cbn [scan_targets]. destruct (decide _); [by apply IH|].
  assert (forall st', extends (fun ev => inside (loc_path element) ev) st st' ->
            extends (content_event_ok root) st st') as Hup.
  { intros st' H'. eapply extends_impl; [|exact H']. intros ev. rewrite Hp.
    by apply inside_below. }
  destruct (name_is "table" (loc_node element) || _).
  - destruct (name_is "table" (loc_node element) && negb (skip_remaining st));
      [|by apply IH].
    pose proof (Hup _ (mark_table_step_inside (loc_path element) (loc_node element) st)) as H1.
    destruct (mark_table_step _ _ st) as [[u|e] st']; [|done].
    eapply extends_trans; [exact H1|apply IH].
  - pose proof (Hup _ (process_element_inside (loc_node element) (parent element)
                         (loc_path element) st)) as H1.
    destruct (process_element_recursively _ _ _ st) as [[u|e] st']; [|done].
    eapply extends_trans; [exact H1|apply IH].
Qed.

Lemma content_targets_below content :
  Forall (fun e => exists q, q <> [] /\ loc_path e = loc_path content ++ q)
    (List.filter (fun e => name_in target_tags (loc_node e)) (located_below content)).
Proof.
  apply Forall_forall. intros e He. apply list_elem_of_In, filter_In in He as [He _].
  apply located_below_paths in He as (q & Hq & Hp & _). eauto.
Qed.

(** The walk assigns the two content attributes and no other. *)
Lemma content_walk_keys (soup : node) :
  Forall (fun ev => match ev with
                    | Write _ key _ => key ∈ content_keys
                    | Boundary _ => True
                    end)
    (log (snd (content_walk soup))).
Proof.
  unfold content_walk. destruct (find_content soup) as [content|]; [|constructor].
  destruct (scan_targets_inside (loc_path content) _ (content_targets_below content)
              initial_walk) as (evs & -> & H).
  eapply Forall_impl; [exact H|]. intros [p key v|p]; [|done]. by intros (_ & _ & ?).
Qed.

(** X6: [_mark_content] stays inside the container it chose.  Every
    assignment of the walk, whether the walk finishes or raises, is made
    to an element strictly below the container and to one of the two
    content attributes; without a container nothing is assigned. *)
Theorem mark_content_stays_in_container (soup : node) :
  match find_content soup with
  | Some content =>
      Forall (content_event_ok (loc_path content)) (log (snd (content_walk soup)))
  | None => log (snd (content_walk soup)) = []
  end.
Proof.
  unfold content_walk. destruct (find_content soup) as [content|]; [|done].
  by destruct (scan_targets_inside (loc_path content) _ (content_targets_below content)
                 initial_walk) as (evs & -> & H).
Qed.

End MarkFacts.

(** ** More on node addressing *)

Module AddressingMore.
Import Dom DomFacts AttrFacts Observe ArticleExtractor AddressingFacts.

Lemma label_from_twice n :
  forall idx, label_from idx (snd (label_from idx n)) = label_from idx n.
Proof.
  induction n as [s|nm a cs IH] using node_ind; intros idx; [done|].
  rewrite (label_from_tag idx nm a cs). cbn [snd]. rewrite label_from_tag.
  rewrite insert_insert_eq.
  assert (forall idx, label_list idx (snd (label_list idx cs)) = label_list idx cs) as H.
  { clear idx. induction cs as [|c cs IHcs]; intros idx; [done|].
    apply Forall_cons in IH as [IHc IH].
    rewrite (label_list_cons idx c cs). cbn [snd]. rewrite label_list_cons.
    rewrite IHc. by rewrite (IHcs IH). }
  by rewrite H.
Qed.

Lemma label_list_twice cs :
  forall idx, label_list idx (snd (label_list idx cs)) = label_list idx cs.
Proof.
  induction cs as [|c cs IH]; intros idx; [done|].
  rewrite (label_list_cons idx c cs). cbn [snd]. rewrite label_list_cons.
  rewrite label_from_twice. by rewrite IH.
Qed.

Lemma label_from_only_id n :
  forall idx, without_attrs [id_attr] (snd (label_from idx n)) = without_attrs [id_attr] n.
Proof.
  induction n as [s|nm a cs IH] using node_ind; intros idx; [done|].
  rewrite label_from_tag. cbn [snd without_attrs].
  rewrite foldr_delete_insert by (by left). f_equal.
  generalize (S idx). clear idx. induction cs as [|c cs IHcs]; intros idx; [done|].
  apply Forall_cons in IH as [IHc IH]. rewrite label_list_cons. cbn [snd map].
  by rewrite IHc, (IHcs IH).
Qed.

(** X5: [_label_elements] is idempotent and assigns nothing but the
    identifier.  A second run gives every element the identifier it has,
    and apart from the identifier attribute the labelled document is the
    document. *)
Theorem label_elements_idempotent (soup : node) :
  _label_elements (_label_elements soup) = _label_elements soup
  /\ without_attrs [id_attr] (_label_elements soup) = without_attrs [id_attr] soup.
Proof.
  destruct soup as [s|nm a cs]; [done|]. cbn [_label_elements]. split.
  - by rewrite label_list_twice.
  - cbn [without_attrs]. f_equal.
    generalize 0%nat. induction cs as [|c cs IH]; intros idx; [done|].
    rewrite label_list_cons. cbn [snd map]. by rewrite label_from_only_id, IH.
Qed.

End AddressingMore.

(** ** The grouping loop *)

Module GroupingFacts.
Import Dom NewsGroupFinder Exc FinderFacts.

Lemma append_to_keys k0 x gs :
  map fst (append_to k0 x gs)
  = if bool_decide (k0 ∈ map fst gs) then map fst gs else map fst gs ++ [k0].
Proof.
  induction gs as [|[k g] gs IH]; [done|]. cbn [append_to map fst].
  destruct (String.eqb_spec k k0) as [->|Hne].
  - rewrite bool_decide_eq_true_2; [done|]. by left.
  - cbn [map fst]. rewrite IH.
    destruct (decide (k0 ∈ map fst gs)) as [Hin|Hnin].
    + rewrite !bool_decide_eq_true_2; [done|by right|done].
    + rewrite !bool_decide_eq_false_2; [done| |done].
      intros [?|?]%elem_of_cons; [congruence|done].
Qed.

Lemma append_to_inv k0 x gs k g' :
  NoDup (map fst gs) ->
  In (k, g') (append_to k0 x gs) ->
  (k <> k0 /\ In (k, g') gs)
  \/ (k = k0 /\ ((exists g0, In (k0, g0) gs /\ g' = g0 ++ [x])
                 \/ ((k0 ∉ map fst gs) /\ g' = [x]))).
Proof.
  induction gs as [|[k1 g1] gs IH]; cbn [append_to map fst]; intros Hnd.
  - intros [[= <- <-]|[]]. right. split; [done|]. right. split; [|done]. by intros ?%elem_of_nil.
  - apply NoDup_cons in Hnd as [Hk1 Hnd].
    destruct (String.eqb_spec k1 k0) as [->|Hne].
    + intros [[= <- <-]|Hin].
      * right. split; [done|]. left. exists g1. split; [by left|done].
      * left. split; [|by right]. intros ->. apply Hk1.
        apply list_elem_of_In. by apply (in_map fst _ (k0, g')).
    + intros [[= <- <-]|Hin].
      * left. split; [done|by left].
      * destruct (IH Hnd Hin) as [[? ?]|[-> [(g0 & Hg0 & ->)|[Hnin ->]]]].
        -- left. split; [done|by right].
        -- right. split; [done|]. left. exists g0. split; [by right|done].
        -- right. split; [done|]. right. split; [|done].
           intros [?|?]%elem_of_cons; [congruence|done].
Qed.

Lemma keys_unique {A} (gs : list (string * A)) k g1 g2 :
  NoDup (map fst gs) -> In (k, g1) gs -> In (k, g2) gs -> g1 = g2.
Proof.
  induction gs as [|[k0 g0] gs IH]; [done|]. cbn [map fst].
  intros [Hk Hnd]%NoDup_cons H1 H2.
  assert (forall g, In (k, g) gs -> k0 <> k) as Hother.
  { intros g Hg ->. apply Hk. apply list_elem_of_In. by apply (in_map fst _ (k, g)). }
  destruct H1 as [E1|H1], H2 as [E2|H2].
  - congruence.
  - injection E1 as E1 _. by destruct (Hother _ H2).
  - injection E2 as E2 _. by destruct (Hother _ H1).
  - by apply IH.
Qed.

Lemma append_to_keeps k0 x gs k g :
  In (k, g) gs ->
  exists g', In (k, g') (append_to k0 x gs) /\ (g' = g \/ g' = g ++ [x]).
Proof.
  induction gs as [|[k1 g1] gs IH]; [done|]. cbn [append_to].
  destruct (String.eqb_spec k1 k0) as [->|Hne].
  - intros [[= <- <-]|Hin].
    + exists (g1 ++ [x]). split; [by left|by right].
    + exists g. split; [by right|by left].
  - intros [[= <- <-]|Hin].
    + exists g1. split; [by left|by left].
    + destruct (IH Hin) as (g' & Hin' & Hg'). exists g'. split; [by right|done].
Qed.

Lemma append_to_adds k0 x gs :
  exists g', In (k0, g') (append_to k0 x gs) /\ In x g'.
Proof.
  induction gs as [|[k1 g1] gs IH]; cbn [append_to].
  - exists [x]. split; by left.
  - destruct (String.eqb_spec k1 k0) as [->|Hne].
    + exists (g1 ++ [x]). split; [by left|]. apply in_app_iff. right. by left.
    + destruct IH as (g' & Hin & Hx). exists g'. split; [by right|done].
Qed.

(** What the grouping loop keeps true of its two dictionaries. *)
Local Abbreviation well_grouped st :=
  (NoDup (map fst (ancestry_groups st))
   /\ (forall k g, In (k, g) (ancestry_groups st) ->
         g <> [] /\ NoDup (map href g)
         /\ Forall (fun y => _get_flexible_ancestry y = k) g
         /\ seen_urls st !! k = Some (list_to_set (map href g)))
   /\ (forall k, k ∉ map fst (ancestry_groups st) -> seen_urls st !! k = None)).

Local Abbreviation covers st x :=
  (exists g, In (_get_flexible_ancestry x, g) (ancestry_groups st)
             /\ In (href x) (map href g)).

Lemma group_step_well_grouped st x :
  well_grouped st ->
  well_grouped (group_step st x)
  /\ covers (group_step st x) x
  /\ (forall y, covers st y -> covers (group_step st x) y).
Proof.
  intros (Hnd & Hgroups & Hother). unfold group_step.
  set (k0 := _get_flexible_ancestry x). set (url := href x).
  destruct (decide (k0 ∈ map fst (ancestry_groups st))) as [Hin|Hnin].
  - (* the ancestry has a group *)
    apply list_elem_of_In, in_map_iff in Hin as ([k g0] & Hk & Hin0).
    cbn [fst] in Hk. subst k.
    destruct (Hgroups _ _ Hin0) as (Hne0 & Hnd0 & Hanc0 & Hseen0).
    rewrite Hseen0. cbn [from_option id].
    destruct (decide (url ∈ (list_to_set (map href g0) : gset string))) as [Hurl|Hurl];
      cbn [ancestry_groups seen_urls].
    + rewrite insert_id by done. split; [done|]. split; [|done].
      exists g0. split; [done|]. apply list_elem_of_In. by apply elem_of_list_to_set in Hurl.
    + assert (url ∉ map href g0) as Hurl' by (by rewrite elem_of_list_to_set in Hurl).
      split; [split; [|split]|split].
      * rewrite append_to_keys. rewrite bool_decide_eq_true_2; [done|].
        apply list_elem_of_In. by apply (in_map fst _ (k0, g0)).
      * intros k g Hg. apply (append_to_inv _ _ _ _ _ Hnd) in Hg
          as [[Hk Hg]|[-> [(g1 & Hg1 & ->)|[Hnone _]]]].
        -- destruct (Hgroups _ _ Hg) as (? & ? & ? & ?).
           by rewrite lookup_insert_ne.
        -- assert (g1 = g0) as ->.
           { by apply (keys_unique _ k0 _ _ Hnd). }
           split; [by destruct g0|]. split; [|split].
           ++ rewrite map_app. apply NoDup_app. split; [done|]. split.
              ** intros u Hu [->|[]%elem_of_nil]%elem_of_cons. done.
              ** apply NoDup_singleton.
           ++ apply Forall_app. split; [done|]. by apply Forall_singleton.
           ++ rewrite lookup_insert_eq. f_equal. rewrite map_app, list_to_set_app_L.
              cbn [map list_to_set]. fold url. rewrite union_empty_r_L.
              apply (comm_L (∪)).
        -- exfalso. apply Hnone. apply list_elem_of_In.
           by apply (in_map fst _ (k0, g0)).
      * intros k Hk. rewrite append_to_keys in Hk.
        rewrite bool_decide_eq_true_2 in Hk
          by (apply list_elem_of_In; by apply (in_map fst _ (k0, g0))).
        rewrite lookup_insert_ne; [by apply Hother|].
        intros <-. apply Hk. apply list_elem_of_In. by apply (in_map fst _ (k0, g0)).
      * destruct (append_to_adds k0 x (ancestry_groups st)) as (g' & Hg' & Hx).
        exists g'. split; [done|]. by apply in_map.
      * intros y (g & Hg & Hy).
        destruct (append_to_keeps k0 x _ _ _ Hg) as (g' & Hg' & Hor).
        exists g'. split; [done|]. destruct Hor as [->| ->]; [done|].
        rewrite map_app. apply in_app_iff. by left.
  - (* a new ancestry *)
    rewrite (Hother _ Hnin). cbn [from_option id].
    destruct (decide (url ∈ (∅ : gset string))) as [Hurl|_]; [by apply elem_of_empty in Hurl|].
    cbn [ancestry_groups seen_urls].
    split; [split; [|split]|split].
    + rewrite append_to_keys, bool_decide_eq_false_2 by done.
      apply NoDup_app. split; [done|]. split; [|apply NoDup_singleton].
      intros k Hk [->|[]%elem_of_nil]%elem_of_cons. done.
    + intros k g Hg. apply (append_to_inv _ _ _ _ _ Hnd) in Hg
        as [[Hk Hg]|[-> [(g1 & Hg1 & ->)|[_ ->]]]].
      * destruct (Hgroups _ _ Hg) as (? & ? & ? & ?). by rewrite lookup_insert_ne.
      * exfalso. apply Hnin. apply list_elem_of_In. by apply (in_map fst _ (k0, g1)).
      * split; [done|]. split; [apply NoDup_singleton|]. split; [by apply Forall_singleton|].
        by rewrite lookup_insert_eq.
    + intros k Hk. rewrite append_to_keys, bool_decide_eq_false_2 in Hk by done.
      rewrite lookup_insert_ne; [apply Hother|].
      * intros Hk'. apply Hk. apply elem_of_app. by left.
      * intros <-. apply Hk. apply elem_of_app. right. by left.
    + destruct (append_to_adds k0 x (ancestry_groups st)) as (g' & Hg' & Hx).
      exists g'. split; [done|]. by apply in_map.
    + intros y (g & Hg & Hy).
      destruct (append_to_keeps k0 x _ _ _ Hg) as (g' & Hg' & Hor).
      exists g'. split; [done|]. destruct Hor as [->| ->]; [done|].
      rewrite map_app. apply in_app_iff. by left.
Qed.

Lemma grouping_loop l :
  forall st, well_grouped st ->
    well_grouped (foldl group_step st l)
    /\ (forall x, In x l -> covers (foldl group_step st l) x)
    /\ (forall y, covers st y -> covers (foldl group_step st l) y).
Proof.
  induction l as [|x l IH]; intros st Hst; [done|]. cbn [foldl].
  destruct (group_step_well_grouped st x Hst) as (H1 & H2 & H3).
  destruct (IH _ H1) as (I1 & I2 & I3). split; [done|]. split.
  - intros y [<-|Hy]; [by apply I3|by apply I2].
  - intros y Hy. by apply I3, H3.
Qed.

End GroupingFacts.

(** ** Groups and the result of the classifier *)

Module GroupResultFacts.
Import Dom NewsGroupFinder Exc FinderFacts GroupingFacts.

Lemma grouped_anchors_state soup :
  let st := foldl group_step (Grouping [] ∅) (anchors soup) in
  (NoDup (map fst (ancestry_groups st))
   /\ (forall k g, In (k, g) (ancestry_groups st) ->
         g <> [] /\ NoDup (map href g)
         /\ Forall (fun y => _get_flexible_ancestry y = k) g
         /\ seen_urls st !! k = Some (list_to_set (map href g)))
   /\ (forall k, k ∉ map fst (ancestry_groups st) -> seen_urls st !! k = None))
  /\ (forall x, In x (anchors soup) ->
        exists g, In (_get_flexible_ancestry x, g) (ancestry_groups st)
                  /\ In (href x) (map href g)).
Proof.
  cbv zeta. destruct (grouping_loop (anchors soup) (Grouping [] ∅)) as (H1 & H2 & _).
  - split; [apply NoDup_nil_2|]. split; [by intros ? ? []|done].
  - done.
Qed.

Lemma grouped_anchors_members soup g x :
  In g (grouped_anchors soup) -> In x g -> In x (anchors soup).
Proof.
  unfold grouped_anchors. intros Hg Hx.
  apply in_map_iff in Hg as ([k g0] & <- & Hin). cbn [snd] in Hx.
  eapply (group_step_anchors (fun x => In x (anchors soup))); [| |exact Hin|exact Hx].
  - intros ? ? ? [].
  - done.
Qed.

Lemma grouped_anchors_sound soup g :
  In g (grouped_anchors soup) ->
  g <> [] /\ NoDup (map href g)
  /\ (forall x y, In x g -> In y g -> _get_flexible_ancestry x = _get_flexible_ancestry y)
  /\ (forall x, In x g -> In x (anchors soup)).
Proof.
  intros Hg. pose proof (grouped_anchors_members soup g) as Hm.
  unfold grouped_anchors in Hg. apply in_map_iff in Hg as ([k g0] & <- & Hin).
  destruct (grouped_anchors_state soup) as ((_ & Hgroups & _) & _).
  destruct (Hgroups _ _ Hin) as (Hne & Hnd & Hanc & _). cbn [snd].
  split; [done|]. split; [done|]. split.
  - intros x y Hx Hy. rewrite List.Forall_forall in Hanc.
    by rewrite (Hanc x Hx), (Hanc y Hy).
  - intros x Hx. apply Hm; [|done]. unfold grouped_anchors.
    by apply (in_map snd _ (k, g0)).
Qed.

(** X9: the grouping loop of [find_news_group] partitions the eligible
    anchors by ancestry.  A group is not empty, holds no link target
    twice, and its anchors are eligible anchors of one ancestry; two
    different groups have different ancestries; and the target of every
    eligible anchor occurs in the group of the anchor's ancestry. *)
Theorem grouping_partitions_by_ancestry (soup : node) :
  (forall g, In g (grouped_anchors soup) ->
     g <> [] /\ NoDup (map href g)
     /\ (forall x y, In x g -> In y g ->
           _get_flexible_ancestry x = _get_flexible_ancestry y)
     /\ (forall x, In x g -> In x (anchors soup)))
  /\ (forall i j g1 g2 x y,
        grouped_anchors soup !! i = Some g1 -> grouped_anchors soup !! j = Some g2 ->
        In x g1 -> In y g2 ->
        _get_flexible_ancestry x = _get_flexible_ancestry y -> i = j)
  /\ (forall x, In x (anchors soup) ->
        exists g, In g (grouped_anchors soup)
                  /\ In (href x) (map href g)
                  /\ (forall y, In y g ->
                        _get_flexible_ancestry y = _get_flexible_ancestry x)).
Proof.
  split; [apply grouped_anchors_sound|].
  destruct (grouped_anchors_state soup) as ((Hnd & Hgroups & _) & Hcov).
  unfold grouped_anchors. split.
  - intros i j g1 g2 x y Hi Hj Hx Hy E.
    rewrite list_lookup_fmap in Hi, Hj.
    destruct (ancestry_groups _ !! i) as [[k1 g1']|] eqn:Hi'; [|done].
    destruct (ancestry_groups _ !! j) as [[k2 g2']|] eqn:Hj'; [|done].
    cbn in Hi, Hj. injection Hi as ->. injection Hj as ->.
    destruct (Hgroups k1 g1) as (_ & _ & H1 & _);
      [apply list_elem_of_In; by eapply list_elem_of_lookup_2|].
    destruct (Hgroups k2 g2) as (_ & _ & H2 & _);
      [apply list_elem_of_In; by eapply list_elem_of_lookup_2|].
    rewrite List.Forall_forall in H1, H2.
    rewrite (H1 x Hx), (H2 y Hy) in E. subst k2.
    apply (NoDup_lookup _ i j k1 Hnd); rewrite list_lookup_fmap.
    + by rewrite Hi'.
    + by rewrite Hj'.
  - intros x Hx. destruct (Hcov x Hx) as (g & Hg & Hin). exists g.
    split; [by apply (in_map snd _ (_get_flexible_ancestry x, g))|]. split; [done|].
    destruct (Hgroups _ _ Hg) as (_ & _ & H & _). rewrite List.Forall_forall in H.
    exact H.
Qed.

(** *** What a result of [find_news_group] is *)

Lemma news_candidates_primary df g :
  In g (news_candidates df) ->
  In g df
  /\ (num_typical_url g =? 0)%nat && (4 <? url_count g)%nat
     && (is_social_media_num g =? 0)%nat && pct_is_one g = true.
Proof.
  rewrite news_candidates_narrow. intros H.
  apply narrow_subset, narrow_subset, narrow_subset in H. by apply filter_In in H.
Qed.

(** X10: what [find_news_group] returns when it returns a group.  The
    group has more than four anchors, all of them eligible anchors of one
    ancestry with pairwise different targets; none is a typical
    navigation link and every target has a multi-level path; the URLs
    returned are the targets made absolute, in the order of the anchors. *)
Theorem find_news_group_result (base_url : string) (soup : node) (r : group_info) :
  find_news_group base_url soup = Return (Some r) ->
  (4 < length (a r))%nat
  /\ urls r = map (fun x => _make_absolute_url base_url (href x)) (a r)
  /\ NoDup (map href (a r))
  /\ Forall (fun x => In x (anchors soup)
                      /\ _is_typical_url x = 0%nat
                      /\ multi_level_path (href x) = true) (a r)
  /\ (forall x y, In x (a r) -> In y (a r) ->
        _get_flexible_ancestry x = _get_flexible_ancestry y).
Proof.
  unfold find_news_group. destruct (groups_data soup) as [|g0 rows] eqn:Hrows; [done|].
  destruct (negb _); [done|].
  destruct (news_candidates _) as [|g [|g' l]] eqn:Hc; try done. intros [= <-].
  assert (In g (news_candidates (drop_duplicates (g0 :: rows)))) as Hg
    by (rewrite Hc; by left).
  apply news_candidates_primary in Hg as [Hg Hprim].
  apply drop_duplicates_from_subset in Hg. rewrite <- Hrows in Hg.
  apply groups_data_rows in Hg as (url_sets & i & group & -> & Hgroup).
  destruct (group_row_fields url_sets i group) as [Hurls _].
  destruct (group_row_more url_sets i group) as (Ha & Hcount & Htyp & Hpct).
  destruct (grouped_anchors_sound soup group Hgroup) as (Hne & Hnd & Hanc & Hmem).
  unfold pct_is_one in Hprim. rewrite Hcount, Htyp, Hpct in Hprim.
  apply andb_true_iff in Hprim as [Hprim Hone].
  apply andb_true_iff in Hprim as [Hprim _].
  apply andb_true_iff in Hprim as [Htypical Hlen].
  apply Nat.eqb_eq in Htypical. apply Nat.ltb_lt in Hlen.
  destruct (0 <? _)%nat eqn:Hpos; [|done]. apply Nat.ltb_lt in Hpos.
  apply quotient_is_one in Hone; [|done|apply List.filter_length_le].
  apply filter_length_all in Hone. apply filter_length_none in Htypical.
  cbn [with_absolute_urls a urls]. rewrite Ha, Hurls.
  split; [done|]. split; [by rewrite map_map|]. split; [done|]. split; [|done].
  apply List.Forall_forall. intros x Hx. split; [by apply Hmem|].
  rewrite List.Forall_forall in Hone, Htypical. split.
  - specialize (Htypical x Hx). apply negb_false_iff, Nat.eqb_eq in Htypical. done.
  - apply Hone. by apply in_map.
Qed.

Lemma find_news_group_result_witness :
  (4 < length (a Examples.listing_group))%nat
  /\ urls Examples.listing_group
     = map (fun x => _make_absolute_url Examples.base_url (href x))
         (a Examples.listing_group)
  /\ NoDup (map href (a Examples.listing_group))
  /\ Forall (fun x => In x (anchors Examples.listing_page)
                      /\ _is_typical_url x = 0%nat
                      /\ multi_level_path (href x) = true) (a Examples.listing_group)
  /\ (forall x y, In x (a Examples.listing_group) -> In y (a Examples.listing_group) ->
        _get_flexible_ancestry x = _get_flexible_ancestry y).
Proof.
  apply (find_news_group_result Examples.base_url Examples.listing_page).
  vm_compute. reflexivity.
Defined.

End GroupResultFacts.

(** ** Twin groups and shared URLs *)

Module TwinFacts.
Import Dom NewsGroupFinder.

Lemma twin_and_intersections_spec group_idx (current_set : gset string) sets :
  forall other_idx has_twin has_intersection,
    let r := twin_and_intersections group_idx current_set other_idx sets
               has_twin has_intersection in
    (fst r = true <->
       has_twin = true
       \/ exists j s, sets !! j = Some s /\ (other_idx + j)%nat <> group_idx
                      /\ current_set = s)
    /\ (snd r = true <->
          has_intersection = true
          \/ exists j s, sets !! j = Some s /\ (other_idx + j)%nat <> group_idx
                         /\ current_set ∩ s <> ∅).
Proof.
  induction sets as [|other_set rest IH]; intros other_idx has_twin has_intersection.
  { cbn. split; (split; [by left|]); by intros [?|(j & s & ? & _)]. }
  cbn [twin_and_intersections].
  assert (forall (P : gset string -> Prop),
            (exists j s, rest !! j = Some s /\ (S other_idx + j)%nat <> group_idx /\ P s)
            -> exists j s, (other_set :: rest) !! j = Some s
                           /\ (other_idx + j)%nat <> group_idx /\ P s) as Hshift.
  { intros P (j & s & Hl & Hj & HP). exists (S j), s. split; [done|]. split; [lia|done]. }
  assert (forall (P : gset string -> Prop),
            (exists j s, (other_set :: rest) !! j = Some s
                         /\ (other_idx + j)%nat <> group_idx /\ P s)
            -> (other_idx <> group_idx /\ P other_set)
               \/ exists j s, rest !! j = Some s /\ (S other_idx + j)%nat <> group_idx /\ P s)
    as Hunshift.
  { intros P (j & s & Hl & Hj & HP). destruct j as [|j].
    - injection Hl as ->. left. split; [|done]. by rewrite Nat.add_0_r in Hj.
    - right. exists j, s. split; [done|]. split; [lia|done]. }
  destruct (Nat.eqb_spec other_idx group_idx) as [->|Hne].
  - specialize (IH (S group_idx) has_twin has_intersection). cbv zeta in IH |- *.
    destruct IH as [IH1 IH2]. rewrite IH1, IH2.
    split; (split; [intros [?|H]; [by left|right; by apply Hshift]|]);
      (intros [?|H]; [by left|]); apply Hunshift in H as [[? _]|H]; try done; by right.
  - set (ht := has_twin || bool_decide (current_set = other_set)).
    set (hi := has_intersection || negb (bool_decide (current_set ∩ other_set = ∅))).
    assert (ht = true <-> has_twin = true \/ current_set = other_set) as Hht.
    { unfold ht. rewrite orb_true_iff, bool_decide_eq_true. done. }
    assert (hi = true <-> has_intersection = true \/ current_set ∩ other_set <> ∅) as Hhi.
    { unfold hi. rewrite orb_true_iff, negb_true_iff, bool_decide_eq_false. done. }
    assert (forall (P : gset string -> Prop) (h : bool),
              (h = true \/ P other_set)
              \/ (exists j s, rest !! j = Some s /\ (S other_idx + j)%nat <> group_idx /\ P s)
              <-> h = true
                  \/ exists j s, (other_set :: rest) !! j = Some s
                                 /\ (other_idx + j)%nat <> group_idx /\ P s) as Hcombine.
    { intros P h. split.
      - intros [[?|HP]|H]; [by left| |right; by apply Hshift].
        right. exists 0%nat, other_set. rewrite Nat.add_0_r. done.
      - intros [?|H]; [left; by left|]. apply Hunshift in H as [[_ ?]|H].
        + left. by right.
        + by right. }
    destruct (ht && hi) eqn:Hboth.
    + apply andb_true_iff in Hboth as [Et Ei]. cbv zeta. cbn [fst snd].
      split; (split; [intros _|done]).
      * apply (Hcombine (fun s => current_set = s)). left. by apply Hht.
      * apply (Hcombine (fun s => current_set ∩ s <> ∅)). left. by apply Hhi.
    + specialize (IH (S other_idx) ht hi). cbv zeta in IH |- *.
      destruct IH as [IH1 IH2]. split.
      * rewrite IH1, Hht. apply (Hcombine (fun s => current_set = s)).
      * rewrite IH2, Hhi. apply (Hcombine (fun s => current_set ∩ s <> ∅)).
Qed.

(** X11: [_find_twin_and_intersections] on a group of the list.  The first
    flag tells whether another group has the same URL set, the second
    whether another group shares a URL with it; leaving the loop early
    changes neither. *)
Theorem find_twin_and_intersections_spec (group_idx : nat) (all_urls_sets : list (gset string))
    (current_set : gset string) :
  all_urls_sets !! group_idx = Some current_set ->
  (fst (_find_twin_and_intersections group_idx all_urls_sets) = true <->
     exists j s, all_urls_sets !! j = Some s /\ j <> group_idx /\ current_set = s)
  /\ (snd (_find_twin_and_intersections group_idx all_urls_sets) = true <->
        exists j s, all_urls_sets !! j = Some s /\ j <> group_idx
                    /\ current_set ∩ s <> ∅).
Proof.
  intros Hl. unfold _find_twin_and_intersections. rewrite Hl. cbn [from_option id].
  destruct (twin_and_intersections_spec group_idx current_set all_urls_sets 0 false false)
    as [H1 H2]. cbv zeta in H1, H2. cbn [Nat.add] in H1, H2.
  rewrite H1, H2. split; (split; [by intros [?|?]|by right]).
Qed.

Lemma find_twin_and_intersections_spec_witness :
  let sets : list (gset string) := [ {[ "/a"; "/b" ]}; {[ "/b"; "/a" ]}; {[ "/c" ]} ] in
  (fst (_find_twin_and_intersections 0 sets) = true <->
     exists j s, sets !! j = Some s /\ j <> 0%nat /\ {[ "/a"; "/b" ]} = s)
  /\ (snd (_find_twin_and_intersections 0 sets) = true <->
        exists j s, sets !! j = Some s /\ j <> 0%nat /\ {[ "/a"; "/b" ]} ∩ s <> ∅).
Proof.
  apply (find_twin_and_intersections_spec 0
           [ {[ "/a"; "/b" ]}; {[ "/b"; "/a" ]}; {[ "/c" ]} ] {[ "/a"; "/b" ]}).
  reflexivity.
Defined.

End TwinFacts.

(** ** URL helpers *)

Module UrlFacts.
Import Dom NewsGroupFinder.

Lemma chars_str l : Py.chars (Py.str l) = l.
Proof. apply String.list_ascii_of_string_of_list_ascii. Qed.

Lemma str_chars s : Py.str (Py.chars s) = s.
Proof. apply String.string_of_list_ascii_of_string. Qed.

Lemma chars_append s1 s2 :
  Py.chars (String.append s1 s2) = Py.chars s1 ++ Py.chars s2.
Proof.
  unfold Py.chars. induction s1 as [|c s1 IH]; [done|].
  change (String.append (String c s1) s2) with (String c (String.append s1 s2)).
  cbn [String.list_ascii_of_string app]. f_equal. exact IH.
Qed.

Lemma drop_while_app_stop (p : ascii -> bool) l c m :
  p c = false -> Py.drop_while p (l ++ c :: m) = Py.drop_while p l ++ c :: m.
Proof.
  intros Hc. induction l as [|x l IH]; cbn; [by rewrite Hc|].
  by destruct (p x).
Qed.

(** Stripping on the right leaves a front part alone that ends before
    a character that is not stripped. *)
Lemma rstrip_keeps_front (p : ascii -> bool) (pre rest : list ascii) c :
  p c = false ->
  rev (Py.drop_while p (rev (pre ++ c :: rest)))
  = pre ++ c :: rev (Py.drop_while p (rev rest)).
Proof.
  intros Hc. rewrite rev_app_distr. cbn [rev]. rewrite <- app_assoc. cbn [app].
  rewrite drop_while_app_stop by done. rewrite rev_app_distr. cbn [rev].
  rewrite rev_involutive, <- app_assoc. done.
Qed.

Lemma startswith_chars p s :
  Py.startswith p s = true <-> exists rest, Py.chars s = Py.chars p ++ rest.
Proof.
  unfold Py.startswith, Py.chars. revert s. induction p as [|c p IH]; intros s.
  - destruct s; cbn; split; eauto.
  - destruct s as [|c' s]; cbn.
    + split; [done|]. by intros (? & ?).
    + destruct (ascii_dec c c') as [->|Hne]; cbn.
      * rewrite IH. split; intros (rest & E).
        -- exists rest. by f_equal.
        -- exists rest. by injection E.
      * split; [done|]. intros (rest & [= ? _]). congruence.
Qed.

(** X12: [_make_absolute_url] with a base URL that begins with "http"
    always returns a URL that begins with "http", and leaves such a URL,
    its own results among them, as it is. *)
Theorem make_absolute_url_absolute (base_url url : string) :
  Py.startswith "http" base_url = true ->
  Py.startswith "http" (_make_absolute_url base_url url) = true
  /\ _make_absolute_url base_url (_make_absolute_url base_url url)
     = _make_absolute_url base_url url.
Proof.
  intros Hbase.
  assert (Py.startswith "http" (_make_absolute_url base_url url) = true) as H.
  { unfold _make_absolute_url. destruct (Py.startswith "http" url) eqn:Hurl; [done|].
    apply startswith_chars in Hbase as (rest & Hrest).
    apply startswith_chars. rewrite chars_append.
    unfold Py.rstrip_char, Py.rstrip_with. rewrite chars_str, Hrest.
    change (Py.chars "http" ++ rest)
      with (["h"; "t"; "t"]%char ++ "p"%char :: rest).
    rewrite rstrip_keeps_front by done. eexists. cbn. reflexivity. }
  split; [done|]. unfold _make_absolute_url at 1. by rewrite H.
Qed.

Lemma make_absolute_url_absolute_witness :
  Py.startswith "http" Examples.base_url = true
  /\ Py.startswith "http"
       (_make_absolute_url Examples.base_url "/news/acme-opens-new-plant") = true
  /\ _make_absolute_url Examples.base_url
       (_make_absolute_url Examples.base_url "/news/acme-opens-new-plant")
     = _make_absolute_url Examples.base_url "/news/acme-opens-new-plant".
Proof.
  split; [reflexivity|].
  apply (make_absolute_url_absolute Examples.base_url "/news/acme-opens-new-plant").
  reflexivity.
Defined.

(** *** Query strings and fragments *)

Lemma split_go_skip (p : ascii -> bool) l :
  Forall (fun c => p c = false) l ->
  forall cur m, Py.split_go p cur (l ++ m) = Py.split_go p (rev l ++ cur) m.
Proof.
  induction 1 as [|c l Hc _ IH]; intros cur m; [done|].
  cbn [app Py.split_go]. rewrite Hc, IH. cbn [rev]. by rewrite <- app_assoc.
Qed.

Lemma split_go_head (p : ascii -> bool) l :
  forall cur, exists l1, head (Py.split_go p cur l) = Some (Py.str (rev cur ++ l1)).
Proof.
  induction l as [|c l IH]; intros cur.
  - exists []. cbn. by rewrite app_nil_r.
  - cbn [Py.split_go]. destruct (p c).
    + exists []. cbn. by rewrite app_nil_r.
    + destruct (IH (c :: cur)) as (l1 & ->). exists (c :: l1).
      cbn [rev]. by rewrite <- app_assoc.
Qed.

(** The part of [l ++ c :: m] before the first separator: [l] when [c] is
    a separator and [l] holds none; more than [l ++ c] when [c] is none. *)
Lemma split_go_front (p : ascii -> bool) l c m :
  Forall (fun c => p c = false) l ->
  exists r,
    head (Py.split_go p [] (l ++ c :: m))
    = Some (Py.str (if p c then l else l ++ c :: r)).
Proof.
  intros Hl. rewrite (split_go_skip p l Hl). rewrite app_nil_r. cbn [Py.split_go].
  destruct (p c).
  - exists []. cbn. by rewrite rev_involutive.
  - destruct (split_go_head p m (c :: rev l)) as (l1 & ->). exists l1.
    cbn [rev]. by rewrite rev_involutive, <- app_assoc.
Qed.

Lemma split_go_whole (p : ascii -> bool) l :
  Forall (fun c => p c = false) l ->
  head (Py.split_go p [] l) = Some (Py.str l).
Proof.
  intros Hl. rewrite <- (app_nil_r l) at 1. rewrite (split_go_skip p l Hl).
  cbn. by rewrite app_nil_r, rev_involutive.
Qed.

Lemma meaningful_segment_suffix url c rest :
  Forall (fun x => x <> "?"%char /\ x <> "#"%char) (Py.chars url) ->
  c = "?"%char \/ c = "#"%char ->
  meaningful_segment (String.append url (String c rest)) = meaningful_segment url.
Proof.
  intros Hurl Hc.
  assert (Forall (fun x => Ascii.eqb "?" x = false) (Py.chars url)) as Hq.
  { eapply Forall_impl; [exact Hurl|]. intros x [H _]. apply Ascii.eqb_neq. congruence. }
  assert (Forall (fun x => Ascii.eqb "#" x = false) (Py.chars url)) as Hf.
  { eapply Forall_impl; [exact Hurl|]. intros x [_ H]. apply Ascii.eqb_neq. congruence. }
  assert (from_option id "" (head (Py.split "#" (from_option id ""
            (head (Py.split "?" (String.append url (String c rest)))))))
          = from_option id "" (head (Py.split "#" (from_option id ""
              (head (Py.split "?" url)))))) as E.
  { unfold Py.split at 2 4. rewrite chars_append.
    change (Py.chars (String c rest)) with (c :: Py.chars rest).
    rewrite (split_go_whole _ _ Hq). cbn [from_option id]. rewrite str_chars.
    destruct (split_go_front (Ascii.eqb "?") (Py.chars url) c (Py.chars rest) Hq)
      as (r & ->). cbn [from_option id].
    destruct Hc as [-> | ->]; cbn [Ascii.eqb Bool.eqb].
    - by rewrite str_chars.
    - unfold Py.split. rewrite chars_str.
      destruct (split_go_front (Ascii.eqb "#") (Py.chars url) "#" r Hf) as (r' & ->).
      by rewrite (split_go_whole _ _ Hf). }
  unfold meaningful_segment. by rewrite E.
Qed.

(** X13: a query string or a fragment does not count.  For a URL without
    [?] and [#], appending a query string or a fragment changes neither
    the length of the last path segment nor the verb test. *)
Theorem query_and_fragment_ignored (url : string) (c : ascii) (rest : string) :
  Forall (fun x => x <> "?"%char /\ x <> "#"%char) (Py.chars url) ->
  c = "?"%char \/ c = "#"%char ->
  _get_last_path_length (String.append url (String c rest)) = _get_last_path_length url
  /\ _has_verb_with_context (String.append url (String c rest))
     = _has_verb_with_context url.
Proof.
  intros Hurl Hc. unfold _get_last_path_length, _has_verb_with_context.
  by rewrite (meaningful_segment_suffix url c rest Hurl Hc).
Qed.

Lemma query_and_fragment_ignored_witness :
  _get_last_path_length "https://news.example.com/news/acme-opens-new-plant?page=2"
  = _get_last_path_length "https://news.example.com/news/acme-opens-new-plant"
  /\ _has_verb_with_context "https://news.example.com/news/acme-opens-new-plant?page=2"
     = _has_verb_with_context "https://news.example.com/news/acme-opens-new-plant".
Proof.
  apply (query_and_fragment_ignored
           "https://news.example.com/news/acme-opens-new-plant" "?" "page=2").
  - vm_compute. repeat (constructor; [split; discriminate|]). constructor.
  - left. reflexivity.
Defined.

End UrlFacts.

(** ** Recognising social-media links *)

Module SocialFacts.
Import Dom NewsGroupFinder UrlFacts.

(** A pattern that matches at the front of [s], whatever precedes [s],
    is found in every text that ends with [s]. *)
Lemma search_from_suffix (r : Re.re) (s : list ascii) :
  (forall bos, Re.match_front r bos s <> None) ->
  forall pre bos, Re.search_from r bos (pre ++ s) <> None.
Proof.
  intros Hs. induction pre as [|c pre IH]; intros bos.
  - cbn [app]. specialize (Hs bos). destruct s; cbn [Re.search_from];
      by destruct (Re.match_front r bos _).
  - cbn [app Re.search_from]. destruct (Re.match_front r bos _); [done|]. apply IH.
Qed.

Lemma found_suffix (r : Re.re) (pre s : string) :
  (forall bos, Re.match_front r bos (Py.chars s) <> None) ->
  Re.found r (String.append pre s) = true.
Proof.
  intros Hs. unfold Re.found, Re.search. rewrite chars_append.
  pose proof (search_from_suffix r (Py.chars s) Hs (Py.chars pre) true) as H.
  by destruct (Re.search_from r true _).
Qed.

Lemma social_pattern_front (domain : string) (post : string) :
  In domain ["facebook"; "twitter"; "instagram"; "linkedin"; "youtube";
             "tiktok"; "pinterest"; "reddit"; "whatsapp"] ->
  forall bos,
    Re.match_front (social_pattern domain) bos
      (Py.chars (String.append domain (String.append ".com/" post))) <> None.
Proof.
  intros Hd bos.
  repeat (destruct Hd as [<-|Hd]; [by destruct bos; vm_compute|]).
  done.
Qed.

Lemma social_pattern_end (domain : string) :
  In domain ["facebook"; "twitter"; "instagram"; "linkedin"; "youtube";
             "tiktok"; "pinterest"; "reddit"; "whatsapp"] ->
  forall bos,
    Re.match_front (social_pattern domain) bos
      (Py.chars (String.append domain ".com")) <> None.
Proof.
  intros Hd bos.
  repeat (destruct Hd as [<-|Hd]; [by destruct bos; vm_compute|]).
  done.
Qed.

(** X14: [_is_social_media_url] looks for the domain anywhere in the URL.
    A URL that contains one of the nine listed names followed by [.com/],
    or that ends with the name and [.com], is classified as social media
    whatever precedes the name: the optional boundary in front of the
    name excludes nothing. *)
Theorem social_domain_found_anywhere (domain pre post : string) :
  In domain ["facebook"; "twitter"; "instagram"; "linkedin"; "youtube";
             "tiktok"; "pinterest"; "reddit"; "whatsapp"] ->
  _is_social_media_url
    (String.append pre (String.append domain (String.append ".com/" post))) = 1%nat
  /\ _is_social_media_url (String.append pre (String.append domain ".com")) = 1%nat.
Proof.
  intros Hd.
  assert (forall url, Re.found (social_pattern domain) url = true ->
            _is_social_media_url url = 1%nat) as Hfound.
  { intros url Hurl. unfold _is_social_media_url. destruct (_ || _); [done|].
    assert (existsb (fun pattern => Re.found pattern url) social_patterns = true) as ->;
      [|done].
    apply existsb_exists. exists (social_pattern domain). split; [|done].
    unfold social_patterns. by apply in_map. }
  split; apply Hfound, found_suffix.
  - by apply social_pattern_front.
  - by apply social_pattern_end.
Qed.

Lemma social_domain_found_anywhere_witness :
  _is_social_media_url "https://news.example.com/share?via=twitter.com/acme" = 1%nat
  /\ _is_social_media_url "https://news.example.com/share?via=twitter.com" = 1%nat.
Proof.
  apply (social_domain_found_anywhere "twitter"
           "https://news.example.com/share?via=" "acme").
  simpl. tauto.
Defined.

End SocialFacts.

(** ** Wrapping again, and what the marking stages leave alone *)

Module StageFacts.
Import Dom DomFacts PathFacts LocateFacts LocatePaths AttrFacts Observe ArticleExtractor Exc.
Import AddressingFacts.

Lemma wrap_from_wrappers n :
  forall idx,
    length (List.filter is_wrapper (tags_of (snd (wrap_from idx n))))
    = (length (List.filter is_wrapper (tags_of n))
       + length (List.filter nonempty_text (strings_of n)))%nat.
Proof.
  induction n as [s|nm a cs IH] using node_ind; intros idx.
  - cbn [wrap_from strings_of List.filter]. by destruct (nonempty_text s).
  - rewrite wrap_from_tag. cbn [fst snd strings_of]. rewrite !tags_of_tag.
    cbn [List.filter]. rewrite (is_wrapper_children nm a _ cs).
    assert (forall idx,
      length (List.filter is_wrapper (flat_map tags_of (snd (wrap_list idx cs))))
      = (length (List.filter is_wrapper (flat_map tags_of cs))
         + length (List.filter nonempty_text (flat_map strings_of cs)))%nat) as H.
    { clear idx. induction cs as [|c cs IHcs]; intros idx; [done|].
      apply Forall_cons in IH as [IHc IH]. rewrite wrap_list_cons.
      cbn [fst snd flat_map].
      rewrite !List.filter_app, !length_app, IHc, (IHcs IH). lia. }
    destruct (is_wrapper (Tag nm a cs)); cbn [length]; rewrite H; lia.
Qed.

(** X4: every run of [_wrap_text_nodes] adds one wrapper for each
    non-empty text node, whether or not the text node is wrapped already,
    so a second run wraps every text again. *)
Theorem wrap_text_nodes_wraps_again (nm : string) (a : gmap string string)
    (cs : list node) :
  let soup := Tag nm a cs in
  let texts := List.filter nonempty_text (strings_of soup) in
  length (wrappers (_wrap_text_nodes soup))
  = (length (wrappers soup) + length texts)%nat
  /\ length (wrappers (_wrap_text_nodes (_wrap_text_nodes soup)))
     = (length (wrappers soup) + 2 * length texts)%nat.
Proof.
  cbv zeta.
  assert (forall nm a cs,
    length (wrappers (_wrap_text_nodes (Tag nm a cs)))
    = (length (wrappers (Tag nm a cs))
       + length (List.filter nonempty_text (strings_of (Tag nm a cs))))%nat) as H.
  { intros nm' a' cs'. pose proof (wrap_from_wrappers (Tag nm' a' cs') 1) as H.
    unfold _wrap_text_nodes, wrappers, find_all.
    rewrite wrap_from_tag in H |- *. cbn [snd contents] in *.
    rewrite !tags_of_tag in H. cbn [List.filter] in H.
    rewrite (is_wrapper_children nm' a' _ cs') in H.
    destruct (is_wrapper (Tag nm' a' cs')); cbn [length] in H; lia. }
  split; [apply H|].
  assert (_wrap_text_nodes (Tag nm a cs) = Tag nm a (snd (wrap_list 1 cs))) as E.
  { unfold _wrap_text_nodes. by rewrite wrap_from_tag. }
  assert (strings_of (_wrap_text_nodes (Tag nm a cs)) = strings_of (Tag nm a cs)) as Es.
  { unfold _wrap_text_nodes. by destruct (wrap_from_spec (Tag nm a cs) 1) as (_ & -> & _). }
  pose proof (H nm a (snd (wrap_list 1 cs))) as H2. rewrite <- E in H2.
  rewrite H2, H, Es. lia.
Qed.

Section Stages.
Variable json_loads : string -> option json.
Variable json_dumps : list string -> string.
Variable datetime : Type.
Variable dateutil_parse : string -> option datetime.
Variable in_future : datetime -> option bool.
Variable datetime_str : datetime -> string.

Lemma without_attrs_set_attr_opt keys p key v soup :
  key ∈ keys -> without_attrs keys (set_attr_opt p key v soup) = without_attrs keys soup.
Proof.
  intros Hin. apply (without_attrs_alter_at keys (with_attr_opt key v)).
  intros t. by apply without_attrs_with_attr_opt.
Qed.

Lemma mark_title_frame soup soup' :
  _mark_title json_loads soup = Return soup' ->
  without_attrs [title_attr] soup' = without_attrs [title_attr] soup.
Proof.
  unfold _mark_title. destruct (best_title _ soup) as [[best|]|e]; cbn [bind];
    intros [= <-]; [|done].
  destruct (find_in _ _); [|done]. apply without_attrs_set_attr. by left.
Qed.

Lemma mark_date_frame soup :
  without_attrs date_keys (_mark_date json_loads datetime dateutil_parse in_future
                             datetime_str soup)
  = without_attrs date_keys soup.
Proof.
  unfold _mark_date. destruct (date_choice _ _ _ _ soup) as [[element date]|]; [|done].
  unfold mark_date_at. rewrite !without_attrs_set_attr; [done|by left|right; by left].
Qed.

Lemma mark_author_frame probes soup :
  without_attrs metadata_keys (mark_author probes soup) = without_attrs metadata_keys soup.
Proof.
  induction probes as [|[is_meta q] rest IH]; [done|]. cbn [mark_author].
  destruct (find_in _ _); [|done].
  rewrite without_attrs_set_attr_opt, without_attrs_set_attr; [done|by left|].
  right. by left.
Qed.

Lemma mark_keywords_frame soup :
  without_attrs metadata_keys (mark_keywords json_dumps soup)
  = without_attrs metadata_keys soup.
Proof.
  unfold mark_keywords. destruct (find_in _ _); [|done].
  rewrite !without_attrs_set_attr; [done|by left|].
  do 2 right. by left.
Qed.

Lemma mark_category_frame soup :
  without_attrs metadata_keys (mark_category soup) = without_attrs metadata_keys soup.
Proof.
  unfold mark_category. destruct (find_in _ _); [|done].
  rewrite without_attrs_set_attr_opt, without_attrs_set_attr; [done|by left|].
  do 3 right. by left.
Qed.

Lemma mark_metadata_frame soup :
  without_attrs metadata_keys (_mark_metadata json_dumps soup)
  = without_attrs metadata_keys soup.
Proof.
  unfold _mark_metadata.
  by rewrite mark_category_frame, mark_keywords_frame, mark_author_frame.
Qed.

Lemma apply_events_frame keys evs :
  Forall (fun ev => match ev with Write _ key _ => key ∈ keys | Boundary _ => True end) evs ->
  forall soup, without_attrs keys (foldl apply_event soup evs) = without_attrs keys soup.
Proof.
  induction 1 as [|ev evs Hev _ IH]; intros soup; [done|]. cbn [foldl].
  rewrite IH. destruct ev as [p key v|p]; [|done]. by apply without_attrs_set_attr.
Qed.

Lemma mark_content_frame soup soup' :
  _mark_content soup = Return soup' ->
  without_attrs content_keys soup' = without_attrs content_keys soup.
Proof.
  unfold _mark_content. pose proof (MarkFacts.content_walk_keys soup) as H.
  destruct (content_walk soup) as [[u|e] st]; [|done]. intros [= <-].
  by apply apply_events_frame.
Qed.

(** X7: each marking stage assigns its own attributes and nothing else:
    with the attributes of the stage set aside, the document it gives is
    the document it was given. *)
Theorem marking_stages_touch_own_attributes (soup : node) :
  match _mark_title json_loads soup with
  | Return soup' => without_attrs [title_attr] soup' = without_attrs [title_attr] soup
  | Raise _ => True
  end
  /\ without_attrs date_keys
       (_mark_date json_loads datetime dateutil_parse in_future datetime_str soup)
     = without_attrs date_keys soup
  /\ match _mark_content soup with
     | Return soup' => without_attrs content_keys soup' = without_attrs content_keys soup
     | Raise _ => True
     end
  /\ without_attrs metadata_keys (_mark_metadata json_dumps soup)
     = without_attrs metadata_keys soup.
Proof.
  repeat split.
  - pose proof (mark_title_frame soup) as H.
    destruct (_mark_title json_loads soup) as [soup'|e]; [by apply H|done].
  - apply mark_date_frame.
  - pose proof (mark_content_frame soup) as H.
    destruct (_mark_content soup) as [soup'|e]; [by apply H|done].
  - apply mark_metadata_frame.
Qed.

Lemma without_attrs_twice keys keys' n :
  (forall k, k ∈ keys -> k ∈ keys') ->
  without_attrs keys' (without_attrs keys n) = without_attrs keys' n.
Proof.
  intros Hsub. induction n as [s|nm a cs IH] using node_ind; [done|].
  cbn [without_attrs]. f_equal.
  - apply map_eq. intros k. rewrite !lookup_foldr_delete.
    destruct (bool_decide (k ∈ keys')) eqn:Hk'; [done|].
    apply bool_decide_eq_false in Hk'. rewrite bool_decide_eq_false_2; [done|].
    intros Hk. by apply Hk', Hsub.
  - rewrite map_map. apply map_ext_Forall. exact IH.
Qed.

Lemma without_attrs_more keys keys' n n' :
  (forall k, k ∈ keys -> k ∈ keys') ->
  without_attrs keys n = without_attrs keys n' ->
  without_attrs keys' n = without_attrs keys' n'.
Proof.
  intros Hsub H.
  by rewrite <- (without_attrs_twice keys keys' n), H, without_attrs_twice.
Qed.

Lemma strings_of_without_attrs keys n : strings_of (without_attrs keys n) = strings_of n.
Proof.
  induction n as [s|nm a cs IH] using node_ind; [done|]. cbn [without_attrs strings_of].
  induction cs as [|c cs IHcs]; [done|]. apply Forall_cons in IH as [Hc IH].
  cbn [map flat_map]. by rewrite Hc, (IHcs IH).
Qed.

Variable driver_get : string -> option exn.
Variable challenge_wait : string -> wait_outcome.
Variable page_source : string -> outcome string.
Variable parse_html : string -> outcome node.
Variable store_original : node -> option exn.

(** X8: when [extract_article] returns a labelled soup, it is the page
    that the browser gave, parsed, with its texts wrapped and its
    elements addressed, and with nothing but the label attributes added:
    set the label attributes aside and the two documents are the same.
    The texts are those of the parsed page, in the same order. *)
Theorem extract_article_only_labels (url : string) :
  match extract_article json_loads json_dumps datetime dateutil_parse in_future
          datetime_str driver_get challenge_wait page_source parse_html
          store_original url with
  | Return (LabeledSoup soup) =>
      exists source parsed,
        page_source url = Return source
        /\ parse_html source = Return parsed
        /\ without_attrs label_keys soup
           = without_attrs label_keys (_label_elements (_wrap_text_nodes parsed))
        /\ strings_of soup = strings_of parsed
  | _ => True
  end.
Proof.
  unfold extract_article, extract_body.
  destruct (driver_get url) as [e|]; [done|].
  destruct (negb (_handle_cloudflare (challenge_wait url))); [done|].
  destruct (page_source url) as [source|e]; [|done]. cbn [bind try_except].
  destruct (parse_html source) as [parsed|e] eqn:Hparse; [|done]. cbn [bind try_except].
  destruct (store_original _) as [e|]; [done|]. cbn [from_option bind try_except].
  set (addressed := _label_elements (_wrap_text_nodes parsed)).
  destruct (_mark_title json_loads addressed) as [titled|e] eqn:Htitle; [|done].
  cbn [bind try_except].
  destruct (_mark_content _) as [marked|e] eqn:Hcontent; [|done]. cbn [bind try_except].
  assert (without_attrs label_keys (_mark_metadata json_dumps marked)
          = without_attrs label_keys addressed) as Hframe.
  { etrans; [apply (without_attrs_more metadata_keys); [|apply mark_metadata_frame]|].
    { intros k Hk. unfold label_keys. set_unfold. tauto. }
    etrans; [apply (without_attrs_more content_keys);
             [|exact (mark_content_frame _ _ Hcontent)]|].
    { intros k Hk. unfold label_keys. set_unfold. tauto. }
    etrans; [apply (without_attrs_more date_keys); [|apply mark_date_frame]|].
    { intros k Hk. unfold label_keys. set_unfold. tauto. }
    apply (without_attrs_more [title_attr]); [|exact (mark_title_frame _ _ Htitle)].
    intros k Hk. unfold label_keys. set_unfold. tauto. }
  exists source, parsed. split; [done|]. split; [exact Hparse|]. split; [exact Hframe|].
  rewrite <- (strings_of_without_attrs label_keys), Hframe, strings_of_without_attrs.
  unfold addressed.
  destruct (_wrap_text_nodes parsed) as [s|nm a cs] eqn:Hwrap.
  - cbn [_label_elements]. rewrite <- Hwrap. unfold _wrap_text_nodes.
    by destruct (wrap_from_spec parsed 1) as (_ & -> & _).
  - cbn [_label_elements strings_of].
    destruct (label_list_spec cs 0) as (_ & -> & _).
    change (flat_map strings_of cs) with (strings_of (Tag nm a cs)).
    rewrite <- Hwrap. unfold _wrap_text_nodes.
    by destruct (wrap_from_spec parsed 1) as (_ & -> & _).
Qed.

End Stages.
End StageFacts.

(** ** Methods that talk to the browser *)

Module BrowserFacts.
Import Dom Exc NewsGroupFinder.

Section Runs.
Variable element : Type.
Variable world : Type.
Variable browser : forall X, op element X -> world -> outcome X * world.

Local Abbreviation run p w := (NewsGroupFinder.run element world browser p w).
Local Abbreviation ensures p Q := (NewsGroupFinder.ensures element world browser p Q).
Local Abbreviation prog := (NewsGroupFinder.prog element).

Lemma run_bind {A B} (m : prog A) (f : A -> prog B) :
  forall w,
    run (pbind element m f) w
    = match run m w with
      | (Return a, w', tr) =>
          let '(r, w'', tr') := run (f a) w' in (r, w'', tr ++ tr')
      | (Raise e, w', tr) => (Raise e, w', tr)
      end.
Proof.
  induction m as [a|e|X o k IH]; intros w; cbn [pbind NewsGroupFinder.run].
  - by destruct (run (f a) w) as [[r w''] tr'].
  - done.
  - destruct (browser X o w) as [r w']. rewrite IH.
    destruct (run (k r) w') as [[[a|e] w''] tr]; [|done].
    by destruct (run (f a) w'') as [[r' w3] tr'].
Qed.

Lemma run_try {A} (body : prog A) (handler : exn -> prog A) :
  forall w,
    run (NewsGroupFinder.try_except element body handler) w
    = match run body w with
      | (Return a, w', tr) => (Return a, w', tr)
      | (Raise e, w', tr) =>
          let '(r, w'', tr') := run (handler e) w' in (r, w'', tr ++ tr')
      end.
Proof.
  induction body as [a|e|X o k IH]; intros w;
    cbn [NewsGroupFinder.try_except NewsGroupFinder.run].
  - done.
  - by destruct (run (handler e) w) as [[r w''] tr'].
  - destruct (browser X o w) as [r w']. rewrite IH.
    destruct (run (k r) w') as [[[a|e] w''] tr]; [done|].
    by destruct (run (handler e) w'') as [[r' w3] tr'].
Qed.

Lemma run_finally {A} (body : prog A) (cleanup : prog unit) :
  forall w,
    run (finally element body cleanup) w
    = let '(r, w', tr) := run body w in
      let '(c, w'', tr') := run cleanup w' in
      (match c with Return _ => r | Raise e => Raise e end, w'', tr ++ tr').
Proof.
  induction body as [a|e|X o k IH]; intros w; cbn [finally NewsGroupFinder.run].
  - rewrite run_bind. destruct (run cleanup w) as [[[u|e] w''] tr']; cbn;
      by rewrite ?app_nil_r.
  - rewrite run_bind. destruct (run cleanup w) as [[[u|e'] w''] tr']; cbn;
      by rewrite ?app_nil_r.
  - destruct (browser X o w) as [r w']. rewrite IH.
    destruct (run (k r) w') as [[r' w''] tr].
    by destruct (run cleanup w'') as [[c w3] tr'].
Qed.

Lemma run_call {X} (o : op element X) :
  forall w,
    run (call element o) w = let '(r, w') := browser X o w in (r, w', [Called o r]).
Proof.
  intros w. unfold call. cbn [NewsGroupFinder.run].
  by destruct (browser X o w) as [[x|e] w'].
Qed.

Lemma ensures_ret {A} (a : A) (Q : outcome A -> list (event element) -> Prop) :
  Q (Return a) [] -> ensures (Ret a) Q.
Proof. by intros H w. Qed.

Lemma ensures_throw {A} e (Q : outcome A -> list (event element) -> Prop) :
  Q (Raise e) [] -> ensures (Throw e) Q.
Proof. by intros H w. Qed.

Lemma ensures_call {X} (o : op element X) (Q : outcome X -> list (event element) -> Prop) :
  (forall r, Q r [Called o r]) -> ensures (call element o) Q.
Proof.
  intros H w. unfold NewsGroupFinder.ensures, result_of, trace_of, call.
  cbn [NewsGroupFinder.run]. destruct (browser X o w) as [[x|e] w']; cbn; apply H.
Qed.

Lemma ensures_lift {A} (r : outcome A) (Q : outcome A -> list (event element) -> Prop) :
  Q r [] -> ensures (lift element r) Q.
Proof. intros H w. by destruct r. Qed.

Lemma ensures_weaken {A} (p : prog A) (P Q : outcome A -> list (event element) -> Prop) :
  ensures p P -> (forall r tr, P r tr -> Q r tr) -> ensures p Q.
Proof. intros Hp H w. apply H, Hp. Qed.

Lemma ensures_conj {A} (p : prog A) (P Q : outcome A -> list (event element) -> Prop) :
  ensures p P -> ensures p Q -> ensures p (fun r tr => P r tr /\ Q r tr).
Proof. intros HP HQ w. split; [apply HP|apply HQ]. Qed.

Lemma ensures_true {A} (p : prog A) : ensures p (fun _ _ => True).
Proof. by intros w. Qed.

Lemma ensures_bind {A B} (m : prog A) (f : A -> prog B)
    (P : outcome A -> list (event element) -> Prop)
    (Q : outcome B -> list (event element) -> Prop) :
  ensures m P ->
  (forall a tr, P (Return a) tr -> ensures (f a) (fun r tr' => Q r (tr ++ tr'))) ->
  (forall e tr, P (Raise e) tr -> Q (Raise e) tr) ->
  ensures (pbind element m f) Q.
Proof.
  intros Hm Hf He w. unfold NewsGroupFinder.ensures, result_of, trace_of.
  rewrite run_bind. specialize (Hm w).
  unfold NewsGroupFinder.ensures, result_of, trace_of in Hm.
  destruct (run m w) as [[[a|e] w'] tr]; cbn [fst snd] in Hm.
  - specialize (Hf a tr Hm w').
    unfold NewsGroupFinder.ensures, result_of, trace_of in Hf.
    by destruct (run (f a) w') as [[r w''] tr'].
  - by apply He.
Qed.

Lemma ensures_try {A} (body : prog A) (handler : exn -> prog A)
    (P Q : outcome A -> list (event element) -> Prop) :
  ensures body P ->
  (forall a tr, P (Return a) tr -> Q (Return a) tr) ->
  (forall e tr, P (Raise e) tr -> ensures (handler e) (fun r tr' => Q r (tr ++ tr'))) ->
  ensures (NewsGroupFinder.try_except element body handler) Q.
Proof.
  intros Hb Hr Hh w. unfold NewsGroupFinder.ensures, result_of, trace_of.
  rewrite run_try. specialize (Hb w).
  unfold NewsGroupFinder.ensures, result_of, trace_of in Hb.
  destruct (run body w) as [[[a|e] w'] tr]; cbn [fst snd] in Hb.
  - by apply Hr.
  - specialize (Hh e tr Hb w').
    unfold NewsGroupFinder.ensures, result_of, trace_of in Hh.
    by destruct (run (handler e) w') as [[r w''] tr'].
Qed.

Lemma ensures_finally {A} (body : prog A) (cleanup : prog unit)
    (P : outcome A -> list (event element) -> Prop)
    (C : outcome unit -> list (event element) -> Prop)
    (Q : outcome A -> list (event element) -> Prop) :
  ensures body P -> ensures cleanup C ->
  (forall r tr c tr', P r tr -> C c tr' ->
     Q (match c with Return _ => r | Raise e => Raise e end) (tr ++ tr')) ->
  ensures (finally element body cleanup) Q.
Proof.
  intros Hb Hc H w. unfold NewsGroupFinder.ensures, result_of, trace_of.
  rewrite run_finally. specialize (Hb w).
  unfold NewsGroupFinder.ensures, result_of, trace_of in Hb.
  destruct (run body w) as [[r w'] tr]. specialize (Hc w').
  unfold NewsGroupFinder.ensures, result_of, trace_of in Hc.
  destruct (run cleanup w') as [[c w''] tr']. by apply H.
Qed.

End Runs.
End BrowserFacts.

(** ** Calls a method does not make, and calls that decide its answer *)

Module QuietFacts.
Import Dom Exc NewsGroupFinder BrowserFacts.

Section Quiet.
#[local] Set Default Proof Using "Type*".
Variable element : Type.
Variable world : Type.
Variable browser : forall X, op element X -> world -> outcome X * world.
Variable year_share_above : nat -> nat -> bool.
Variable base_url : string.
Variable parse_html : string -> outcome node.

Local Abbreviation ensures p Q := (NewsGroupFinder.ensures element world browser p Q).
Local Abbreviation prog := (NewsGroupFinder.prog element).

(** A kind of call, among the calls named in [names]. *)
Variable kind : event element -> bool.
Variable names : list op_name.
Hypothesis kind_names : forall ev, kind ev = true -> In (called element ev) names.

Local Abbreviation quiet p := (ensures p (fun _ tr => none_of element kind tr)).

Lemma none_of_app tr1 tr2 :
  none_of element kind tr1 -> none_of element kind tr2 ->
  none_of element kind (tr1 ++ tr2).
Proof. unfold none_of. intros H1 H2. by rewrite forallb_app, H1, H2. Qed.

Lemma quiet_ret {A} (a : A) : quiet (Ret a).
Proof. by apply ensures_ret. Qed.

Lemma quiet_throw {A} e : quiet (@Throw element A e).
Proof. by apply ensures_throw. Qed.

Lemma quiet_lift {A} (r : outcome A) : quiet (lift element r).
Proof. by apply ensures_lift. Qed.

Lemma quiet_call {X} (o : op element X) :
  ~ In (name_of element o) names -> quiet (call element o).
Proof.
  intros H. apply ensures_call. intros r. unfold none_of. cbn.
  destruct (kind (Called o r)) eqn:E; [|done]. by apply kind_names in E.
Qed.

Lemma quiet_bind {A B} (m : prog A) (f : A -> prog B) :
  quiet m -> (forall a, quiet (f a)) -> quiet (pbind element m f).
Proof.
  intros Hm Hf. eapply ensures_bind; [exact Hm| |done].
  intros a tr Htr. eapply ensures_weaken; [apply Hf|].
  intros r tr' Htr'. by apply none_of_app.
Qed.

Lemma quiet_try {A} (body : prog A) (handler : exn -> prog A) :
  quiet body -> (forall e, quiet (handler e)) ->
  quiet (NewsGroupFinder.try_except element body handler).
Proof.
  intros Hb Hh. eapply ensures_try; [exact Hb|done|].
  intros e tr Htr. eapply ensures_weaken; [apply Hh|].
  intros r tr' Htr'. by apply none_of_app.
Qed.

Lemma quiet_except {A} cls (body handler : prog A) :
  quiet body -> quiet handler -> quiet (except_class element cls body handler).
Proof.
  intros Hb Hh. apply quiet_try; [done|]. intros e.
  destruct (String.eqb _ cls); [done|apply quiet_throw].
Qed.

Ltac listed := solve [cbn; repeat first [left; reflexivity | right]].

(** A call whose name the hypotheses at hand keep out of [names]. *)
Ltac other_call :=
  apply quiet_call; cbn [name_of];
  match goal with
  | H : forall t, In t _ -> ~ In t names |- _ => apply H; listed
  end.

(** From names kept out of [names] to fewer of them. *)
Ltac narrow H :=
  intros t Ht; apply H; cbn in Ht;
  repeat (destruct Ht as [<-|Ht]; [listed|]); destruct Ht.

Ltac quiet_step :=
  first [ apply quiet_ret | apply quiet_throw | apply quiet_lift
        | other_call
        | apply quiet_bind; [|intros ?]
        | apply quiet_try; [|intros ?]
        | apply quiet_except ].

Ltac quiet_case :=
  match goal with
  | |- NewsGroupFinder.ensures _ _ _ (match ?x with _ => _ end) _ => destruct x
  | |- NewsGroupFinder.ensures _ _ _ (if ?b then _ else _) _ => destruct b
  end.

Ltac quiet_known :=
  match goal with
  | H : context [NewsGroupFinder.ensures] |- _ => solve [apply H]
  end.

Ltac quiet_all := repeat first [quiet_known | quiet_step | quiet_case].

Lemma handle_cloudflare_quiet :
  (forall t, In t [WaitForChallengeOp; FindElementsOp; ClickOp] -> ~ In t names) ->
  quiet (_handle_cloudflare element).
Proof. intros Hn. unfold _handle_cloudflare. quiet_all. Qed.

Lemma count_years_quiet options :
  (forall t, In t [TextOp] -> ~ In t names) ->
  quiet (count_years element options).
Proof. intros Hn. induction options as [|opt rest IH]; cbn [count_years]; quiet_all. Qed.

Lemma any_all_quiet options :
  (forall t, In t [TextOp] -> ~ In t names) ->
  quiet (any_all element options).
Proof. intros Hn. induction options as [|opt rest IH]; cbn [any_all]; quiet_all. Qed.

Lemma try_selector_quiet selector :
  (forall t, In t [MakeSelectOp; OptionsOp; TextOp] -> ~ In t names) ->
  quiet (try_selector element year_share_above selector).
Proof.
  intros Hn. unfold try_selector.
  pose proof (fun o => count_years_quiet o ltac:(narrow Hn)).
  pose proof (fun o => any_all_quiet o ltac:(narrow Hn)).
  quiet_all.
Qed.

Lemma selector_loop_quiet selectors :
  (forall t, In t [MakeSelectOp; OptionsOp; TextOp] -> ~ In t names) ->
  quiet (selector_loop element year_share_above selectors).
Proof.
  intros Hn. pose proof (fun o => try_selector_quiet o ltac:(narrow Hn)).
  induction selectors as [|selector rest IH]; cbn [selector_loop]; quiet_all.
Qed.

Lemma find_year_selector_quiet :
  (forall t, In t [FindElementsOp; MakeSelectOp; OptionsOp; TextOp] -> ~ In t names) ->
  quiet (_find_year_selector element year_share_above).
Proof.
  intros Hn. unfold _find_year_selector.
  pose proof (fun o => selector_loop_quiet o ltac:(narrow Hn)). quiet_all.
Qed.

Lemma option_texts_quiet options :
  (forall t, In t [TextOp] -> ~ In t names) ->
  quiet (option_texts element options).
Proof. intros Hn. induction options as [|opt rest IH]; cbn [option_texts]; quiet_all. Qed.

Lemma get_year_options_quiet :
  (forall t, In t [FindElementsOp; MakeSelectOp; OptionsOp; TextOp] -> ~ In t names) ->
  quiet (_get_year_options element year_share_above).
Proof.
  intros Hn. unfold _get_year_options.
  pose proof (find_year_selector_quiet ltac:(narrow Hn)).
  pose proof (fun o => option_texts_quiet o ltac:(narrow Hn)). quiet_all.
Qed.

Lemma select_all_option_quiet selector options :
  (forall t, In t [TextOp; SelectByVisibleTextOp] -> ~ In t names) ->
  quiet (select_all_option element selector options).
Proof.
  intros Hn. induction options as [|opt rest IH]; cbn [select_all_option]; quiet_all.
Qed.

Lemma select_year_option_quiet selector year_str options :
  (forall t, In t [TextOp; SelectByVisibleTextOp] -> ~ In t names) ->
  quiet (select_year_option element selector year_str options).
Proof.
  intros Hn. induction options as [|opt rest IH]; cbn [select_year_option]; quiet_all.
Qed.

Lemma select_year_quiet year :
  (forall t, In t [FindElementsOp; MakeSelectOp; OptionsOp; TextOp; SelectByVisibleTextOp] -> ~ In t names) ->
  quiet (_select_year element year_share_above year).
Proof.
  intros Hn. unfold _select_year.
  pose proof (find_year_selector_quiet ltac:(narrow Hn)).
  pose proof (fun s o => select_all_option_quiet s o ltac:(narrow Hn)).
  pose proof (fun s y o => select_year_option_quiet s y o ltac:(narrow Hn)). quiet_all.
Qed.


Lemma try_load_more_quiet pattern :
  (forall t, In t [FindElementOp; ScrollIntoViewOp; ClickOp; ScriptClickOp] -> ~ In t names) ->
  quiet (try_load_more element pattern).
Proof. intros Hn. unfold try_load_more, click_with_fallback. quiet_all. Qed.

Lemma load_more_loop_quiet patterns :
  (forall t, In t [FindElementOp; ScrollIntoViewOp; ClickOp; ScriptClickOp] -> ~ In t names) ->
  quiet (load_more_loop element patterns).
Proof.
  intros Hn. pose proof (fun p => try_load_more_quiet p Hn).
  induction patterns as [|pattern rest IH]; cbn [load_more_loop]; quiet_all.
Qed.

Lemma handle_load_more_quiet :
  (forall t, In t [FindElementOp; ScrollIntoViewOp; ClickOp; ScriptClickOp] -> ~ In t names) ->
  quiet (handle_load_more element).
Proof.
  intros Hn. unfold handle_load_more. pose proof (fun p => load_more_loop_quiet p Hn).
  quiet_all.
Qed.

Lemma try_next_quiet pattern :
  (forall t, In t [FindElementOp; TagNameOp; FindChildOp; CurrentUrlOp; ScrollIntoViewOp; ClickOp; ScriptClickOp; WaitUrlChangeOp] -> ~ In t names) ->
  quiet (try_next element pattern).
Proof.
  intros Hn. unfold try_next, find_clickable, click_with_fallback. quiet_all.
Qed.

Lemma pagination_loop_quiet patterns :
  (forall t, In t [FindElementOp; TagNameOp; FindChildOp; CurrentUrlOp; ScrollIntoViewOp; ClickOp; ScriptClickOp; WaitUrlChangeOp] -> ~ In t names) ->
  quiet (pagination_loop element patterns).
Proof.
  intros Hn. pose proof (fun p => try_next_quiet p Hn).
  induction patterns as [|pattern rest IH]; cbn [pagination_loop]; quiet_all.
Qed.

Lemma handle_pagination_quiet :
  (forall t, In t [FindElementOp; TagNameOp; FindChildOp; CurrentUrlOp; ScrollIntoViewOp; ClickOp; ScriptClickOp; WaitUrlChangeOp] -> ~ In t names) ->
  quiet (handle_pagination element).
Proof.
  intros Hn. unfold handle_pagination. pose proof (fun p => pagination_loop_quiet p Hn).
  quiet_all.
Qed.

Lemma classify_page_quiet :
  (forall t, In t [PageSourceOp] -> ~ In t names) ->
  quiet (classify_page element base_url parse_html).
Proof. intros Hn. unfold classify_page. quiet_all. Qed.

Lemma navigation_loop_quiet attempts_left :
  (forall t, In t [PageSourceOp; FindElementOp; TagNameOp; FindChildOp; CurrentUrlOp; ScrollIntoViewOp; ClickOp; ScriptClickOp; WaitUrlChangeOp] -> ~ In t names) ->
  forall news_groups,
    quiet (navigation_loop element base_url parse_html attempts_left news_groups).
Proof.
  intros Hn.
  pose proof (handle_load_more_quiet ltac:(narrow Hn)).
  pose proof (handle_pagination_quiet ltac:(narrow Hn)).
  pose proof (classify_page_quiet ltac:(narrow Hn)).
  induction attempts_left as [|n IH]; intros news_groups; cbn [navigation_loop];
    quiet_all.
Qed.

Lemma process_page_content_quiet max_attempts self :
  (forall t, In t [PageSourceOp; FindElementOp; TagNameOp; FindChildOp; CurrentUrlOp; ScrollIntoViewOp; ClickOp; ScriptClickOp; WaitUrlChangeOp] -> ~ In t names) ->
  quiet (_process_page_content element base_url parse_html max_attempts self).
Proof.
  intros Hn. unfold _process_page_content.
  pose proof (classify_page_quiet ltac:(narrow Hn)).
  pose proof (fun n g => navigation_loop_quiet n Hn g).
  quiet_all.
Qed.

Lemma process_years_quiet max_attempts years :
  (forall t, In t [PageSourceOp; FindElementOp; TagNameOp; FindChildOp; CurrentUrlOp; ScrollIntoViewOp; ClickOp; ScriptClickOp; WaitUrlChangeOp; FindElementsOp; MakeSelectOp; OptionsOp; TextOp; SelectByVisibleTextOp] -> ~ In t names) ->
  forall self,
    quiet (process_years element year_share_above base_url parse_html
             max_attempts years self).
Proof.
  intros Hn.
  pose proof (fun y => select_year_quiet y ltac:(narrow Hn)).
  pose proof (fun n s => process_page_content_quiet n s ltac:(narrow Hn)).
  induction years as [|year rest IH]; intros self; cbn [process_years]; quiet_all.
Qed.


(** **** Methods whose answer is decided by their last call *)

Local Abbreviation last_is tr :=
  (exists tr0 ev, tr = tr0 ++ [ev] /\ kind ev = true /\ none_of element kind tr0).

Local Abbreviation decides p :=
  (ensures p (fun r tr => match r with
                          | Return true => last_is tr
                          | _ => none_of element kind tr
                          end)).

Lemma last_is_after tr1 tr2 :
  none_of element kind tr1 -> last_is tr2 -> last_is (tr1 ++ tr2).
Proof.
  intros H1 (tr0 & ev & -> & Hev & H0). exists (tr1 ++ tr0), ev.
  rewrite app_assoc. split; [done|]. split; [done|]. by apply none_of_app.
Qed.

Lemma decides_ret_false : decides (Ret false).
Proof. by apply ensures_ret. Qed.

Lemma decides_bind {A} (m : prog A) (f : A -> prog bool) :
  quiet m -> (forall a, decides (f a)) -> decides (pbind element m f).
Proof.
  intros Hm Hf. eapply ensures_bind; [exact Hm| |done].
  intros a tr Htr. eapply ensures_weaken; [apply Hf|].
  intros [[|]|e] tr' Htr'; [by apply last_is_after|by apply none_of_app..].
Qed.

Lemma decides_loop (step rest : prog bool) :
  decides step -> decides rest ->
  decides (pbind element step (fun b => if b then Ret true else rest)).
Proof.
  intros Hs Hr. eapply ensures_bind; [exact Hs| |done].
  intros [|] tr Htr.
  - apply ensures_ret. by rewrite app_nil_r.
  - eapply ensures_weaken; [exact Hr|].
    intros [[|]|e] tr' Htr'; [by apply last_is_after|by apply none_of_app..].
Qed.

Lemma decides_try_false (body : prog bool) :
  decides body ->
  decides (NewsGroupFinder.try_except element body (fun _ => Ret false)).
Proof.
  intros Hb. eapply ensures_try; [exact Hb|done|].
  intros e tr Htr. apply ensures_ret. by rewrite app_nil_r.
Qed.

Lemma decides_except cls (body : prog bool) :
  decides body -> decides (except_class element cls body (Ret false)).
Proof.
  intros Hb. eapply ensures_try; [exact Hb|done|].
  intros e tr Htr. destruct (String.eqb _ cls).
  - apply ensures_ret. by rewrite app_nil_r.
  - apply ensures_throw. by rewrite app_nil_r.
Qed.

(** A call that decides: of the kind exactly when it returns. *)
Lemma decides_call {X} (o : op element X) :
  (forall r, kind (Called o r) = match r with Return _ => true | Raise _ => false end) ->
  decides (pbind element (call element o) (fun _ => Ret true)).
Proof.
  intros Hk. eapply ensures_bind; [apply (ensures_call _ _ _ o
    (fun r tr => tr = [Called o r]))| |].
  - done.
  - intros a tr ->. apply ensures_ret. exists [], (Called o (Return a)).
    by rewrite (Hk (Return a)).
  - intros e tr ->. unfold none_of. cbn. by rewrite (Hk (Raise e)).
Qed.

(** **** [find_all_news_groups] up to its last call *)

Lemma find_all_news_groups_quiet max_attempts flag :
  (forall t, In t [GetOp; WaitForChallengeOp; PageSourceOp; FindElementOp; TagNameOp; FindChildOp; CurrentUrlOp; ScrollIntoViewOp; ClickOp; ScriptClickOp; WaitUrlChangeOp; FindElementsOp; MakeSelectOp; OptionsOp; TextOp; SelectByVisibleTextOp] -> ~ In t names) ->
  ensures (find_all_news_groups element year_share_above base_url parse_html
             max_attempts flag)
    (fun r tr =>
       exists tr0 q,
         tr = tr0 ++ [Called Quit q] /\ none_of element kind tr0
         /\ match q with
            | Raise e => r = Raise e
            | Return _ =>
                match r with
                | Return _ => True
                | Raise e => exists e0, e = wrap_error e0
                end
            end).
Proof.
  intros Hn. unfold find_all_news_groups.
  eapply (ensures_finally _ _ _ _ _
            (fun r tr => none_of element kind tr
                         /\ match r with
                            | Return _ => True
                            | Raise e => exists e0, e = wrap_error e0
                            end)
            (fun c tr' => tr' = [Called Quit c])).
  - pose proof (handle_cloudflare_quiet ltac:(narrow Hn)).
    pose proof (find_year_selector_quiet ltac:(narrow Hn)).
    pose proof (get_year_options_quiet ltac:(narrow Hn)).
    pose proof (fun y => select_year_quiet y ltac:(narrow Hn)).
    pose proof (fun n s => process_page_content_quiet n s ltac:(narrow Hn)).
    pose proof (fun n y s => process_years_quiet n y ltac:(narrow Hn) s).
    apply ensures_conj.
    + quiet_all.
    + eapply ensures_try; [apply ensures_true| |].
      * done.
      * intros e tr _. apply ensures_throw. eauto.
  - apply ensures_call. done.
  - intros r tr c tr' [Hq Hr] ->. exists tr, c. split; [done|]. split; [done|].
    by destruct c.
Qed.

(** With no attempt allowed, the navigation is not entered. *)
Lemma process_page_content_0_quiet self :
  (forall t, In t [PageSourceOp] -> ~ In t names) ->
  quiet (_process_page_content element base_url parse_html 0 self).
Proof.
  intros Hn. unfold _process_page_content. cbn [navigation_loop].
  pose proof (classify_page_quiet ltac:(narrow Hn)). quiet_all.
Qed.

Lemma process_years_0_quiet years :
  (forall t, In t [PageSourceOp; FindElementsOp; MakeSelectOp; OptionsOp; TextOp; SelectByVisibleTextOp] -> ~ In t names) ->
  forall self,
    quiet (process_years element year_share_above base_url parse_html 0 years self).
Proof.
  intros Hn.
  pose proof (fun y => select_year_quiet y ltac:(narrow Hn)).
  pose proof (fun s => process_page_content_0_quiet s ltac:(narrow Hn)).
  induction years as [|year rest IH]; intros self; cbn [process_years]; quiet_all.
Qed.

Lemma find_all_news_groups_0_quiet flag :
  (forall t, In t [GetOp; WaitForChallengeOp; ClickOp; PageSourceOp; FindElementsOp; MakeSelectOp; OptionsOp; TextOp; SelectByVisibleTextOp] -> ~ In t names) ->
  (forall t, In t [QuitOp] -> ~ In t names) ->
  quiet (find_all_news_groups element year_share_above base_url parse_html 0 flag).
Proof.
  intros Hn Hq. unfold find_all_news_groups.
  pose proof (handle_cloudflare_quiet ltac:(narrow Hn)).
  pose proof (find_year_selector_quiet ltac:(narrow Hn)).
  pose proof (get_year_options_quiet ltac:(narrow Hn)).
  pose proof (fun y => select_year_quiet y ltac:(narrow Hn)).
  pose proof (fun s => process_page_content_0_quiet s ltac:(narrow Hn)).
  pose proof (fun y s => process_years_0_quiet y ltac:(narrow Hn) s).
  eapply (ensures_finally _ _ _ _ _ (fun _ tr => none_of element kind tr)
            (fun _ tr => none_of element kind tr)).
  - quiet_all.
  - apply quiet_call. apply Hq. by left.
  - intros r tr c tr' Hq1 Hq2. by apply none_of_app.
Qed.


(** **** The three methods that act once *)

Local Abbreviation returned r :=
  (match r with Return _ => true | Raise _ => false end).

Lemma click_decides e :
  (forall e r, kind (Called (Click e) r) = returned r) ->
  (forall e r, kind (Called (ScriptClick e) r) = returned r) ->
  decides (pbind element (click_with_fallback element e) (fun _ => Ret true)).
Proof.
  intros Hc Hs.
  assert (ensures (click_with_fallback element e)
            (fun r tr => match r with
                         | Return _ => last_is tr
                         | Raise _ => none_of element kind tr
                         end)) as H.
  { unfold click_with_fallback, except_class.
    eapply ensures_try;
      [apply (ensures_call _ _ _ (Click e) (fun r tr => tr = [Called (Click e) r]))| |].
    - done.
    - intros a tr ->. exists [], (Called (Click e) (Return a)). by rewrite Hc.
    - intros e0 tr ->.
      assert (none_of element kind [Called (Click e) (Raise e0)]) as Hfirst.
      { unfold none_of. cbn. by rewrite Hc. }
      destruct (String.eqb _ _).
      + apply ensures_call. intros [a|e1].
        * exists [Called (Click e) (Raise e0)], (Called (ScriptClick e) (Return a)).
          by rewrite Hs.
        * apply none_of_app; [done|]. unfold none_of. cbn. by rewrite Hs.
      + apply ensures_throw. by rewrite app_nil_r. }
  eapply ensures_bind; [exact H| |done].
  intros a tr Htr. apply ensures_ret. by rewrite app_nil_r.
Qed.

Lemma handle_load_more_decides :
  (forall t, In t [FindElementOp; ScrollIntoViewOp] -> ~ In t names) ->
  (forall e r, kind (Called (Click e) r) = returned r) ->
  (forall e r, kind (Called (ScriptClick e) r) = returned r) ->
  decides (handle_load_more element).
Proof.
  intros Hn Hc Hs. unfold handle_load_more. apply decides_try_false.
  induction load_more_patterns as [|pattern rest IH]; cbn [load_more_loop];
    [apply decides_ret_false|].
  apply decides_loop; [|exact IH]. unfold try_load_more. apply decides_try_false.
  apply decides_bind; [quiet_all|]. intros button.
  apply decides_bind; [quiet_all|]. intros _. by apply click_decides.
Qed.

Lemma handle_pagination_decides :
  (forall t, In t [FindElementOp; TagNameOp; FindChildOp; CurrentUrlOp; ScrollIntoViewOp; ClickOp; ScriptClickOp] -> ~ In t names) ->
  (forall u r, kind (Called (WaitUrlChange u) r) = returned r) ->
  decides (handle_pagination element).
Proof.
  intros Hn Hw. unfold handle_pagination. apply decides_try_false.
  induction next_patterns as [|pattern rest IH]; cbn [pagination_loop];
    [apply decides_ret_false|].
  apply decides_loop; [|exact IH]. unfold try_next. apply decides_except.
  apply decides_bind; [quiet_all|]. intros next_element.
  apply decides_bind; [unfold find_clickable; quiet_all|].
  intros [clickable|]; [|apply decides_ret_false].
  apply decides_bind; [quiet_all|]. intros current_url.
  apply decides_bind; [quiet_all|]. intros _.
  apply decides_bind; [unfold click_with_fallback; quiet_all|]. intros _.
  by apply decides_call.
Qed.

Lemma select_year_decides year :
  (forall t, In t [FindElementsOp; MakeSelectOp; OptionsOp; TextOp] -> ~ In t names) ->
  (forall s t r, kind (Called (SelectByVisibleText s t) r) = returned r) ->
  decides (_select_year element year_share_above year).
Proof.
  intros Hn Hs. unfold _select_year. apply decides_try_false.
  pose proof (find_year_selector_quiet ltac:(narrow Hn)).
  apply decides_bind; [quiet_all|]. intros found.
  destruct (fst found) as [selector|]; [|apply decides_ret_false].
  apply decides_bind; [quiet_all|]. intros _.
  apply decides_bind; [quiet_all|]. intros options.
  destruct year as [year_str|].
  - induction options as [|option rest IH]; cbn [select_year_option];
      [apply decides_ret_false|].
    apply decides_bind; [quiet_all|]. intros text.
    destruct (String.eqb _ _); [|exact IH]. by apply decides_call.
  - induction options as [|option rest IH]; cbn [select_all_option];
      [apply decides_ret_false|].
    apply decides_bind; [quiet_all|]. intros text.
    destruct (Py.contains _ _); [|exact IH].
    apply decides_bind; [quiet_all|]. intros text'. by apply decides_call.
Qed.

End Quiet.
End QuietFacts.

(** ** Navigation: what it never raises, what decides its answer, what it reads *)

Module NavigationFacts.
Import Dom Exc NewsGroupFinder BrowserFacts QuietFacts.

Section Navigation.
Variable element : Type.
Variable world : Type.
Variable browser : forall X, op element X -> world -> outcome X * world.
Variable year_share_above : nat -> nat -> bool.
Variable base_url : string.
Variable parse_html : string -> outcome node.

Local Abbreviation run p w := (NewsGroupFinder.run element world browser p w).
Local Abbreviation ensures p Q := (NewsGroupFinder.ensures element world browser p Q).

Lemma ensures_try_returns {A} (body : prog element A) (handler : exn -> prog element A) :
  (forall e, exists a, handler e = Ret a) ->
  ensures (NewsGroupFinder.try_except element body handler)
    (fun r _ => exists a, r = Return a).
Proof.
  intros Hh. eapply ensures_try; [apply ensures_true|eauto|].
  intros e tr _. destruct (Hh e) as [a ->]. apply ensures_ret. eauto.
Qed.

Lemma click_succeeded_names (ev : event element) :
  click_succeeded element ev = true -> In (called element ev) [ClickOp; ScriptClickOp].
Proof. destruct ev as [X o r]. destruct o; cbn; try done; tauto. Qed.

Lemma url_changed_names (ev : event element) :
  url_changed element ev = true -> In (called element ev) [WaitUrlChangeOp].
Proof. destruct ev as [X o r]. destruct o; cbn; try done; tauto. Qed.

Lemma selection_made_names (ev : event element) :
  selection_made element ev = true -> In (called element ev) [SelectByVisibleTextOp].
Proof. destruct ev as [X o r]. destruct o; cbn; try done; tauto. Qed.

Lemma is_quit_names (ev : event element) :
  is_quit element ev = true -> In (called element ev) [QuitOp].
Proof. destruct ev as [X o r]. destruct o; cbn; try done; tauto. Qed.

Lemma is_navigation_names (ev : event element) :
  is_navigation element ev = true
  -> In (called element ev)
       [FindElementOp; TagNameOp; FindChildOp; CurrentUrlOp; ScrollIntoViewOp;
        ScriptClickOp; WaitUrlChangeOp].
Proof. unfold is_navigation. destruct (called element ev); cbn; try done; tauto. Qed.

(** Names that differ from the ones listed. *)
Ltac other_names :=
  intros t Ht; cbn in Ht |- *;
  repeat (destruct Ht as [<-|Ht]; [intros [?|H']; [done|]; repeat (destruct H' as [?|H']; [done|]); done|]);
  done.

(** X16: [handle_load_more] never raises, and it returns [True] exactly
    when a click, native or scripted, went through; that click is then
    the last call it makes and the only click that went through. *)
Theorem handle_load_more_clicks_once (w : world) :
  let x := run (handle_load_more element) w in
  exists b,
    result_of element world x = Return b
    /\ if b then
         exists tr0 ev,
           trace_of element world x = tr0 ++ [ev]
           /\ click_succeeded element ev = true
           /\ none_of element (click_succeeded element) tr0
       else none_of element (click_succeeded element) (trace_of element world x).
Proof.
  cbv zeta.
  pose proof (handle_load_more_decides element world browser
                (click_succeeded element) [ClickOp; ScriptClickOp]
                click_succeeded_names) as Hd.
  pose proof (ensures_try_returns (load_more_loop element load_more_patterns)
                (fun _ => Ret false) (fun _ => ex_intro _ false eq_refl) w) as [b Hb].
  fold (handle_load_more element) in Hb. exists b. split; [done|].
  specialize (Hd ltac:(other_names) ltac:(by intros e [a|e']) ltac:(by intros e [a|e']) w).
  cbv beta in Hd. rewrite Hb in Hd. by destruct b.
Qed.

(** X17: [handle_pagination] never raises, and it returns [True] exactly
    when the wait for another URL came back; that wait is then the last
    call it makes, and no earlier wait came back. *)
Theorem handle_pagination_waits_for_url (w : world) :
  let x := run (handle_pagination element) w in
  exists b,
    result_of element world x = Return b
    /\ if b then
         exists tr0 ev,
           trace_of element world x = tr0 ++ [ev]
           /\ url_changed element ev = true
           /\ none_of element (url_changed element) tr0
       else none_of element (url_changed element) (trace_of element world x).
Proof.
  cbv zeta.
  pose proof (handle_pagination_decides element world browser
                (url_changed element) [WaitUrlChangeOp]
                url_changed_names) as Hd.
  pose proof (ensures_try_returns (pagination_loop element next_patterns)
                (fun _ => Ret false) (fun _ => ex_intro _ false eq_refl) w) as [b Hb].
  fold (handle_pagination element) in Hb. exists b. split; [done|].
  specialize (Hd ltac:(other_names) ltac:(by intros e [a|e']) w).
  cbv beta in Hd. rewrite Hb in Hd. by destruct b.
Qed.

(** X18: [_select_year] never raises, and it returns [True] exactly when
    [select_by_visible_text] came back; that selection is then the last
    call it makes and the only selection. *)
Theorem select_year_selects_once (year : option string) (w : world) :
  let x := run (_select_year element year_share_above year) w in
  exists b,
    result_of element world x = Return b
    /\ if b then
         exists tr0 ev,
           trace_of element world x = tr0 ++ [ev]
           /\ selection_made element ev = true
           /\ none_of element (selection_made element) tr0
       else none_of element (selection_made element) (trace_of element world x).
Proof.
  cbv zeta.
  pose proof (select_year_decides element world browser year_share_above
                (selection_made element) [SelectByVisibleTextOp]
                selection_made_names year) as Hd.
  assert (exists b, result_of element world
                      (run (_select_year element year_share_above year) w) = Return b)
    as [b Hb].
  { unfold _select_year. apply ensures_try_returns. intros _. by exists false. }
  exists b. split; [exact Hb|].
  specialize (Hd ltac:(other_names) ltac:(by intros s t [a|e']) w).
  cbv beta in Hd. rewrite Hb in Hd. by destruct b.
Qed.

(** X15: [_handle_cloudflare] never raises.  Its answer depends on the
    wait for the challenge form alone: [True] when the form showed up or
    the wait timed out, [False] when the wait raised anything else.  The
    cookie buttons are looked for only when the form showed up, and no
    error there changes the answer. *)
Theorem handle_cloudflare_answer (w : world) :
  let x := run (_handle_cloudflare element) w in
  match fst (browser _ WaitForChallenge w) with
  | Return _ => result_of element world x = Return true
  | Raise e =>
      result_of element world x
      = Return (String.eqb (exn_class e) "TimeoutException")
      /\ trace_of element world x = [Called WaitForChallenge (Raise e)]
  end.
Proof.
  cbv zeta. unfold _handle_cloudflare, result_of, trace_of.
  rewrite run_try, run_bind, run_call.
  destruct (browser unit WaitForChallenge w) as [[u|e] w1]; cbn [fst].
  - rewrite run_bind, run_try, run_bind, run_call.
    destruct (browser (list element) (FindElements "xpath" cookie_buttons_xpath) w1)
      as [[[|button rest]|e] w2]; [done| |done].
    rewrite run_call. by destruct (browser unit (Click button) w2) as [[u'|e] w3].
  - by destruct (String.eqb (exn_class e) "TimeoutException").
Qed.

(** X21: [find_all_news_groups] always ends by quitting the driver, and
    quits once: [quit] is the last call made and no call before it is a
    [quit].  What it raises is an [Exception] whose message starts with
    the words of the wrapper, or what [quit] itself raised. *)
Theorem find_all_news_groups_always_quits
    (max_attempts : nat) (client_side_pagination : bool) (w : world) :
  let x := run (find_all_news_groups element year_share_above base_url parse_html
                  max_attempts client_side_pagination) w in
  exists tr0 q,
    trace_of element world x = tr0 ++ [Called Quit q]
    /\ none_of element (is_quit element) tr0
    /\ match q with
       | Return _ =>
           match result_of element world x with
           | Return _ => True
           | Raise e => exists e0, e = wrap_error e0
           end
       | Raise e => result_of element world x = Raise e
       end.
Proof.
  cbv zeta.
  exact (find_all_news_groups_quiet element world browser year_share_above base_url
           parse_html (is_quit element) [QuitOp] is_quit_names max_attempts
           client_side_pagination ltac:(other_names) w).
Qed.

(** X22: with [max_attempts = 0], the default, [find_all_news_groups]
    attempts no navigation: it looks for no "load more" button and no
    "next" link, scrolls to nothing, and waits for no other URL. *)
Theorem find_all_news_groups_default_stays (client_side_pagination : bool) (w : world) :
  none_of element (is_navigation element)
    (trace_of element world
       (run (find_all_news_groups element year_share_above base_url parse_html
               0 client_side_pagination) w)).
Proof.
  exact (find_all_news_groups_0_quiet element world browser year_share_above base_url
           parse_html (is_navigation element) _ is_navigation_names
           client_side_pagination ltac:(other_names) ltac:(other_names) w).
Qed.

(** The page sources read in a trace, and a group that was found in one
    of them. *)
Local Abbreviation reads tr := (length (List.filter (is_page_source element) tr)).
Local Abbreviation sourced tr g :=
  (exists source soup,
      In (Called (element:=element) PageSource (Return source)) tr
      /\ parse_html source = Return soup
      /\ find_news_group base_url soup = Return (Some g)).

Lemma is_page_source_names (ev : event element) :
  is_page_source element ev = true -> In (called element ev) [PageSourceOp].
Proof. destruct ev as [X o r]. destruct o; cbn; try done; tauto. Qed.

Lemma none_of_filter kind (tr : list (event element)) :
  none_of element kind tr -> List.filter kind tr = [].
Proof.
  unfold none_of. induction tr as [|ev tr IH]; [done|]. cbn.
  destruct (kind ev); cbn; [done|]. exact IH.
Qed.

Lemma sourced_app tr1 tr2 g : sourced tr1 g \/ sourced tr2 g -> sourced (tr1 ++ tr2) g.
Proof.
  intros [(source & soup & Hin & H)|(source & soup & Hin & H)];
    exists source, soup; (split; [|exact H]); apply in_or_app; [by left|by right].
Qed.

Lemma classify_page_reads :
  ensures (classify_page element base_url parse_html)
    (fun r tr =>
       (exists r0, tr = [Called PageSource r0])
       /\ match r with
          | Return (Some g) => sourced tr g
          | _ => True
          end).
Proof.
  intros w. unfold classify_page, result_of, trace_of.
  rewrite run_bind, run_call.
  destruct (browser string PageSource w) as [[source|e] w'];
    [|cbn; split; [by eexists|done]].
  rewrite run_bind. destruct (parse_html source) as [soup|e] eqn:Hparse; cbn;
    [|split; [by eexists|done]].
  destruct (find_news_group base_url soup) as [[g|]|e] eqn:Hfind; cbn;
    (split; [by eexists|]); try done.
  exists source, soup. by split; [left|].
Qed.

Lemma navigation_loop_reads attempts_left :
  forall news_groups,
    ensures (navigation_loop element base_url parse_html attempts_left news_groups)
      (fun r tr =>
         reads tr <= attempts_left
         /\ match r with
            | Return groups =>
                exists new,
                  groups = news_groups ++ new
                  /\ length new <= reads tr
                  /\ Forall (fun g => sourced tr g) new
            | Raise _ => True
            end).
Proof.
  pose proof (handle_load_more_quiet element world browser (is_page_source element)
                [PageSourceOp] is_page_source_names ltac:(other_names)) as Hload.
  pose proof (handle_pagination_quiet element world browser (is_page_source element)
                [PageSourceOp] is_page_source_names ltac:(other_names)) as Hpage.
  assert (forall n : nat,
             (forall news_groups,
                 ensures (navigation_loop element base_url parse_html n news_groups)
                   (fun r tr =>
                      reads tr <= n
                      /\ match r with
                         | Return groups =>
                             exists new,
                               groups = news_groups ++ new
                               /\ length new <= reads tr
                               /\ Forall (fun g => sourced tr g) new
                         | Raise _ => True
                         end)) ->
             forall news_groups tr0,
               reads tr0 = 0 ->
               ensures (pbind element (classify_page element base_url parse_html)
                          (fun group =>
                             navigation_loop element base_url parse_html n
                               (append_group group news_groups)))
                 (fun r tr =>
                    reads (tr0 ++ tr) <= S n
                    /\ match r with
                       | Return groups =>
                           exists new,
                             groups = news_groups ++ new
                             /\ length new <= reads (tr0 ++ tr)
                             /\ Forall (fun g => sourced (tr0 ++ tr) g) new
                       | Raise _ => True
                       end)) as Hstep.
  { intros n IH news_groups tr0 H0.
    eapply ensures_bind; [apply classify_page_reads| |].
    - intros group tr1 [[r0 ->] Hg].
      eapply ensures_weaken; [apply IH|]. cbv beta.
      intros r tr2 [Hle Hr]. rewrite !List.filter_app, !length_app, H0. cbn [List.filter is_page_source length].
      split; [lia|]. destruct r as [groups|e]; [|done].
      destruct Hr as (new & -> & Hlen & Hall).
      destruct group as [g|]; cbn [append_group].
      + exists (g :: new). rewrite <- app_assoc. split; [done|]. split; [cbn; lia|].
        constructor.
        * apply sourced_app. right. apply sourced_app. by left.
        * eapply Forall_impl; [exact Hall|]. intros g' Hg'.
          apply sourced_app. right. apply sourced_app. by right.
      + exists new. split; [done|]. split; [lia|].
        eapply Forall_impl; [exact Hall|]. intros g' Hg'.
        apply sourced_app. right. apply sourced_app. by right.
    - intros e tr1 [[r0 ->] _]. rewrite List.filter_app, length_app, H0. cbn. split; [lia|done]. }
  induction attempts_left as [|n IH]; intros news_groups; cbn [navigation_loop].
  - apply ensures_ret. split; [cbn; lia|]. exists []. by rewrite app_nil_r.
  - eapply ensures_bind; [exact Hload| |].
    + intros loaded tr0 H0%none_of_filter. destruct loaded.
      * apply (Hstep n IH). by rewrite H0.
      * eapply ensures_bind; [exact Hpage| |].
        -- intros paged tr1 H1%none_of_filter. destruct paged.
           ++ eapply ensures_weaken; [apply (Hstep n IH news_groups (tr0 ++ tr1))|].
              ** by rewrite List.filter_app, H0, H1.
              ** cbv beta. intros r tr. by rewrite <- app_assoc.
           ++ apply ensures_ret. rewrite app_nil_r, List.filter_app, H0, H1. cbn.
              split; [lia|]. exists []. by rewrite app_nil_r.
        -- intros e tr1 H1%none_of_filter. rewrite List.filter_app, H0, H1. cbn.
           split; [lia|done].
    + intros e tr0 H0%none_of_filter. rewrite H0. cbn. split; [lia|done].
Qed.

Lemma process_page_content_spec max_attempts self :
  ensures (_process_page_content element base_url parse_html max_attempts self)
    (fun r tr =>
       (1 <= reads tr <= 1 + max_attempts)
       /\ match r with
          | Return s =>
              (exists new,
                  news_groups s = news_groups self ++ new
                  /\ length new <= reads tr
                  /\ Forall (fun g => sourced tr g) new)
              /\ (client_side_pagination s = client_side_pagination self
                  \/ client_side_pagination s = true
                     /\ exists source g,
                         tr = [Called PageSource (Return source)]
                         /\ news_groups s = news_groups self ++ [g]
                         /\ detects_client_side g = true)
          | Raise _ => True
          end).
Proof.
  assert (forall groups tr0,
             reads tr0 = 1 ->
             (exists new,
                 groups = news_groups self ++ new
                 /\ length new <= 1 /\ Forall (fun g => sourced tr0 g) new) ->
             ensures (pbind element
                        (navigation_loop element base_url parse_html max_attempts groups)
                        (fun groups => Ret (Session (client_side_pagination self) groups)))
               (fun r tr =>
                  (1 <= reads (tr0 ++ tr) <= 1 + max_attempts)
                  /\ match r with
                     | Return s =>
                         (exists new,
                             news_groups s = news_groups self ++ new
                             /\ length new <= reads (tr0 ++ tr)
                             /\ Forall (fun g => sourced (tr0 ++ tr) g) new)
                         /\ (client_side_pagination s = client_side_pagination self
                             \/ client_side_pagination s = true
                                /\ exists source g,
                                    tr0 ++ tr = [Called PageSource (Return source)]
                                    /\ news_groups s = news_groups self ++ [g]
                                    /\ detects_client_side g = true)
                     | Raise _ => True
                     end)) as Hloop.
  { intros groups tr0 H0 (new0 & -> & Hlen0 & Hall0).
    eapply ensures_bind; [apply navigation_loop_reads| |].
    - intros groups tr1 (Hle & new & -> & Hlen & Hall). apply ensures_ret.
      rewrite app_nil_r, List.filter_app, length_app, H0. split; [lia|].
      cbn [news_groups client_side_pagination]. split; [|by left].
      exists (new0 ++ new). rewrite app_assoc. split; [done|].
      rewrite length_app. split; [lia|]. apply Forall_app. split.
      + eapply Forall_impl; [exact Hall0|]. intros g Hg. apply sourced_app. by left.
      + eapply Forall_impl; [exact Hall|]. intros g Hg. apply sourced_app. by right.
    - intros e tr1 [Hle _]. rewrite List.filter_app, length_app, H0. split; [lia|done]. }
  unfold _process_page_content.
  eapply ensures_bind; [apply classify_page_reads| |].
  - intros initial_group tr0 [[r0 ->] Hg]. destruct initial_group as [g|].
    + destruct (detects_client_side g) eqn:Hdetect.
      * apply ensures_ret. rewrite app_nil_r. cbn [List.filter is_page_source length].
        split; [lia|]. cbn [news_groups client_side_pagination]. split.
        -- exists [g]. split; [done|]. split; [cbn; lia|]. by constructor.
        -- right. split; [done|]. destruct Hg as (source & soup & [Hin|[]] & Hsoup).
           exists source, g. by rewrite Hin.
      * apply Hloop; [done|]. exists [g]. split; [done|]. split; [cbn; lia|].
        by constructor.
    + apply Hloop; [done|]. exists []. rewrite app_nil_r. split; [done|].
      split; [cbn; lia|]. constructor.
  - intros e tr0 [[r0 ->] _]. cbn. split; [lia|done].
Qed.

(** X19: [_process_page_content] reads the page source at least once and
    at most [1 + max_attempts] times.  When it returns, the groups are
    the ones it was given followed by new ones, no more than one for
    each read, and each new group is what [find_news_group] found in a
    page source that was read. *)
Theorem process_page_content_reads (max_attempts : nat) (self : session) (w : world) :
  let x := run (_process_page_content element base_url parse_html max_attempts self) w in
  let trace := trace_of element world x in
  (1 <= page_reads element trace <= 1 + max_attempts)
  /\ match result_of element world x with
     | Return s =>
         exists new,
           news_groups s = news_groups self ++ new
           /\ length new <= page_reads element trace
           /\ Forall (found_in_source element base_url parse_html trace) new
     | Raise _ => True
     end.
Proof.
  cbv zeta. unfold page_reads, found_in_source.
  pose proof (process_page_content_spec max_attempts self w) as [Hreads H].
  split; [exact Hreads|].
  destruct (result_of element world _) as [s|e]; [|done]. by destruct H as [H _].
Qed.

(** X20: [_process_page_content] changes the flag [client_side_pagination]
    only to set it, and only when the group of the first page has more
    than 60% of its anchors hidden; it then has read the page source
    once, has made no other call, and has added that group alone. *)
Theorem process_page_content_detection (max_attempts : nat) (self : session) (w : world) :
  let x := run (_process_page_content element base_url parse_html max_attempts self) w in
  match result_of element world x with
  | Return s =>
      client_side_pagination s = client_side_pagination self
      \/ client_side_pagination s = true
         /\ exists source g,
             trace_of element world x = [Called PageSource (Return source)]
             /\ news_groups s = news_groups self ++ [g]
             /\ found_in_source element base_url parse_html (trace_of element world x) g
             /\ detects_client_side g = true
  | Raise _ => True
  end.
Proof.
  cbv zeta. unfold found_in_source.
  pose proof (process_page_content_spec max_attempts self w) as [_ H].
  destruct (result_of element world _) as [s|e]; [|done].
  destruct H as [(new & Hnew & _ & Hall) [H|(Hs & source & g & Htr & Hg & Hd)]];
    [by left|right].
  split; [done|]. exists source, g. repeat split; try done.
  rewrite Hg in Hnew. apply app_inv_head in Hnew. subst new.
  by apply Forall_inv in Hall.
Qed.

End Navigation.

(** The detection at work: on a listing four of whose six articles are
    hidden, [_process_page_content] sets the flag after a single read of
    the page source, whatever [max_attempts] allows. *)
Example client_side_pagination_detected :
  let x := run Empty_set unit (Examples.static_browser "<html>")
             (_process_page_content Empty_set Examples.base_url
                (fun _ => Return Examples.paged_listing) 3 (Session false []))
             tt in
  match result_of Empty_set unit x with
  | Return s =>
      client_side_pagination s = true
      /\ map hidden_share (news_groups s) = [(4, 6)]%nat
  | Raise _ => False
  end
  /\ trace_of Empty_set unit x = [Called PageSource (Return "<html>")].
Proof. vm_compute. repeat split. Qed.

End NavigationFacts.
